(** * embera: embedding quality metrics and hardware tilings

    A shallow embedding of [embera/interfaces/embedding.py] (class
    [Embedding]) and [embera/preprocess/tiling_parser.py] (classes
    [DWaveNetworkXTiling] and [Tile]), with the properties their
    specification states about them.

    Python values are modelled as follows.
    - [int] is [Z]; [len] is [Z.of_nat (length _)].
    - a tuple of ints is a [list Z]; a list is a [list].
    - a [dict] is an association list in insertion order: assigning to a
      key that is present replaces the value in place, assigning to a new
      key appends at the end ([Dict.set]).
    - a [set] is a duplicate-free list in insertion order; Python does
      not specify the order in which a set is iterated, and the
      statements about a list made from a set are up to permutation.
    - a [str] that the code builds is the list of its characters.
    - a raised exception is the [Raise] branch of [result].
    - the quotient of two ints by [/] is the exact rational, in lowest
      terms ([Qred]); the float that Python computes is the rounding of
      this rational. Where the code compares quotients, as the keys of
      the connectivity histogram, [Embedding.WithFloats] has them as
      floats: a parameter ([PyFloat]), of which [IEEE754.binary64] is the
      double of CPython.
    - the built-in [hash] is a parameter ([PyHash]); [CPython.hash] is
      the one of CPython on a 64-bit build.
    - [embera.dwave_coordinates.from_graph_dict], which the tiling calls
      and which is not part of the two embedded modules, is a parameter. *)

From Stdlib Require Import ZArith QArith Lia Ascii SpecFloat.
From stdpp Require Import base decidable option list sets sorting numbers strings pretty.

Local Open Scope Z_scope.

(* [naive_solver] clears hypotheses by name, some of which do not exist. *)
#[local] Set Warnings "-clear-no-such-hyp".

(** ** Exceptions *)

Inductive exn : Type :=
  | KeyError
  | IndexError
  | ValueError
  | AttributeError
  | TypeError
  | ZeroDivisionError.

Inductive result (A : Type) : Type :=
  | Ok (a : A)
  | Raise (e : exn).
Arguments Ok {A} a.
Arguments Raise {A} e.

Global Instance result_ret : MRet result := fun A a => Ok a.
Global Instance result_bind : MBind result := fun A B f m =>
  match m with
  | Ok a => f a
  | Raise e => Raise e
  end.

Definition of_option {A} (e : exn) (o : option A) : result A :=
  match o with
  | Some a => Ok a
  | None => Raise e
  end.

(** A [for] loop whose body may raise: the accumulator is threaded from
    left to right and the first exception ends the loop. *)
Fixpoint foldM {A S} (body : S → A → result S) (s : S) (l : list A) : result S :=
  match l with
  | [] => Ok s
  | x :: l' => s' ← body s x; foldM body s' l'
  end.

(** ** Dictionaries *)

Module Dict.
Section dict.
Context {K V : Type} `{EqDecision K}.

Definition t := list (K * V).

Definition empty : t := [].

Fixpoint get (k : K) (d : t) : option V :=
  match d with
  | [] => None
  | (k', v) :: d' => if decide (k' = k) then Some v else get k d'
  end.

(** [d.get(k, dflt)] *)
Definition get_default (k : K) (dflt : V) (d : t) : V :=
  default dflt (get k d).

(** [d[k] = v] *)
Fixpoint set (k : K) (v : V) (d : t) : t :=
  match d with
  | [] => [(k, v)]
  | (k', v') :: d' =>
      if decide (k' = k) then (k, v) :: d' else (k', v') :: set k v d'
  end.

(** [d[k]] *)
Definition lookup (k : K) (d : t) : result V := of_option KeyError (get k d).

Definition keys (d : t) : list K := d.*1.
Definition values (d : t) : list V := d.*2.
Definition items (d : t) : list (K * V) := d.

(** [k in d] *)
Definition mem (k : K) (d : t) : bool := bool_decide (is_Some (get k d)).

(** [del d[k]] *)
Fixpoint remove (k : K) (d : t) : t :=
  match d with
  | [] => []
  | (k', v) :: d' => if decide (k' = k) then d' else (k', v) :: remove k d'
  end.

Definition delete (k : K) (d : t) : result t :=
  if mem k d then Ok (remove k d) else Raise KeyError.

End dict.
Global Arguments t : clear implicits.
End Dict.

(** ** Built-ins *)

Definition len {A} (l : list A) : Z := Z.of_nat (length l).

Definition sum (l : list Z) : Z := foldr Z.add 0 l.

(** [str(v)] for an int [v], as the list of its characters. *)
Definition str_int (v : Z) : list ascii := String.list_ascii_of_string (pretty v).

(** [f"{v:08}"] for an int [v]: its decimal digits, with zeros in front
    up to eight characters, the sign included and first. *)
Definition format_08 (v : Z) : list ascii :=
  let sign := if decide (v < 0) then ["-"%char] else [] in
  let digits := str_int (Z.abs v) in
  sign ++ replicate (8 - length sign - length digits) "0"%char ++ digits.

(** [s[-8:]] *)
Definition last_8 (s : list ascii) : list ascii := drop (length s - 8) s.

(** [range(start, stop, step)] for a positive [step]. *)
Definition range (start stop step : nat) : list nat :=
  (λ j, start + j * step)%nat <$> seq 0 ((stop - start + step - 1) / step)%nat.

(** [l[i]] for a non-negative index. *)
Definition getitem {A} (l : list A) (i : nat) : result A :=
  of_option IndexError (l !! i).

(** A list comprehension whose element expression may raise. *)
Fixpoint comprehension {A B} (f : A → result B) (l : list A) : result (list B) :=
  match l with
  | [] => Ok []
  | x :: l' => y ← f x; ys ← comprehension f l'; Ok (y :: ys)
  end.

(** Order of tuples of two ints, as [<=] compares them. *)
Definition tuple_le (p q : Z * Z) : Prop :=
  p.1 < q.1 ∨ (p.1 = q.1 ∧ p.2 ≤ q.2).

Global Instance tuple_le_dec p q : Decision (tuple_le p q).
Proof. unfold tuple_le. apply _. Defined.

(** [sorted(l, reverse=True)] on tuples of two ints. *)
Definition sorted_reverse (l : list (Z * Z)) : list (Z * Z) :=
  merge_sort (flip tuple_le) l.

(** [sorted(l)] on ints. *)
Definition sorted (l : list Z) : list Z := merge_sort Z.le l.

(** [hist[k] = 1 + hist.get(k, 0)] *)
Definition bump {K} `{EqDecision K} (k : K) (hist : Dict.t K Z) : Dict.t K Z :=
  Dict.set k (1 + Dict.get_default k 0 hist) hist.

(** A [set] built by [set(l)]: the distinct elements of [l]. *)
Definition set_of {A} `{EqDecision A} (l : list A) : list A := remove_dups l.

(** [s.add(x)] on a set kept as a duplicate-free list. *)
Definition set_add {A} `{EqDecision A} (x : A) (s : list A) : list A :=
  if decide (x ∈ s) then s else s ++ [x].

Global Instance Q_eq_dec : EqDecision Q.
Proof. solve_decision. Defined.

(** [a / b] on ints, as the exact rational of which the float of Python
    is the rounding; [true_div_float] below is the float. *)
Definition true_div (a b : Z) : result Q :=
  if decide (b = 0) then Raise ZeroDivisionError
  else Ok (Qred (inject_Z a / inject_Z b)).

(** The floats of Python, where they are compared: [int_truediv a b] is
    the float that [a / b] is on two ints, [b] not 0, and floats are keys
    of a dict by [==]. *)
Class PyFloat := {
  float : Type;
  float_eq_dec :: EqDecision float;
  int_truediv : Z → Z → float
}.

(** [a / b] on ints, as a float. *)
Definition true_div_float `{PyFloat} (a b : Z) : result float :=
  if decide (b = 0) then Raise ZeroDivisionError
  else Ok (int_truediv a b).

(** Comparison of lists of ints: the first position where the two lists
    differ decides; when there is none, the shorter list is the smaller. *)
Fixpoint list_lt (a b : list Z) : bool :=
  match a, b with
  | _, [] => false
  | [], _ :: _ => true
  | x :: a', y :: b' => if decide (x = y) then list_lt a' b' else bool_decide (x < y)
  end.

Fixpoint list_le (a b : list Z) : bool :=
  match a, b with
  | [], _ => true
  | _ :: _, [] => false
  | x :: a', y :: b' => if decide (x = y) then list_le a' b' else bool_decide (x < y)
  end.

Definition list_gt (a b : list Z) : bool := list_lt b a.
Definition list_ge (a b : list Z) : bool := list_le b a.

(** The built-in [hash], on ints and on tuples of ints. *)
Class PyHash := {
  hash_int : Z → Z;
  hash_tuple : list Z → Z
}.

(** [hash] as CPython (3.8 and later) computes it on a 64-bit build. *)
Module CPython.

Definition uhash (x : Z) : Z := x mod 2 ^ 64.

Definition shash (x : Z) : Z :=
  let y := uhash x in if decide (y < 2 ^ 63) then y else y - 2 ^ 64.

Definition PyHASH_MODULUS : Z := 2 ^ 61 - 1.

Definition long_hash (x : Z) : Z :=
  let h := Z.sgn x * (Z.abs x mod PyHASH_MODULUS) in
  if decide (h = -1) then -2 else h.

Definition XXPRIME_1 : Z := 11400714785074694791.
Definition XXPRIME_2 : Z := 14029467366897019727.
Definition XXPRIME_5 : Z := 2870177450012600261.

Definition XXROTATE (x : Z) : Z :=
  uhash (Z.lor (Z.shiftl x 31) (Z.shiftr x 33)).

Fixpoint tuplehash_loop (acc : Z) (items : list Z) : Z :=
  match items with
  | [] => acc
  | item :: items' =>
      let lane := uhash (long_hash item) in
      let acc := uhash (acc + lane * XXPRIME_2) in
      let acc := XXROTATE acc in
      let acc := uhash (acc * XXPRIME_1) in
      tuplehash_loop acc items'
  end.

Definition tuplehash (items : list Z) : Z :=
  let acc := tuplehash_loop XXPRIME_5 items in
  let acc := uhash (acc + Z.lxor (len items) (Z.lxor XXPRIME_5 3527539)) in
  if decide (acc = 2 ^ 64 - 1) then 1546275796 else shash acc.

Definition hash : PyHash := {| hash_int := long_hash; hash_tuple := tuplehash |}.

End CPython.

(** The floats of CPython: IEEE 754 doubles, rounded to nearest, ties to
    even. Two ints below [2 ^ 53] in absolute value, as lengths and
    degrees are, are doubles themselves, and their quotient is the
    quotient of these doubles. *)
Module IEEE754.

Definition prec : Z := 53.
Definition emax : Z := 1024.

Definition of_int (a : Z) : spec_float := binary_normalize prec emax a 0 false.

Definition div (a b : Z) : spec_float := SFdiv prec emax (of_int a) (of_int b).

Global Instance spec_float_eq_dec : EqDecision spec_float.
Proof. solve_decision. Defined.

Definition binary64 : PyFloat := {| float := spec_float; int_truediv := div |}.

End IEEE754.

(** The bucket counts of a list of keys. *)
Definition histogram {K} `{EqDecision K} (ks : list K) : Dict.t K Z :=
  foldl (λ hist k, bump k hist) Dict.empty ks.

(** ** Embedding *)

Definition Var := Z.
Definition Qubit := Z.

Module Embedding.

(** The dict part of an [Embedding]: variable to chain.  The [properties]
    bag is not read by any method below. *)
Definition t := Dict.t Var (list Qubit).

Definition chain_histogram (self : t) : Dict.t Z Z :=
  foldl (λ hist s, bump s hist) Dict.empty (len <$> Dict.values self).

(** The body of the loop over [target_edgelist] in [interactions]. *)
Definition adjacency_step (target_adj : Dict.t Qubit (list Qubit))
    (e : Qubit * Qubit) : Dict.t Qubit (list Qubit) :=
  let '(s, t) := e in
  if decide (s = t) then target_adj
  else
    let target_adj :=
      Dict.set s (t :: Dict.get_default s [] target_adj) target_adj in
    Dict.set t (s :: Dict.get_default t [] target_adj) target_adj.

Definition target_adjacency (target_edgelist : list (Qubit * Qubit))
  : Dict.t Qubit (list Qubit) :=
  foldl adjacency_step Dict.empty target_edgelist.

(** The inner loop of [interactions], over the chain of [v], for a qubit
    [s] of the chain of [u]. *)
Definition inner_loop (target_adj : Dict.t Qubit (list Qubit)) (s : Qubit)
    (edge_interactions : list (Qubit * Qubit)) (chain_v : list Qubit)
  : result (list (Qubit * Qubit)) :=
  foldM (λ edge_interactions t,
           adj_s ← Dict.lookup s target_adj;
           Ok (if decide (t ∈ adj_s) then edge_interactions ++ [(s, t)]
               else edge_interactions))
        edge_interactions chain_v.

(** The two nested loops over the chains in [interactions]. *)
Definition edge_interactions (self : t) (target_adj : Dict.t Qubit (list Qubit))
    (u v : Var) : result (list (Qubit * Qubit)) :=
  chain_u ← Dict.lookup u self;
  foldM (λ edge_interactions s,
           chain_v ← Dict.lookup v self;
           inner_loop target_adj s edge_interactions chain_v)
        [] chain_u.

(** The body of the loop over [source_edgelist] in [interactions]. *)
Definition interaction_step (self : t) (target_adj : Dict.t Qubit (list Qubit))
    (interactions : Dict.t (Var * Var) (list (Qubit * Qubit))) (e : Var * Var)
  : result (Dict.t (Var * Var) (list (Qubit * Qubit))) :=
  let '(u, v) := e in
  if decide (u = v) then Ok interactions
  else
    edge_interactions ← edge_interactions self target_adj u v;
    Ok (Dict.set (u, v) edge_interactions interactions).

Definition interactions (self : t) (source_edgelist : list (Var * Var))
    (target_edgelist : list (Qubit * Qubit))
  : result (Dict.t (Var * Var) (list (Qubit * Qubit))) :=
  let target_adj := target_adjacency target_edgelist in
  foldM (interaction_step self target_adj) Dict.empty source_edgelist.

Definition interactions_histogram (self : t) (source_edgelist : list (Var * Var))
    (target_edgelist : list (Qubit * Qubit)) : result (Dict.t Z Z) :=
  interactions ← interactions self source_edgelist target_edgelist;
  Ok (foldl (λ hist size, bump size hist) Dict.empty
            (len <$> Dict.values interactions)).

(** The body of the inner loop of [connections], for an interaction
    [(s, t)] of the logical edge [(u, v)]. *)
Definition connection_step (uv : Var * Var)
    (connections : Dict.t Qubit (list (Var * Var))) (st : Qubit * Qubit)
  : Dict.t Qubit (list (Var * Var)) :=
  let '(u, v) := uv in
  let '(s, t) := st in
  let connections :=
    Dict.set s ((u, v) :: Dict.get_default s [] connections) connections in
  Dict.set t ((v, u) :: Dict.get_default t [] connections) connections.

(** The loop of [connections] over the items of [interactions]. *)
Definition connections_of (interactions : Dict.t (Var * Var) (list (Qubit * Qubit)))
  : Dict.t Qubit (list (Var * Var)) :=
  foldl (λ connections item, foldl (connection_step item.1) connections item.2)
        Dict.empty (Dict.items interactions).

Definition connections (self : t) (source_edgelist : list (Var * Var))
    (target_edgelist : list (Qubit * Qubit))
  : result (Dict.t Qubit (list (Var * Var))) :=
  interactions ← interactions self source_edgelist target_edgelist;
  Ok (connections_of interactions).

(** The body of the first loop of [connectivity_histogram]. *)
Definition degree_step (source_degree : Dict.t Var Z) (e : Var * Var)
  : Dict.t Var Z :=
  let '(u, v) := e in
  if decide (u = v) then source_degree
  else bump v (bump u source_degree).

(** The first loop of [connectivity_histogram]. *)
Definition source_degree_of (source_edgelist : list (Var * Var)) : Dict.t Var Z :=
  foldl degree_step Dict.empty source_edgelist.

(** The body of the second loop of [connectivity_histogram]. *)
Definition connectivity (source_degree : Dict.t Var Z) (edges : list (Var * Var))
  : result Q :=
  '(u, v) ← getitem edges 0;
  let edgeset := set_of edges in
  d ← Dict.lookup u source_degree;
  true_div (len edgeset) d.

Definition connectivity_histogram (self : t) (source_edgelist : list (Var * Var))
    (target_edgelist : list (Qubit * Qubit)) : result (Dict.t Q Z) :=
  connections ← connections self source_edgelist target_edgelist;
  let source_degree := source_degree_of source_edgelist in
  foldM (λ hist '(t, edges),
           connectivity ← connectivity source_degree edges;
           Ok (bump connectivity hist))
        Dict.empty (Dict.items connections).

(** [connectivity_histogram] with the quotient as the float that it is
    in Python: the keys of [hist] are floats, and quotients that are the
    same float are counted in one bucket. *)
Module WithFloats.
Section floats.
Context `{PyFloat}.

(** The body of the second loop of [connectivity_histogram]. *)
Definition connectivity (source_degree : Dict.t Var Z) (edges : list (Var * Var))
  : result float :=
  '(u, v) ← getitem edges 0;
  let edgeset := set_of edges in
  d ← Dict.lookup u source_degree;
  true_div_float (len edgeset) d.

Definition connectivity_histogram (self : t) (source_edgelist : list (Var * Var))
    (target_edgelist : list (Qubit * Qubit)) : result (Dict.t float Z) :=
  connections ← connections self source_edgelist target_edgelist;
  let source_degree := source_degree_of source_edgelist in
  foldM (λ hist '(t, edges),
           connectivity ← connectivity source_degree edges;
           Ok (bump connectivity hist))
        Dict.empty (Dict.items connections).

End floats.
End WithFloats.

Definition quality_key (self : t) : list Z :=
  let hist := chain_histogram self in
  item ← sorted_reverse (Dict.items hist); [item.1; item.2].

Definition total_qubits (self : t) : result Z :=
  let QK := quality_key self in
  terms ← comprehension
             (λ i, a ← getitem QK i; b ← getitem QK (i + 1); Ok (a * b))
             (range 0 (length QK) 2);
  Ok (sum terms).

Definition max_chain (self : t) : result Z :=
  match Dict.keys (chain_histogram self) with
  | [] => Raise ValueError
  | x :: l => Ok (foldl Z.max x l)
  end.

Section hashing.
Context `{PyHash}.

Definition __key (self : t) : Z :=
  let embedding_key :=
    (λ '(v, chain),
       let chain_key := hash_int <$> chain in
       hash_tuple (sorted chain_key)) <$> Dict.items self in
  hash_tuple embedding_key.

Definition __hash__ (self : t) : Z := hash_int (__key self).

Definition __eq__ (self other : t) : bool :=
  bool_decide (__key self = __key other).

Definition __ne__ (self other : t) : bool :=
  bool_decide (__key self ≠ __key other).

Definition id (self : t) : list ascii :=
  match self with
  | [] => String.list_ascii_of_string "NATIVE"
  | _ :: _ =>
      let quality_id := mjoin (str_int <$> quality_key self) in
      let hash_id := last_8 (format_08 (__hash__ self)) in
      quality_id ++ String.list_ascii_of_string "_" ++ hash_id
  end.

End hashing.

Definition __lt__ (self other : t) : bool :=
  list_lt (quality_key self) (quality_key other).
Definition __le__ (self other : t) : bool :=
  list_le (quality_key self) (quality_key other).
Definition __gt__ (self other : t) : bool :=
  list_gt (quality_key self) (quality_key other).
Definition __ge__ (self other : t) : bool :=
  list_ge (quality_key self) (quality_key other).

End Embedding.

(** ** Hardware graphs *)

(** A node label of a hardware graph: a linear index, or a tuple of ints
    (a topology coordinate or a nice coordinate). *)
Inductive label : Type :=
  | LInt (n : Z)
  | LTuple (c : list Z).

Global Instance label_eq_dec : EqDecision label.
Proof. solve_decision. Defined.

(** The metadata dict [Tg.graph]; [None] is a key that is absent. *)
Record graph_dict : Type := {
  g_rows : option Z;
  g_columns : option Z;
  g_family : option string;
  g_labels : option string;
  g_tile : option Z
}.

(** A [networkx.Graph] as the tiling reads it. *)
Module nx.
Record Graph : Type := {
  graph : graph_dict;
  nodes : list label;
  edges : list (label * label)
}.
End nx.

(** The object returned by [embera.dwave_coordinates.from_graph_dict]. *)
Record Converter : Type := {
  linear_to_nice : label → label;
  nice_to_linear : label → label;
  coordinate_to_nice : label → label;
  nice_to_coordinate : label → label
}.

(** [t,i,j,u,k = x] *)
Definition unpack5 (x : label) : result (Z * Z * Z * Z * Z) :=
  match x with
  | LInt _ => Raise TypeError
  | LTuple [t; i; j; u; k] => Ok (t, i, j, u, k)
  | LTuple _ => Raise ValueError
  end.

(** ** Tile *)

Module Tile.

Record t : Type := {
  index : list Z;
  qubits : list label;
  nodes : list Var;
  neighbors : list (list Z)
}.

Definition __init__ (tile shape : list Z) (qubits : list label) : result t :=
  '(t, i, j) ←
    (if decide (len tile = 3) then
       match tile with
       | [t; i; j] => Ok (t, i, j)
       | _ => Raise ValueError
       end
     else
       match tile with
       | [i; j] => Ok (0, i, j)
       | _ => Raise ValueError
       end);
  Ok {| index := tile;
        qubits := qubits;
        nodes := [];
        neighbors := [ [t; i - 1; j];
                       [t; i + 1; j];
                       [t; i; j - 1];
                       [t; i; j + 1];
                       [t; i - 1; j - 1];
                       [t; i - 1; j + 1];
                       [t; i + 1; j + 1];
                       [t; i + 1; j - 1] ] |}.

Definition supply (self : t) : Z := len (qubits self).

Definition concentration (self : t) : result Q :=
  if decide (supply self ≠ 0) then true_div (len (nodes self)) (supply self)
  else Ok (inject_Z 0).

(** [self.qubits.append(q)] *)
Definition append_qubit (q : label) (self : t) : t :=
  {| index := index self; qubits := qubits self ++ [q];
     nodes := nodes self; neighbors := neighbors self |}.

(** [self.nodes.add(v)], as a placement process does. *)
Definition add_node (v : Var) (self : t) : t :=
  {| index := index self; qubits := qubits self;
     nodes := set_add v (nodes self); neighbors := neighbors self |}.

(** The generator [links], as the list of what it yields. *)
Definition links (self tile : t) (edges : list (label * label))
  : list (label * label) :=
  q ← qubits self;
  p ← qubits tile;
  if decide ((q, p) ∈ edges) then [(q, p)] else [].

(** [any(self.links(tile, edge_list))]: a pair is a tuple of length 2,
    which is true. *)
Definition is_connected (self tile : t) (edge_list : list (label * label)) : bool :=
  existsb (λ _, true) (links self tile edge_list).

End Tile.

(** ** DWaveNetworkXTiling *)

Module DWaveNetworkXTiling.

Record t : Type := {
  graph : graph_dict;
  qubits : list label;
  couplers : list (label * label);
  m : Z;
  n : Z;
  shape : list Z;
  to_nice : option (label → label);
  from_nice : option (label → label);
  tiles : Dict.t (list Z) Tile.t
}.

Definition with_tiles (tiles : Dict.t (list Z) Tile.t) (self : t) : t :=
  {| graph := graph self; qubits := qubits self; couplers := couplers self;
     m := m self; n := n self; shape := shape self;
     to_nice := to_nice self; from_nice := from_nice self; tiles := tiles |}.

(** Reading [self.to_nice] or [self.from_nice]. *)
Definition attr {A} (a : option A) : result A := of_option AttributeError a.

Definition get_tile (self : t) (x : label) : result (list Z) :=
  to_nice ← attr (to_nice self);
  '(t, i, j, u, k) ← unpack5 (to_nice x);
  Ok [t; i; j].

Definition set_tile (self : t) (x : label) (tile : list Z) : result label :=
  to_nice ← attr (to_nice self);
  '(_, _, _, u, k) ← unpack5 (to_nice x);
  from_nice ← attr (from_nice self);
  Ok (from_nice (LTuple (replicate (Z.to_nat (3 - len tile)) 0 ++ tile ++ [u; k]))).

Definition get_shore (self : t) (x : label) : result Z :=
  to_nice ← attr (to_nice self);
  '(_, _, _, u, _) ← unpack5 (to_nice x);
  Ok u.

Definition set_shore (self : t) (x : label) (u : Z) : result label :=
  to_nice ← attr (to_nice self);
  '(t, i, j, _, k) ← unpack5 (to_nice x);
  from_nice ← attr (from_nice self);
  Ok (from_nice (LTuple [t; i; j; u; k])).

Definition get_k (self : t) (x : label) : result Z :=
  to_nice ← attr (to_nice self);
  '(_, _, _, _, k) ← unpack5 (to_nice x);
  Ok k.

Definition set_k (self : t) (x : label) (k : Z) : result label :=
  to_nice ← attr (to_nice self);
  '(t, i, j, u, _) ← unpack5 (to_nice x);
  from_nice ← attr (from_nice self);
  Ok (from_nice (LTuple [t; i; j; u; k])).

(** The set [neighbors] built by the loop of [get_tile_neighbors], kept in
    insertion order. *)
Definition neighbor_candidates (tile : list Z) : list (list Z) :=
  foldl (λ neighbors '(i, d),
           let neg := take i tile ++ [d - 1] ++ drop (i + 1) tile in
           let neighbors := set_add neg neighbors in
           let pos := take i tile ++ [d + 1] ++ drop (i + 1) tile in
           set_add pos neighbors)
        [] (imap (λ i d, (i, d)) tile).

(** The order of the returned list is that of a Python set, which is not
    specified; it is the insertion order here. *)
Definition get_tile_neighbors (self : t) (tile : list Z) : list (list Z) :=
  filter (λ tile, Dict.mem tile (tiles self)) (neighbor_candidates tile).

Definition __getitem__ (self : t) (key : list Z) : result Tile.t :=
  Dict.lookup key (tiles self).

Definition __delitem__ (self : t) (key : list Z) : result t :=
  tiles ← Dict.delete key (tiles self);
  Ok (with_tiles tiles self).

Definition items (self : t) : list (list Z * Tile.t) := Dict.items (tiles self).

(** [range(n)] for an int [n]. *)
Definition range_int (n : Z) : list Z := Z.of_nat <$> seq 0 (Z.to_nat n).

(** The generator [get_qubits], as the list of what it yields; [None] is
    the default of [shore] and of [k]. *)
Definition get_qubits (self : t) (tile : list Z) (shore k : option Z)
  : result (list label) :=
  let shores := match shore with None => [0; 1] | Some shore => [shore] end in
  indices ← match k with
            | None => tile ← of_option KeyError (g_tile (graph self));
                      Ok (range_int tile)
            | Some k => Ok [k]
            end;
  let nice_tile := if decide (len tile = 2) then [0] ++ tile else tile in
  comprehension
    (λ '(u, k),
       let n := nice_tile ++ [u] ++ [k] in
       from_nice ← attr (from_nice self);
       Ok (from_nice (LTuple n)))
    (u ← shores; k ← indices; [(u, k)]).

(** The body of the loop that adds the [Tile] objects. *)
Definition add_qubit (self : t) (q : label) : result t :=
  tile ← get_tile self q;
  match Dict.get tile (tiles self) with
  | Some T => Ok (with_tiles (Dict.set tile (Tile.append_qubit q T) (tiles self)) self)
  | None =>
      T ← Tile.__init__ tile (shape self) [q];
      Ok (with_tiles (Dict.set tile T (tiles self)) self)
  end.

Section init.
(** [embera.dwave_coordinates.from_graph_dict], which is not part of the
    two modules embedded here. *)
Variable from_graph_dict : graph_dict → Converter.

(** The shape, from the family. *)
Definition shape_of (family : string) (m n : Z) : result (list Z) :=
  if decide (family = "chimera"%string) then Ok [m; n]
  else if decide (family = "pegasus"%string) then Ok [3; m; n]
  else Raise ValueError.

(** The pair [(to_nice, from_nice)], from the labels; neither attribute is
    set for other labels. *)
Definition resolve (converter : Converter) (labels : string)
  : option (label → label) * option (label → label) :=
  if decide (labels = "int"%string) then
    (Some (linear_to_nice converter), Some (nice_to_linear converter))
  else if decide (labels = "coordinate"%string) then
    (Some (coordinate_to_nice converter), Some (nice_to_coordinate converter))
  else if decide (labels = "nice"%string) then
    (Some (λ n, n), Some (λ n, n))
  else (None, None).

(** [__init__] up to and including [self.tiles = {}]. *)
Definition init_attributes (Tg : nx.Graph) : result t :=
  let graph := nx.graph Tg in
  let qubits := nx.nodes Tg in
  let couplers := nx.edges Tg in
  m ← of_option KeyError (g_rows graph);
  n ← of_option KeyError (g_columns graph);
  family ← of_option KeyError (g_family graph);
  shape ← shape_of family m n;
  labels ← of_option KeyError (g_labels graph);
  let converter := from_graph_dict graph in
  let '(to_nice, from_nice) := resolve converter labels in
  Ok {| graph := graph; qubits := qubits; couplers := couplers;
        m := m; n := n; shape := shape;
        to_nice := to_nice; from_nice := from_nice;
        tiles := Dict.empty |}.

Definition __init__ (Tg : nx.Graph) : result t :=
  self ← init_attributes Tg;
  foldM add_qubit self (qubits self).

End init.

End DWaveNetworkXTiling.

(** ** Reference definitions

    The definitions below are not translations of code: they name what
    the statements of the properties compare the code with. *)

(** Modelled from the spec: the qubits of a grid (chimera) hardware graph
    with [m] rows, [n] columns and [t] qubits in each shore of a tile, by
    their nice coordinates (layer, row, column, shore, index), the layer
    being 0.  The construction of hardware graphs is not part of the
    embedded modules. *)
Definition chimera_nice_coordinates (m n t : nat) : list (list Z) :=
  i ← seq 0 m; j ← seq 0 n; u ← seq 0 2; k ← seq 0 t;
  [[0; Z.of_nat i; Z.of_nat j; Z.of_nat u; Z.of_nat k]].

(** A grid hardware graph with 2 rows, 2 columns and 4 qubits in each
    shore of a tile, labelled by nice coordinates.  The couplers, which
    the tiling stores and does not read, are left out. *)
Definition chimera_2_2_4 : nx.Graph :=
  {| nx.graph := {| g_rows := Some 2; g_columns := Some 2;
                    g_family := Some "chimera"%string;
                    g_labels := Some "nice"%string;
                    g_tile := Some 4 |};
     nx.nodes := LTuple <$> chimera_nice_coordinates 2 2 4;
     nx.edges := [] |}.

(** A converter that leaves every label as it is: with the labels
    ['nice'] none of its four functions is called. *)
Definition unused_converter (g : graph_dict) : Converter :=
  {| linear_to_nice := λ x, x; nice_to_linear := λ x, x;
     coordinate_to_nice := λ x, x; nice_to_coordinate := λ x, x |}.

(** [s] and [t] are the two ends of a listed target edge that is not a
    self-loop. *)
Definition target_edge (T : list (Qubit * Qubit)) (s t : Qubit) : Prop :=
  s ≠ t ∧ ((s, t) ∈ T ∨ (t, s) ∈ T).

(** Degree of [a] in the source graph, self-loops excluded: the number of
    listed edges with two distinct endpoints, one of which is [a]. *)
Definition degree (source_edgelist : list (Var * Var)) (a : Var) : Z :=
  len (filter (λ e, e.1 ≠ e.2 ∧ (e.1 = a ∨ e.2 = a)) source_edgelist).

(** The occurrences of physical qubits in realized interactions, in the
    order [connections] visits them: [(s, (u, v))] and [(t, (v, u))] for
    each interaction [(s, t)] of the logical edge [(u, v)]. *)
Definition incidences (interactions : Dict.t (Var * Var) (list (Qubit * Qubit)))
  : list (Qubit * (Var * Var)) :=
  item ← interactions;
  st ← item.2;
  [(st.1, (item.1.1, item.1.2)); (st.2, (item.1.2, item.1.1))].

(** Recording one occurrence: [connections[q] = [e] + connections.get(q, [])]. *)
Definition record (connections : Dict.t Qubit (list (Var * Var)))
    (occ : Qubit * (Var * Var)) : Dict.t Qubit (list (Var * Var)) :=
  Dict.set occ.1 (occ.2 :: Dict.get_default occ.1 [] connections) connections.

(** The oriented logical edges recorded for the qubit [q], latest first. *)
Definition edges_through (interactions : Dict.t (Var * Var) (list (Qubit * Qubit)))
    (q : Qubit) : list (Var * Var) :=
  reverse ((filter (λ e, e.1 = q) (incidences interactions)).*2).

(** The qubits that occur on either side of a realized interaction. *)
Definition touched (interactions : Dict.t (Var * Var) (list (Qubit * Qubit)))
  : list Qubit :=
  remove_dups (incidences interactions).*1.

(** The ratio bucketed for the qubit [q]: the number of distinct oriented
    logical edges recorded for it, over the degree of the first endpoint
    of the first of them. *)
Definition qubit_connectivity (source_edgelist : list (Var * Var))
    (interactions : Dict.t (Var * Var) (list (Qubit * Qubit))) (q : Qubit)
  : option Q :=
  match edges_through interactions q with
  | [] => None
  | (a, _) :: _ =>
      Some (Qred (inject_Z (len (remove_dups (edges_through interactions q)))
                  / inject_Z (degree source_edgelist a)))
  end.

(** The float bucketed for the qubit [q]: the quotient, as Python
    computes it, of the number of distinct oriented logical edges
    recorded for [q] by the degree of the first endpoint of the first of
    them. *)
Definition qubit_quotient `{PyFloat} (source_edgelist : list (Var * Var))
    (interactions : Dict.t (Var * Var) (list (Qubit * Qubit))) (q : Qubit)
  : option float :=
  match edges_through interactions q with
  | [] => None
  | (a, _) :: _ =>
      Some (int_truediv (len (remove_dups (edges_through interactions q)))
                        (degree source_edgelist a))
  end.

(** The ratio of the specification for a qubit [s] and a logical edge
    [(u, v)]: the number of distinct physical edges that realize [(u, v)]
    through [s], over the degree of [u]. *)
Definition physical_edge_ratio (source_edgelist : list (Var * Var))
    (interactions : Dict.t (Var * Var) (list (Qubit * Qubit)))
    (s : Qubit) (uv : Var * Var) : Q :=
  let through_s :=
    filter (λ st, st.1 = s) (Dict.get_default uv [] interactions) in
  Qred (inject_Z (len (remove_dups through_s))
        / inject_Z (degree source_edgelist uv.1)).

(** The number of qubits a chain-length histogram accounts for: length
    times count, summed over the buckets. *)
Definition weight (hist : list (Z * Z)) : Z := sum ((λ p, p.1 * p.2) <$> hist).

(** The chains of an embedding, in storage order. *)
Definition chains (E : Embedding.t) : list (list Qubit) := Dict.values E.

(** [f] takes distinct values on distinct elements of [l]. *)
Definition injective_on {A B} (f : A → B) (l : list A) : Prop :=
  Forall (λ x, Forall (λ y, f x = f y → x = y) l) l.

Global Instance injective_on_dec {A B} `{EqDecision A, EqDecision B}
  (f : A → B) (l : list A) : Decision (injective_on f l).
Proof. unfold injective_on. apply _. Defined.

(** The tuples of qubit hashes that [__key] hashes, one for each chain. *)
Definition chain_keys `{PyHash} (E : Embedding.t) : list (list Z) :=
  (λ chain, sorted (hash_int <$> chain)) <$> chains E.

(** No two of the values that [__key] hashes, for [E] or for [F], have
    the same hash. *)
Definition collision_free `{PyHash} (E F : Embedding.t) : Prop :=
  injective_on hash_int (concat (chains E ++ chains F)) ∧
  injective_on hash_tuple
    ((hash_tuple <$> chain_keys E) :: (hash_tuple <$> chain_keys F)
     :: chain_keys E ++ chain_keys F).

Global Instance collision_free_dec `{PyHash} E F : Decision (collision_free E F).
Proof. unfold collision_free. apply _. Defined.



Global Instance target_edge_dec T s t : Decision (target_edge T s t).
Proof. unfold target_edge. apply _. Defined.

(** The pairs that [interactions] lists for two chains, in the order of
    the two nested loops. *)
Definition chain_pairs (T : list (Qubit * Qubit)) (chain_u chain_v : list Qubit)
  : list (Qubit * Qubit) :=
  s ← chain_u; (λ t, (s, t)) <$> filter (target_edge T s) chain_v.

(** A subscript that [interactions] evaluates for the source edge
    [(u, v)] and that raises: [self[u]], or [self[v]] when the chain of
    [u] is not empty, or [target_adj[s]] for a qubit [s] of the chain of
    [u] without target edges, when the chain of [v] is not empty. *)
Definition lookup_fails (E : Embedding.t) (T : list (Qubit * Qubit))
    (u v : Var) : Prop :=
  Dict.get u E = None ∨
  (Dict.get_default u [] E ≠ [] ∧ Dict.get v E = None) ∨
  (Dict.get_default v [] E ≠ [] ∧
   ∃ s, s ∈ Dict.get_default u [] E ∧ ∀ t, ¬ target_edge T s t).

(** No qubit lies in the chains of two variables. *)
Definition chains_disjoint (E : Embedding.t) : Prop :=
  ∀ u u' q, q ∈ Dict.get_default u [] E → q ∈ Dict.get_default u' [] E → u = u'.

Global Instance exn_eq_dec : EqDecision exn.
Proof. solve_decision. Defined.

Global Instance result_eq_dec {A} `{EqDecision A} : EqDecision (result A).
Proof. solve_decision. Defined.

(** A tile coordinate as [set_tile] and [get_qubits] complete it: zeros
    in front, up to three components. *)
Definition pad_tile (tile : list Z) : list Z :=
  replicate (Z.to_nat (3 - len tile)) 0 ++ tile.

(** The eight coordinates around [(t, i, j)] in the layer [t]. *)
Definition around (t i j : Z) (c : list Z) : Prop :=
  ∃ di dj, -1 ≤ di ≤ 1 ∧ -1 ≤ dj ≤ 1 ∧ (di, dj) ≠ (0, 0) ∧
           c = [t; i + di; j + dj].

(** What the loop of [__init__] keeps true of [self.tiles] once it has
    gone through the qubits [seen], [tile_of] being [get_tile]: a tile is
    stored under its own coordinate, which has three components; it holds,
    in order, the qubits seen so far whose tile it is, at least one; its
    [nodes] are empty and its [neighbors] are the eight coordinates around
    it; and a coordinate without a tile is the tile of no qubit seen. *)
Definition tiles_of (tile_of : label → result (list Z))
    (tiles : Dict.t (list Z) Tile.t) (seen : list label) : Prop :=
  NoDup (Dict.keys tiles) ∧
  sum (Tile.supply <$> Dict.values tiles) = len seen ∧
  ∀ key,
    match Dict.get key tiles with
    | Some tile =>
        Tile.index tile = key ∧
        Tile.qubits tile = filter (λ q, tile_of q = Ok key) seen ∧
        Tile.qubits tile ≠ [] ∧
        Tile.nodes tile = [] ∧
        ∃ t i j, key = [t; i; j] ∧ ∀ c, c ∈ Tile.neighbors tile ↔ around t i j c
    | None => filter (λ q, tile_of q = Ok key) seen = []
    end.

(** The shores and the indices that [get_qubits] runs through: the one
    asked for, and by default both shores, and the indices below the size
    [graph['tile']] of a shore. *)
Definition asked_shore (shore : option Z) (u : Z) : Prop :=
  match shore with
  | None => u = 0 ∨ u = 1
  | Some shore => u = shore
  end.

Definition asked_index (size k : option Z) (i : Z) : Prop :=
  match k with
  | None => ∃ n, size = Some n ∧ 0 ≤ i < n
  | Some k => i = k
  end.

(** The lexicographic order of lists of ints, in words: [a] comes
    before [b], or is [b], when [a] is the beginning of [b], or when at
    the first position where the two differ [a] has the smaller entry. *)
Definition lex_le (a b : list Z) : Prop :=
  a `prefix_of` b ∨
  ∃ p x y a' b', a = p ++ x :: a' ∧ b = p ++ y :: b' ∧ x < y.

(** * Properties *)

(** ** Dictionaries *)

Section dict_facts.
Context {K V : Type} `{EqDecision K}.
Implicit Types (k : K) (v : V) (d : Dict.t K V).

Lemma Dict_get_set_eq k v d : Dict.get k (Dict.set k v d) = Some v.
Proof.
  induction d as [|[k' v'] d IH]; simpl.
  - by rewrite decide_True.
  - destruct (decide (k' = k)) as [->|Hne]; simpl.
    + by rewrite decide_True.
    + by rewrite decide_False.
Qed.

Lemma Dict_get_set_ne k k' v d :
  k ≠ k' → Dict.get k' (Dict.set k v d) = Dict.get k' d.
Proof.
  intros Hne. induction d as [|[k0 v0] d IH]; simpl.
  - by rewrite decide_False.
  - destruct (decide (k0 = k)) as [->|Hne0]; simpl.
    + by rewrite !decide_False.
    + destruct (decide (k0 = k')); done.
Qed.

Lemma Dict_get_set k k' v d :
  Dict.get k' (Dict.set k v d) = if decide (k = k') then Some v else Dict.get k' d.
Proof.
  destruct (decide (k = k')) as [->|Hne].
  - apply Dict_get_set_eq.
  - by apply Dict_get_set_ne.
Qed.

Lemma Dict_get_Some_elem_of k v d : Dict.get k d = Some v → (k, v) ∈ d.
Proof.
  induction d as [|[k' v'] d IH]; simpl; [done|].
  destruct (decide (k' = k)) as [->|Hne].
  - intros [= ->]. left.
  - intros Hget. right. by apply IH.
Qed.

Lemma Dict_get_is_Some k d : is_Some (Dict.get k d) ↔ k ∈ Dict.keys d.
Proof.
  unfold Dict.keys. induction d as [|[k' v'] d IH]; simpl.
  - split; [by intros [? ?]|by intros ?%elem_of_nil].
  - destruct (decide (k' = k)) as [->|Hne].
    + split; [intros _; left|eauto].
    + rewrite IH. split; [by right|].
      intros [?|?]%elem_of_cons; [congruence|done].
Qed.


Lemma Dict_mem_keys k d : Dict.mem k d = true ↔ k ∈ Dict.keys d.
Proof. unfold Dict.mem. by rewrite bool_decide_eq_true, Dict_get_is_Some. Qed.

Lemma Dict_keys_set k v d :
  Dict.keys (Dict.set k v d) =
  if decide (k ∈ Dict.keys d) then Dict.keys d else Dict.keys d ++ [k].
Proof.
  unfold Dict.keys. induction d as [|[k' v'] d IH].
  - case_decide as Hin; [by apply elem_of_nil in Hin|done].
  - cbn [Dict.set]. destruct (decide (k' = k)) as [->|Hne].
    + rewrite decide_True; [done|rewrite fmap_cons; left].
    + rewrite !fmap_cons, IH. cbn [fst].
      destruct (decide (k ∈ d.*1)) as [Hin|Hnin].
      * rewrite decide_True; [done|by right].
      * rewrite decide_False; [done|].
        intros [?|?]%elem_of_cons; [congruence|done].
Qed.

Lemma Dict_keys_set_add k v d :
  Dict.keys (Dict.set k v d) = set_add k (Dict.keys d).
Proof. apply Dict_keys_set. Qed.

Lemma Dict_NoDup_keys_set k v d :
  NoDup (Dict.keys d) → NoDup (Dict.keys (Dict.set k v d)).
Proof.
  intros Hnd. rewrite Dict_keys_set. case_decide; [done|].
  apply NoDup_app. split_and!; [done| |apply NoDup_singleton].
  intros x Hx ->%list_elem_of_singleton. done.
Qed.

Lemma Dict_elem_of_keys_set k k' v d :
  k' ∈ Dict.keys (Dict.set k v d) ↔ k' = k ∨ k' ∈ Dict.keys d.
Proof.
  rewrite Dict_keys_set. case_decide.
  - split; [by right|]. intros [->|?]; done.
  - rewrite elem_of_app, list_elem_of_singleton. tauto.
Qed.

(** In a dict (no key twice) the items are the lookups. *)
Lemma Dict_elem_of_items k v d :
  NoDup (Dict.keys d) → (k, v) ∈ Dict.items d ↔ Dict.get k d = Some v.
Proof.
  unfold Dict.keys, Dict.items. intros Hnd. split; [|apply Dict_get_Some_elem_of].
  induction d as [|[k' v'] d IH]; [by intros ?%elem_of_nil|].
  rewrite fmap_cons in Hnd. apply NoDup_cons in Hnd as [Hk' Hnd].
  intros [[= -> ->]|Hin]%elem_of_cons; simpl.
  - by rewrite decide_True.
  - rewrite decide_False; [by apply IH|].
    intros ->. apply Hk'. apply list_elem_of_fmap. by exists (k, v).
Qed.

End dict_facts.

(** ** Loops *)


Lemma foldM_ext {A S} (body1 body2 : S → A → result S) s l :
  (∀ s x, body1 s x = body2 s x) → foldM body1 s l = foldM body2 s l.
Proof.
  intros Hb. revert s. induction l as [|x l IH]; intros s; simpl; [done|].
  rewrite Hb. destruct (body2 s x); simpl; [apply IH|done].
Qed.

(** A loop whose body never raises is a plain fold. *)
Lemma foldM_total {A S} (body : S → A → result S) (f : S → A → S) s l :
  (∀ s x, x ∈ l → body s x = Ok (f s x)) →
  foldM body s l = Ok (foldl f s l).
Proof.
  revert s. induction l as [|x l IH]; intros s Hb; simpl; [done|].
  rewrite Hb by left. simpl. apply IH. intros s' y Hy. apply Hb. by right.
Qed.

(** ** Histograms *)

Section histogram.
Context {K : Type} `{EqDecision K}.

Lemma bump_get (k k' : K) hist :
  Dict.get_default k' 0 (bump k hist) =
  Dict.get_default k' 0 hist + (if decide (k = k') then 1 else 0).
Proof.
  unfold bump, Dict.get_default. rewrite Dict_get_set.
  case_decide as Hk; [subst; simpl; lia|lia].
Qed.

Lemma bump_keys (k k' : K) hist :
  k' ∈ Dict.keys (bump k hist) ↔ k' = k ∨ k' ∈ Dict.keys hist.
Proof. apply Dict_elem_of_keys_set. Qed.

Lemma foldl_bump_get (k : K) ks hist :
  Dict.get_default k 0 (foldl (λ hist k, bump k hist) hist ks) =
  Dict.get_default k 0 hist + len (filter (λ k', k' = k) ks).
Proof.
  revert hist. induction ks as [|k0 ks IH]; intros hist; simpl.
  - unfold len. simpl. lia.
  - rewrite IH, bump_get, filter_cons. unfold len.
    destruct (decide (k0 = k)); simpl; lia.
Qed.

(** The count of a bucket is the number of occurrences of its key. *)
Lemma histogram_get (k : K) ks :
  Dict.get_default k 0 (histogram ks) = len (filter (λ k', k' = k) ks).
Proof. unfold histogram. rewrite foldl_bump_get. done. Qed.

End histogram.

(** ** Chain histogram, quality key and total_qubits *)


Lemma weight_cons p hist : weight (p :: hist) = p.1 * p.2 + weight hist.
Proof. done. Qed.

Lemma weight_Permutation h1 h2 : h1 ≡ₚ h2 → weight h1 = weight h2.
Proof. induction 1; rewrite ?weight_cons; lia. Qed.

Lemma weight_bump (s : Z) (hist : Dict.t Z Z) :
  weight (bump s hist) = weight hist + s.
Proof.
  unfold bump, Dict.get_default.
  induction hist as [|[s' c] hist IH]; simpl.
  - rewrite weight_cons. simpl. unfold weight, sum. simpl. lia.
  - destruct (decide (s' = s)) as [->|Hne]; simpl.
    + rewrite !weight_cons. simpl. lia.
    + rewrite !weight_cons, IH. simpl. lia.
Qed.

Lemma weight_foldl_bump (lens : list Z) (hist : Dict.t Z Z) :
  weight (foldl (λ hist s, bump s hist) hist lens) = weight hist + sum lens.
Proof.
  revert hist. induction lens as [|s lens IH]; intros hist; simpl.
  - unfold sum. simpl. lia.
  - rewrite IH, weight_bump. unfold sum. simpl. lia.
Qed.

Lemma weight_chain_histogram (E : Embedding.t) :
  weight (Embedding.chain_histogram E) = sum (len <$> chains E).
Proof.
  unfold Embedding.chain_histogram. rewrite weight_foldl_bump. done.
Qed.

Lemma lookup_flatten_pairs (ps : list (Z * Z)) (j : nat) (p : Z * Z) :
  ps !! j = Some p →
  (p ← ps; [p.1; p.2]) !! (j * 2)%nat = Some p.1 ∧
  (p ← ps; [p.1; p.2]) !! (j * 2 + 1)%nat = Some p.2.
Proof.
  revert j. induction ps as [|q ps IH]; intros j Hj; [done|].
  destruct j as [|j].
  - injection Hj as ->. done.
  - apply IH in Hj as [H1 H2]. split.
    + exact H1.
    + replace (S j * 2 + 1)%nat with (S (S (j * 2 + 1))) by lia. exact H2.
Qed.

Lemma length_flatten_pairs (ps : list (Z * Z)) :
  length (p ← ps; [p.1; p.2]) = (length ps * 2)%nat.
Proof.
  induction ps as [|p ps IH]; [done|].
  change (S (S (length (p ← ps; [p.1; p.2]))) = (S (length ps) * 2)%nat). lia.
Qed.

(** Reading a list two entries at a time, from the pair of index [m] on. *)
Lemma comprehension_pairs (QK : list Z) (ps : list (Z * Z)) (m : nat) :
  (∀ j p, ps !! j = Some p →
          QK !! ((m + j) * 2)%nat = Some p.1 ∧
          QK !! ((m + j) * 2 + 1)%nat = Some p.2) →
  comprehension (λ i, a ← getitem QK i; b ← getitem QK (i + 1); Ok (a * b))
                ((λ j, 0 + j * 2)%nat <$> seq m (length ps))
  = Ok ((λ p, p.1 * p.2) <$> ps).
Proof.
  unfold getitem.
  revert m. induction ps as [|p ps IH]; intros m Hps; [done|].
  change (length (p :: ps)) with (S (length ps)).
  rewrite <-cons_seq, !fmap_cons. cbn [comprehension].
  destruct (Hps 0%nat p eq_refl) as [H1 H2].
  rewrite Nat.add_0_r in H1, H2.
  cbn [Nat.add]. rewrite H1, H2. cbn [of_option mbind result_bind].
  specialize (IH (S m)). cbn [Nat.add] in IH. rewrite IH; [done|].
  intros j q Hq. replace (S (m + j))%nat with (m + S j)%nat by lia.
  by apply Hps.
Qed.

(** C3. For every Embedding, [total_qubits], the sum of the products
    [QK[i] * QK[i+1]] over the consecutive pairs of [quality_key],
    returns the sum of the lengths of the chains. *)
Theorem total_qubits_sum_chain_lengths (E : Embedding.t) :
  Embedding.total_qubits E = Ok (sum (len <$> chains E)).
Proof.
  unfold Embedding.total_qubits, Embedding.quality_key.
  set (ps := sorted_reverse (Dict.items (Embedding.chain_histogram E))).
  rewrite length_flatten_pairs. unfold range.
  replace ((length ps * 2 - 0 + 2 - 1) / 2)%nat with (length ps).
  2:{ apply Nat.div_unique with 1%nat; lia. }
  rewrite (comprehension_pairs _ ps 0).
  - cbn [mbind result_bind]. f_equal.
    rewrite <-weight_chain_histogram. apply weight_Permutation.
    apply merge_sort_Permutation.
  - intros j p Hj. by apply lookup_flatten_pairs.
Qed.

(** ** The order of embeddings *)

Lemma list_le_refl a : list_le a a = true.
Proof. induction a as [|x a IH]; simpl; [done|]. by rewrite decide_True. Qed.

Lemma list_le_antisym a b : list_le a b = true → list_le b a = true → a = b.
Proof.
  revert b. induction a as [|x a IH]; intros [|y b]; simpl; try done.
  destruct (decide (x = y)) as [->|Hne].
  - rewrite decide_True by done. intros Hab Hba. f_equal. by apply IH.
  - rewrite decide_False by done.
    intros ?%bool_decide_eq_true ?%bool_decide_eq_true. lia.
Qed.

Lemma list_le_trans a b c :
  list_le a b = true → list_le b c = true → list_le a c = true.
Proof.
  revert b c. induction a as [|x a IH]; intros [|y b] [|z c]; simpl; try done.
  destruct (decide (x = y)) as [->|Hxy], (decide (y = z)) as [->|Hyz].
  - apply IH.
  - done.
  - rewrite decide_False by done. done.
  - intros Hlt1%bool_decide_eq_true Hlt2%bool_decide_eq_true.
    rewrite decide_False by lia. apply bool_decide_eq_true. lia.
Qed.

Lemma list_le_total a b : list_le a b = true ∨ list_le b a = true.
Proof.
  revert b. induction a as [|x a IH]; intros [|y b]; simpl; auto.
  destruct (decide (x = y)) as [->|Hne].
  - rewrite decide_True by done. apply IH.
  - rewrite decide_False by done. rewrite !bool_decide_eq_true. lia.
Qed.

Lemma list_lt_not_le a b : list_lt a b = negb (list_le b a).
Proof.
  revert b. induction a as [|x a IH]; intros [|y b]; simpl; try done.
  destruct (decide (x = y)) as [->|Hne].
  - rewrite decide_True by done. apply IH.
  - rewrite decide_False by done.
    destruct (bool_decide_reflect (x < y)), (bool_decide_reflect (y < x));
      simpl; try done; lia.
Qed.

(** What [list_le] decides: [a] is a prefix of [b], or the two lists
    differ first at a position where [a] has the smaller entry. *)
Lemma list_le_lexicographic a b :
  list_le a b = true ↔
  a `prefix_of` b ∨
  ∃ p x y a' b', a = p ++ x :: a' ∧ b = p ++ y :: b' ∧ x < y.
Proof.
  revert b. induction a as [|x a IH]; intros b.
  - simpl. split; [intros _; left; apply prefix_nil|done].
  - destruct b as [|y b]; simpl.
    + split; [done|]. intros [[k Hk]|(p & x' & y' & a' & b' & _ & Hb & _)].
      * done.
      * by destruct p.
    + destruct (decide (x = y)) as [->|Hne].
      * rewrite IH. split.
        -- intros [Hpre|(p & x' & y' & a' & b' & -> & -> & Hlt)].
           ++ left. by apply prefix_cons.
           ++ right. by exists (y :: p), x', y', a', b'.
        -- intros [Hpre|(p & x' & y' & a' & b' & Ha & Hb & Hlt)].
           ++ left. by apply prefix_cons_inv_2 in Hpre.
           ++ destruct p as [|z p]; simplify_eq/=; [lia|].
              right. by exists p, x', y', a', b'.
      * rewrite bool_decide_eq_true. split.
        -- intros Hlt. right. by exists [], x, y, a, b.
        -- intros [Hpre|(p & x' & y' & a' & b' & Ha & Hb & Hlt)].
           ++ by apply prefix_cons_inv_1 in Hpre.
           ++ destruct p as [|z p]; simplify_eq/=; done.
Qed.

(** C5, as the code has it. The four comparisons of Embeddings are the
    lexicographic comparisons of their [quality_key]s: [E <= F] holds
    exactly when the key of [E] comes before the key of [F] or is it,
    [E < F] exactly when moreover the keys differ, and [>=] and [>] are
    these with the sides exchanged. The order is transitive, and two
    Embeddings that are [<=] each other have the same [quality_key]. *)
Theorem quality_key_order (E F G : Embedding.t) :
  (Embedding.__le__ E F = true ↔
   lex_le (Embedding.quality_key E) (Embedding.quality_key F)) ∧
  (Embedding.__lt__ E F = true ↔
   lex_le (Embedding.quality_key E) (Embedding.quality_key F) ∧
   Embedding.quality_key E ≠ Embedding.quality_key F) ∧
  (Embedding.__ge__ E F = true ↔
   lex_le (Embedding.quality_key F) (Embedding.quality_key E)) ∧
  (Embedding.__gt__ E F = true ↔
   lex_le (Embedding.quality_key F) (Embedding.quality_key E) ∧
   Embedding.quality_key F ≠ Embedding.quality_key E) ∧
  (Embedding.__le__ E F = true → Embedding.__le__ F E = true →
   Embedding.quality_key E = Embedding.quality_key F) ∧
  (Embedding.__le__ E F = true → Embedding.__le__ F G = true →
   Embedding.__le__ E G = true).
Proof.
  assert (∀ a b, list_lt a b = true ↔ lex_le a b ∧ a ≠ b) as Hlt.
  { intros a b. unfold lex_le. rewrite <-list_le_lexicographic, list_lt_not_le.
    rewrite negb_true_iff. split.
    - intros Hba. destruct (list_le_total a b) as [Hab|Hab]; [|congruence].
      split; [done|]. intros ->. by rewrite list_le_refl in Hba.
    - intros [Hab Hne]. destruct (list_le b a) eqn:Hba; [|done].
      by apply list_le_antisym in Hba. }
  unfold Embedding.__le__, Embedding.__lt__, Embedding.__gt__, Embedding.__ge__,
    list_gt, list_ge.
  split_and!.
  - apply list_le_lexicographic.
  - apply Hlt.
  - apply list_le_lexicographic.
  - apply Hlt.
  - apply list_le_antisym.
  - apply list_le_trans.
Qed.

Lemma quality_key_order_witness :
  let E : Embedding.t := [(0, [1])] in
  let F : Embedding.t := [(0, [2])] in
  let G : Embedding.t := [(0, [1; 2])] in
  Embedding.__le__ E G = true ∧ Embedding.quality_key E = Embedding.quality_key F ∧
  lex_le (Embedding.quality_key E) (Embedding.quality_key G) ∧
  Embedding.__lt__ E F = false.
Proof.
  intros E F G.
  destruct (quality_key_order E F G) as (Hle & Hlt & _ & _ & Hanti & Htrans).
  assert (Embedding.quality_key E = Embedding.quality_key F) as Hkey
    by (apply Hanti; reflexivity).
  split; [apply Htrans; reflexivity|]. split; [exact Hkey|]. split.
  - destruct (quality_key_order E G G) as (HleG & _). apply HleG. reflexivity.
  - destruct (Embedding.__lt__ E F) eqn:HEF; [|reflexivity].
    destruct Hlt as [Hlt _]. destruct (Hlt eq_refl) as [_ Hne]. by destruct Hne.
Defined.

(** C5, as stated, fails: two Embeddings that are [<=] each other need not
    be equal, neither as mappings nor by [__eq__]. *)
Lemma quality_key_order_not_antisymmetric :
  let E : Embedding.t := [(0, [1])] in
  let F : Embedding.t := [(0, [2])] in
  Embedding.__le__ E F = true ∧ Embedding.__le__ F E = true ∧
  E ≠ F ∧ @Embedding.__eq__ CPython.hash E F = false.
Proof. split_and!; [done|done|done|]. vm_compute. done. Qed.

(** ** Structural identity *)

Lemma sorted_Permutation l1 l2 : l1 ≡ₚ l2 → sorted l1 = sorted l2.
Proof.
  intros Hp. unfold sorted. apply (Sorted_unique Z.le).
  - apply Sorted_merge_sort, _.
  - apply Sorted_merge_sort, _.
  - by rewrite !merge_sort_Permutation.
Qed.

Lemma sorted_eq_Permutation l1 l2 : sorted l1 = sorted l2 → l1 ≡ₚ l2.
Proof.
  unfold sorted. intros Heq.
  rewrite <-(merge_sort_Permutation Z.le l1), <-(merge_sort_Permutation Z.le l2).
  by rewrite Heq.
Qed.

Lemma injective_on_spec {A B} (f : A → B) l x y :
  injective_on f l → x ∈ l → y ∈ l → f x = f y → x = y.
Proof.
  unfold injective_on. rewrite Forall_forall. intros Hinj Hx Hy.
  specialize (Hinj x Hx). rewrite Forall_forall in Hinj. by apply Hinj.
Qed.

Lemma injective_on_subseteq {A B} (f : A → B) l1 l2 :
  l1 ⊆ l2 → injective_on f l2 → injective_on f l1.
Proof.
  unfold injective_on. rewrite !Forall_forall. intros Hsub Hinj x Hx.
  rewrite Forall_forall. intros y Hy.
  specialize (Hinj x (Hsub x Hx)). rewrite Forall_forall in Hinj.
  apply Hinj, Hsub, Hy.
Qed.

(** Two lists with the same images under a function that is injective on
    their elements are permutations of each other when the images are. *)
Lemma fmap_Permutation_injective_on {A B} (f : A → B) (c d : list A) :
  injective_on f (c ++ d) → f <$> c ≡ₚ f <$> d → c ≡ₚ d.
Proof.
  revert d. induction c as [|x c IH]; intros d Hinj Hp.
  - apply Permutation_nil_l in Hp. symmetry in Hp.
    by apply fmap_nil_inv in Hp as ->.
  - assert (f x ∈ f <$> d) as Hfx by (rewrite <-Hp, fmap_cons; left).
    apply list_elem_of_fmap in Hfx as (y & Hxy & Hy).
    assert (x = y) as <-.
    { eapply injective_on_spec; [exact Hinj| | |exact Hxy].
      - left.
      - apply elem_of_app. right. done. }
    apply list_elem_of_split in Hy as (d1 & d2 & ->).
    rewrite <-Permutation_middle. constructor. apply IH.
    + eapply injective_on_subseteq; [|exact Hinj]. set_solver.
    + rewrite fmap_app, !fmap_cons, <-Permutation_middle in Hp.
      apply (inj (cons (f x))) in Hp. by rewrite fmap_app.
Qed.

(** Equal images under a function that is injective on the elements. *)
Lemma fmap_eq_injective_on {A B} (f : A → B) (l1 l2 : list A) :
  injective_on f (l1 ++ l2) → f <$> l1 = f <$> l2 → l1 = l2.
Proof.
  revert l2. induction l1 as [|x l1 IH]; intros [|y l2] Hinj Heq; try done.
  rewrite !fmap_cons in Heq. injection Heq as Hxy Heq. f_equal.
  - eapply injective_on_spec; [exact Hinj| | |exact Hxy].
    + left.
    + apply elem_of_app. right. left.
  - apply IH; [|done]. eapply injective_on_subseteq; [|exact Hinj]. set_solver.
Qed.

Section structural_identity.
Context `{PyHash}.

Lemma key_chain_keys (E : Embedding.t) :
  Embedding.__key E = hash_tuple (hash_tuple <$> chain_keys E).
Proof.
  unfold Embedding.__key, chain_keys, chains, Dict.values, Dict.items.
  f_equal. rewrite <-!list_fmap_compose.
  apply list_fmap_ext. by intros i [v chain] _.
Qed.

Lemma chain_keys_Forall2 (E F : Embedding.t) :
  Forall2 (≡ₚ) (chains E) (chains F) → chain_keys E = chain_keys F.
Proof.
  unfold chain_keys. induction 1 as [|c d cs ds Hcd _ IH]; [done|].
  rewrite !fmap_cons, IH. f_equal.
  apply sorted_Permutation. by rewrite Hcd.
Qed.

Lemma chain_keys_eq_Forall2 (cs ds : list (list Qubit)) :
  injective_on hash_int (concat (cs ++ ds)) →
  (λ chain, sorted (hash_int <$> chain)) <$> cs =
  (λ chain, sorted (hash_int <$> chain)) <$> ds →
  Forall2 (≡ₚ) cs ds.
Proof.
  revert ds. induction cs as [|c cs IH]; intros [|d ds] Hinj Heq; try done.
  rewrite !fmap_cons in Heq. injection Heq as Hcd Heq. constructor.
  - apply sorted_eq_Permutation in Hcd.
    apply (fmap_Permutation_injective_on hash_int); [|done].
    eapply injective_on_subseteq; [|exact Hinj].
    rewrite concat_app. simpl. set_solver.
  - apply IH; [|done]. eapply injective_on_subseteq; [|exact Hinj].
    rewrite !concat_app. simpl. set_solver.
Qed.


End structural_identity.



(** ** Tile *)

Lemma Qred_zero_div (s : Z) : Qred (inject_Z 0 / inject_Z s) = inject_Z 0.
Proof.
  transitivity (Qred (inject_Z 0)); [|done].
  apply Qred_complete. unfold Qdiv. apply Qmult_0_l.
Qed.

Lemma true_div_Ok (a b : Z) :
  b ≠ 0 → ∃ c, true_div a b = Ok c ∧ Qeq c (inject_Z a / inject_Z b).
Proof.
  intros Hb. unfold true_div. rewrite decide_False by done.
  eexists. split; [done|]. apply Qred_correct.
Qed.

Lemma Tile_init_fresh tile shape qubits T :
  Tile.__init__ tile shape qubits = Ok T →
  Tile.nodes T = [] ∧ Tile.qubits T = qubits ∧ Tile.index T = tile.
Proof.
  unfold Tile.__init__. intros Hinit.
  destruct (decide (len tile = 3));
    destruct tile as [|? [|? [|? [|? ?]]]]; simplify_eq/=; done.
Qed.

Lemma set_add_length {A} `{EqDecision A} (x : A) s :
  x ∉ s → length (set_add x s) = S (length s).
Proof.
  intros Hx. unfold set_add. rewrite decide_False by done.
  rewrite length_app. simpl. lia.
Qed.

Lemma set_add_elem_of {A} `{EqDecision A} (x y : A) s :
  y ∈ set_add x s ↔ y = x ∨ y ∈ s.
Proof.
  unfold set_add. case_decide.
  - split; [by right|]. by intros [->|?].
  - rewrite elem_of_app, list_elem_of_singleton. tauto.
Qed.

Lemma set_add_NoDup {A} `{EqDecision A} (x : A) s :
  NoDup s → NoDup (set_add x s).
Proof.
  intros Hnd. unfold set_add. case_decide; [done|].
  apply NoDup_app. split_and!; [done| |apply NoDup_singleton].
  intros y Hy ->%list_elem_of_singleton. done.
Qed.

(** Adding distinct variables to a tile, one by one. *)
Lemma add_nodes_length (vs : list Var) (T : Tile.t) :
  NoDup vs → (∀ v, v ∈ vs → v ∉ Tile.nodes T) →
  length (Tile.nodes (foldl (λ T v, Tile.add_node v T) T vs)) =
  (length (Tile.nodes T) + length vs)%nat ∧
  Tile.qubits (foldl (λ T v, Tile.add_node v T) T vs) = Tile.qubits T.
Proof.
  revert T. induction vs as [|v vs IH]; intros T Hnd Hfresh; simpl.
  - split; [lia|done].
  - apply NoDup_cons in Hnd as [Hv Hnd].
    destruct (IH (Tile.add_node v T) Hnd) as [IH1 IH2].
    + intros w Hw. simpl. rewrite set_add_elem_of. intros [->|Hin]; [done|].
      by apply (Hfresh w); [right|].
    + rewrite IH1, IH2. simpl. rewrite set_add_length; [split; [lia|done]|].
      apply Hfresh. left.
Qed.

(** C9. A Tile as [Tile(tile, shape, qubits)] builds it has concentration
    0; once [k] distinct logical variables have been added to its [nodes],
    its concentration is [k / supply] when [supply > 0]; and the
    concentration of any Tile whose [supply] is 0 is 0, not an error. *)
Theorem concentration_spec (tile shape : list Z) (qubits : list label)
    (T : Tile.t) (vs : list Var) :
  Tile.__init__ tile shape qubits = Ok T →
  NoDup vs →
  let T' := foldl (λ T v, Tile.add_node v T) T vs in
  Tile.concentration T = Ok (inject_Z 0) ∧
  (Tile.supply T' > 0 →
   ∃ c, Tile.concentration T' = Ok c ∧
        Qeq c (inject_Z (len vs) / inject_Z (Tile.supply T'))) ∧
  (∀ T0 : Tile.t, Tile.supply T0 = 0 → Tile.concentration T0 = Ok (inject_Z 0)).
Proof.
  intros Hinit Hnd T'.
  destruct (Tile_init_fresh _ _ _ _ Hinit) as (Hnodes & Hqubits & _).
  split_and!.
  - unfold Tile.concentration. case_decide; [|done].
    unfold true_div. rewrite decide_False by done.
    rewrite Hnodes. change (len []) with 0. by rewrite Qred_zero_div.
  - intros Hsupply.
    destruct (add_nodes_length vs T Hnd) as [Hlen _].
    { intros v _. rewrite Hnodes. apply not_elem_of_nil. }
    unfold Tile.concentration. rewrite decide_True by lia.
    replace (len vs) with (len (Tile.nodes T')).
    + apply true_div_Ok. lia.
    + unfold len, T'. rewrite Hlen, Hnodes. simpl. done.
  - intros T0 Hsupply. unfold Tile.concentration.
    rewrite decide_False by lia. done.
Qed.

Lemma concentration_spec_witness :
  ∃ T, Tile.__init__ [0; 1; 1] [2; 2] [LInt 12; LInt 13; LInt 14; LInt 15] = Ok T ∧
       Tile.concentration T = Ok (inject_Z 0) ∧
       ∃ c, Tile.concentration (foldl (λ T v, Tile.add_node v T) T [7; 8; 9]) = Ok c ∧
            Qeq c (3 # 4).
Proof.
  eexists. split; [reflexivity|].
  match goal with
  | |- Tile.concentration ?T = _ ∧ _ =>
      destruct (concentration_spec [0; 1; 1] [2; 2]
                  [LInt 12; LInt 13; LInt 14; LInt 15] T [7; 8; 9] eq_refl)
        as (H0 & Hk & _)
  end.
  - repeat constructor; set_solver.
  - split; [exact H0|]. destruct Hk as (c & Hc & Hq); [done|].
    exists c. split; [exact Hc|]. rewrite Hq. done.
Defined.

(** ** Tiling: construction *)

Section tiling.
Import DWaveNetworkXTiling.
Variable from_graph_dict : graph_dict → Converter.

Lemma unpack5_Ok x c : unpack5 x = Ok c →
  x = LTuple [c.1.1.1.1; c.1.1.1.2; c.1.1.2; c.1.2; c.2].
Proof.
  destruct x as [|[|t [|i [|j [|u [|k [|? ?]]]]]]]; simpl; try done.
  by intros [= <-].
Qed.

Lemma get_tile_Ok self x tile :
  get_tile self x = Ok tile →
  ∃ f t i j u k, to_nice self = Some f ∧ f x = LTuple [t; i; j; u; k] ∧
                 tile = [t; i; j].
Proof.
  unfold get_tile, attr. destruct (to_nice self) as [f|]; simpl; [|done].
  destruct (unpack5 (f x)) as [[[[[t i] j] u] k]|] eqn:Hun; simpl; [|done].
  intros [= <-]. apply unpack5_Ok in Hun. by exists f, t, i, j, u, k.
Qed.

Lemma get_tile_nice self f x t i j u k :
  to_nice self = Some f → f x = LTuple [t; i; j; u; k] →
  get_tile self x = Ok [t; i; j].
Proof. unfold get_tile, attr. intros -> Hx. simpl. by rewrite Hx. Qed.

Lemma get_tile_with_tiles self tiles x :
  get_tile (with_tiles tiles self) x = get_tile self x.
Proof. done. Qed.

(** One step of the loop: the tile of [q] becomes a key, if it was not
    one, and nothing but [tiles] changes. *)
Lemma add_qubit_Ok self q self' :
  add_qubit self q = Ok self' →
  ∃ tile, get_tile self q = Ok tile ∧
    Dict.keys (tiles self') = set_add tile (Dict.keys (tiles self)) ∧
    self' = with_tiles (tiles self') self.
Proof.
  unfold add_qubit. destruct (get_tile self q) as [tile|] eqn:Htile; simpl; [|done].
  destruct (Dict.get tile (tiles self)) as [T|].
  - intros [= <-]. exists tile. simpl. by rewrite Dict_keys_set_add.
  - destruct (Tile.__init__ tile (shape self) [q]) as [T|]; simpl; [|done].
    intros [= <-]. exists tile. simpl. by rewrite Dict_keys_set_add.
Qed.

Lemma add_qubit_total self q f t i j u k :
  to_nice self = Some f → f q = LTuple [t; i; j; u; k] →
  ∃ self', add_qubit self q = Ok self'.
Proof.
  intros Hf Hq. unfold add_qubit.
  rewrite (get_tile_nice _ _ _ _ _ _ _ _ Hf Hq). simpl.
  destruct (Dict.get _ _); eauto.
Qed.

(** The loop that adds the tiles. *)
Lemma add_qubits_Ok qs self T :
  foldM add_qubit self qs = Ok T →
  T = with_tiles (tiles T) self ∧
  (∀ q, q ∈ qs → ∃ tile, get_tile self q = Ok tile) ∧
  (NoDup (Dict.keys (tiles self)) → NoDup (Dict.keys (tiles T))) ∧
  (∀ tile, tile ∈ Dict.keys (tiles T) ↔
           tile ∈ Dict.keys (tiles self) ∨ ∃ q, q ∈ qs ∧ get_tile self q = Ok tile).
Proof.
  revert self. induction qs as [|q qs IH]; intros self; simpl.
  - intros [= <-]. split_and!; [by destruct self| |done|].
    + by intros q ?%elem_of_nil.
    + intros tile. split; [by left|]. intros [?|(q & ?%elem_of_nil & _)]; done.
  - destruct (add_qubit self q) as [self1|] eqn:Hadd; simpl; [|done].
    intros Hrest. apply IH in Hrest as (HT & Hget & Hnd & Hkeys).
    apply add_qubit_Ok in Hadd as (tile1 & Htile1 & Hkeys1 & Hself1).
    assert (∀ x, get_tile self1 x = get_tile self x) as Hsame.
    { intros x. rewrite Hself1. apply get_tile_with_tiles. }
    split_and!.
    + rewrite HT at 1. rewrite Hself1. done.
    + intros x [->|Hx]%elem_of_cons; [eauto|].
      rewrite <-Hsame. by apply Hget.
    + intros Hnd0. apply Hnd. rewrite Hkeys1. by apply set_add_NoDup.
    + intros tile. rewrite Hkeys, Hkeys1, set_add_elem_of. split.
      * intros [[->|?]|(x & Hx & Hgx)].
        -- right. exists q. split; [left|done].
        -- by left.
        -- right. exists x. split; [by right|by rewrite <-Hsame].
      * intros [?|(x & [->|Hx]%elem_of_cons & Hgx)].
        -- left. by right.
        -- left. left. congruence.
        -- right. exists x. by rewrite Hsame.
Qed.

Lemma add_qubits_total qs self f :
  to_nice self = Some f →
  (∀ q, q ∈ qs → ∃ t i j u k, f q = LTuple [t; i; j; u; k]) →
  ∃ T, foldM add_qubit self qs = Ok T.
Proof.
  revert self. induction qs as [|q qs IH]; intros self Hf Hqs; simpl; [eauto|].
  destruct (Hqs q) as (t & i & j & u & k & Hq); [left|].
  destruct (add_qubit_total self q f t i j u k Hf Hq) as [self1 Hadd].
  rewrite Hadd. simpl. apply IH.
  - apply add_qubit_Ok in Hadd as (_ & _ & _ & ->). done.
  - intros x Hx. apply Hqs. by right.
Qed.

Lemma init_attributes_Ok Tg self :
  init_attributes from_graph_dict Tg = Ok self →
  qubits self = nx.nodes Tg ∧ tiles self = Dict.empty ∧
  graph self = nx.graph Tg.
Proof.
  unfold init_attributes.
  destruct (g_rows _); simpl; [|done]. destruct (g_columns _); simpl; [|done].
  destruct (g_family _); simpl; [|done]. destruct (shape_of _ _ _); simpl; [|done].
  destruct (g_labels _); simpl; [|done]. destruct (resolve _ _).
  by intros [= <-].
Qed.

(** What a constructed Tiling is: the attributes, and the tiles of its
    qubits. *)
Lemma init_Ok Tg T :
  __init__ from_graph_dict Tg = Ok T →
  qubits T = nx.nodes Tg ∧
  (∀ q, q ∈ qubits T → ∃ tile, get_tile T q = Ok tile) ∧
  NoDup (Dict.keys (tiles T)) ∧
  (∀ tile, tile ∈ Dict.keys (tiles T) ↔ ∃ q, q ∈ qubits T ∧ get_tile T q = Ok tile).
Proof.
  unfold __init__.
  destruct (init_attributes from_graph_dict Tg) as [self|] eqn:Hattr; simpl; [|done].
  apply init_attributes_Ok in Hattr as (Hq & Ht & _).
  intros (HT & Hget & Hnd & Hkeys)%add_qubits_Ok.
  assert (∀ x, get_tile T x = get_tile self x) as Hsame.
  { intros x. rewrite HT. apply get_tile_with_tiles. }
  assert (qubits T = qubits self) as HqT by (by rewrite HT).
  split_and!.
  - by rewrite HqT.
  - intros q Hin. rewrite Hsame. apply Hget. by rewrite <-HqT.
  - apply Hnd. rewrite Ht. constructor.
  - intros tile. rewrite Hkeys, Ht, HqT. setoid_rewrite Hsame.
    split; [intros [?%elem_of_nil|?]; done|by right].
Qed.

End tiling.

(** ** Tiling: the claims *)

Section tiling_claims.
Import DWaveNetworkXTiling.
Variable from_graph_dict : graph_dict → Converter.

(** C8. Constructing a Tiling from a graph whose family is neither
    ['chimera'] nor ['pegasus'] raises, in the part of [__init__] that
    comes before the tiles are built; the exception is the [ValueError] of
    the family test when the rows and columns are given. *)
Theorem invalid_family_raises (Tg : nx.Graph) (family : string) :
  g_family (nx.graph Tg) = Some family →
  family ≠ "chimera"%string → family ≠ "pegasus"%string →
  (∃ e, init_attributes from_graph_dict Tg = Raise e ∧
        __init__ from_graph_dict Tg = Raise e) ∧
  (is_Some (g_rows (nx.graph Tg)) → is_Some (g_columns (nx.graph Tg)) →
   __init__ from_graph_dict Tg = Raise ValueError).
Proof.
  intros Hfam Hc Hp. unfold __init__, init_attributes, shape_of.
  rewrite Hfam. split.
  - destruct (g_rows _); simpl; [|eauto]. destruct (g_columns _); simpl; [|eauto].
    rewrite !decide_False by done. simpl. eauto.
  - intros [m ->] [n ->]. simpl. rewrite !decide_False by done. done.
Qed.

(** C7. For every qubit of a constructed Tiling whose [from_nice] undoes
    its [to_nice], writing back the tile, the shore or the index that was
    read gives the qubit back. *)
Theorem round_trip (Tg : nx.Graph) (T : t) (q : label) (f g : label → label) :
  __init__ from_graph_dict Tg = Ok T →
  q ∈ qubits T →
  to_nice T = Some f → from_nice T = Some g →
  (∀ x, g (f x) = x) →
  (∃ tile, get_tile T q = Ok tile ∧ set_tile T q tile = Ok q) ∧
  (∃ u, get_shore T q = Ok u ∧ set_shore T q u = Ok q) ∧
  (∃ k, get_k T q = Ok k ∧ set_k T q k = Ok q).
Proof.
  intros Hinit Hq Hf Hg Hinv.
  apply init_Ok in Hinit as (_ & Hget & _ & _).
  destruct (Hget q Hq) as [tile Htile].
  apply get_tile_Ok in Htile as (f' & t & i & j & u & k & Hf' & Hfq & ->).
  assert (f' = f) as -> by congruence.
  unfold get_tile, set_tile, get_shore, set_shore, get_k, set_k, attr.
  rewrite Hf, Hg. simpl. rewrite Hfq. simpl.
  split_and!; eexists; (split; [done|]); f_equal.
  - change (g (LTuple [t; i; j; u; k]) = q). rewrite <-Hfq. apply Hinv.
  - rewrite <-Hfq. apply Hinv.
  - rewrite <-Hfq. apply Hinv.
Qed.

(** The three coordinates of the tile of a nice coordinate. *)
Lemma tiles_of_chimera_2_2_4 (tile : list Z) :
  (∃ c, c ∈ chimera_nice_coordinates 2 2 4 ∧ take 3 c = tile) ↔
  tile ∈ [[0; 0; 0]; [0; 0; 1]; [0; 1; 0]; [0; 1; 1]].
Proof.
  assert (Forall (λ x, x ∈ [[0; 0; 0]; [0; 0; 1]; [0; 1; 0]; [0; 1; 1]])
                 (take 3 <$> chimera_nice_coordinates 2 2 4)) as H1.
  { apply (bool_decide_unpack _). vm_compute. exact I. }
  assert (Forall (λ x, x ∈ take 3 <$> chimera_nice_coordinates 2 2 4)
                 [[0; 0; 0]; [0; 0; 1]; [0; 1; 0]; [0; 1; 1]]) as H2.
  { apply (bool_decide_unpack _). vm_compute. exact I. }
  rewrite Forall_forall in H1, H2.
  split; [intros (c & Hc & <-)|intros Hin].
  - apply H1. apply list_elem_of_fmap. eauto.
  - apply H2 in Hin. apply list_elem_of_fmap in Hin as (c & -> & Hc). eauto.
Qed.

Lemma chimera_nice_coordinates_length c :
  c ∈ chimera_nice_coordinates 2 2 4 → length c = 5%nat.
Proof.
  revert c. apply Forall_forall. apply (bool_decide_unpack _).
  vm_compute. exact I.
Qed.

(** C1, as the code has it. For a grid hardware graph with 2 rows and
    2 columns whose qubits have the nice coordinates [(0, i, j, u, k)]
    with [i, j, u < 2] and [k < 4], the constructed Tiling has exactly 4
    tiles; their keys are the three-component coordinates [(0,0,0)],
    [(0,0,1)], [(0,1,0)], [(0,1,1)] that [get_tile] returns, and
    [get_tile_neighbors((0,0,0))] is [(0,0,1)] and [(0,1,0)]. *)
Theorem chimera_2_2_4_tiling (Tg : nx.Graph) (labels : string)
    (f g : label → label) :
  g_rows (nx.graph Tg) = Some 2 →
  g_columns (nx.graph Tg) = Some 2 →
  g_family (nx.graph Tg) = Some "chimera"%string →
  g_labels (nx.graph Tg) = Some labels →
  resolve (from_graph_dict (nx.graph Tg)) labels = (Some f, Some g) →
  f <$> nx.nodes Tg ≡ₚ LTuple <$> chimera_nice_coordinates 2 2 4 →
  ∃ T, __init__ from_graph_dict Tg = Ok T ∧
       length (Dict.keys (tiles T)) = 4%nat ∧
       Dict.keys (tiles T) ≡ₚ [[0; 0; 0]; [0; 0; 1]; [0; 1; 0]; [0; 1; 1]] ∧
       get_tile_neighbors T [0; 0; 0] ≡ₚ [[0; 0; 1]; [0; 1; 0]].
Proof.
  intros Hrows Hcols Hfam Hlab Hres Hnodes.
  unfold __init__, init_attributes. rewrite Hrows, Hcols, Hfam, Hlab.
  cbn [of_option mbind result_bind]. unfold shape_of.
  rewrite decide_True by done. cbn [mbind result_bind]. rewrite Hres.
  cbn [mbind result_bind qubits].
  match goal with |- ∃ T, foldM add_qubit ?s _ = _ ∧ _ => set (self := s) end.
  assert (∀ q, q ∈ nx.nodes Tg → ∃ c, c ∈ chimera_nice_coordinates 2 2 4 ∧
                                      f q = LTuple c) as Hfq.
  { intros q Hq. assert (f q ∈ f <$> nx.nodes Tg) as Hin.
    { apply list_elem_of_fmap. eauto. }
    rewrite Hnodes in Hin. apply list_elem_of_fmap in Hin as (c & ? & ?). eauto. }
  assert (∀ c : list Z, length c = 5%nat → ∃ t i j u k, c = [t; i; j; u; k])
    as Hlen.
  { intros [|t [|i [|j [|u [|k [|? ?]]]]]]; try done. eauto 6. }
  destruct (add_qubits_total (nx.nodes Tg) self f eq_refl) as [T HT].
  { intros q (c & Hc & ->)%Hfq.
    apply chimera_nice_coordinates_length, Hlen in Hc
      as (t & i & j & u & k & ->). eauto 6. }
  exists T. split; [exact HT|].
  apply add_qubits_Ok in HT as (_ & _ & Hnd & Hkeys).
  assert (∀ tile, tile ∈ Dict.keys (tiles T) ↔
                  tile ∈ [[0; 0; 0]; [0; 0; 1]; [0; 1; 0]; [0; 1; 1]]) as Hmem.
  { intros tile. rewrite Hkeys, <-tiles_of_chimera_2_2_4. split.
    - intros [?%elem_of_nil|(q & Hq & Hget)]; [done|].
      apply get_tile_Ok in Hget as (f' & t & i & j & u & k & [= <-] & Hq' & ->).
      apply Hfq in Hq as (c & Hc & Hq). exists c. split; [done|].
      assert (c = [t; i; j; u; k]) as -> by congruence. done.
    - intros (c & Hc & <-). right.
      assert (LTuple c ∈ f <$> nx.nodes Tg) as Hin.
      { rewrite Hnodes. apply list_elem_of_fmap. eauto. }
      apply list_elem_of_fmap in Hin as (q & Hq & Hin). exists q. split; [done|].
      apply chimera_nice_coordinates_length, Hlen in Hc
        as (t & i & j & u & k & ->).
      by apply (get_tile_nice self f q t i j u k). }
  assert (Dict.keys (tiles T) ≡ₚ [[0; 0; 0]; [0; 0; 1]; [0; 1; 0]; [0; 1; 1]])
    as Hperm.
  { apply NoDup_Permutation; [apply Hnd; constructor| |done].
    apply (bool_decide_unpack _). vm_compute. exact I. }
  split_and!.
  - by rewrite Hperm.
  - done.
  - unfold get_tile_neighbors.
    rewrite (list_filter_iff _
               (λ tile, tile ∈ [[0; 0; 0]; [0; 0; 1]; [0; 1; 0]; [0; 1; 1]])).
    + vm_compute. apply perm_swap.
    + intros tile. by rewrite <-Hmem, <-Dict_mem_keys, Is_true_true.
Qed.

End tiling_claims.

Lemma chimera_2_2_4_tiling_witness :
  ∃ T, DWaveNetworkXTiling.__init__ unused_converter chimera_2_2_4 = Ok T ∧
       DWaveNetworkXTiling.get_tile_neighbors T [0; 0; 0]
         ≡ₚ [[0; 0; 1]; [0; 1; 0]].
Proof.
  destruct (chimera_2_2_4_tiling unused_converter chimera_2_2_4 "nice"
              (λ n, n) (λ n, n))
    as (T & HT & _ & _ & Hn); try reflexivity.
  exists T. split; [exact HT|exact Hn].
Defined.

(** C1, as stated, fails: the keys of the tiles have three components,
    so that none of them is [(0,0)], [(0,1)], [(1,0)] or [(1,1)], and
    [get_tile_neighbors((0,0))] is empty. *)
Lemma chimera_2_2_4_keys_have_three_components :
  ∃ T, DWaveNetworkXTiling.__init__ unused_converter chimera_2_2_4 = Ok T ∧
       Dict.keys (DWaveNetworkXTiling.tiles T) =
         [[0; 0; 0]; [0; 0; 1]; [0; 1; 0]; [0; 1; 1]] ∧
       ¬ (Dict.keys (DWaveNetworkXTiling.tiles T)
            ≡ₚ [[0; 0]; [0; 1]; [1; 0]; [1; 1]]) ∧
       DWaveNetworkXTiling.get_tile_neighbors T [0; 0] = [].
Proof.
  eexists. split; [vm_compute; reflexivity|]. split_and!.
  - vm_compute. reflexivity.
  - intros Hp. assert ([0; 0; 0] ∈ [[0; 0]; [0; 1]; [1; 0]; [1; 1]]) as Hin.
    { rewrite <-Hp. vm_compute. left. }
    set_solver.
  - vm_compute. reflexivity.
Qed.

Lemma invalid_family_raises_witness :
  DWaveNetworkXTiling.__init__ unused_converter
    {| nx.graph := {| g_rows := Some 2; g_columns := Some 2;
                      g_family := Some "zephyr"%string;
                      g_labels := Some "nice"%string; g_tile := Some 4 |};
       nx.nodes := [LTuple [0; 0; 0; 0; 0]]; nx.edges := [] |}
  = Raise ValueError.
Proof.
  eapply (invalid_family_raises unused_converter _ "zephyr"); simpl; eauto.
Defined.

Lemma round_trip_witness :
  ∃ T, DWaveNetworkXTiling.__init__ unused_converter chimera_2_2_4 = Ok T ∧
       DWaveNetworkXTiling.set_tile T (LTuple [0; 1; 0; 1; 3]) [0; 1; 0]
         = Ok (LTuple [0; 1; 0; 1; 3]).
Proof.
  eexists. split; [vm_compute; reflexivity|].
  match goal with
  | |- DWaveNetworkXTiling.set_tile ?T ?q _ = _ =>
      destruct (round_trip unused_converter chimera_2_2_4 T q (λ n, n) (λ n, n))
        as ((tile & Hget & Hset) & _)
  end; try done.
  apply (bool_decide_unpack _). vm_compute. exact I.
Defined.

(** ** Interactions *)

Section interactions.
Import Embedding.
Implicit Types (E : Embedding.t) (S : list (Var * Var)) (T : list (Qubit * Qubit)).

Lemma adjacency_step_get (adj : Dict.t Qubit (list Qubit)) (a b s : Qubit) :
  a ≠ b →
  Dict.get s (adjacency_step adj (a, b)) =
  if decide (b = s) then Some (a :: Dict.get_default b [] adj)
  else if decide (a = s) then Some (b :: Dict.get_default a [] adj)
  else Dict.get s adj.
Proof.
  intros Hab. unfold adjacency_step. rewrite decide_False by done.
  rewrite Dict_get_set. case_decide as Hb.
  - unfold Dict.get_default at 1. rewrite Dict_get_set_ne by done. done.
  - apply Dict_get_set.
Qed.

Lemma adjacency_foldl_spec T (adj : Dict.t Qubit (list Qubit)) :
  (∀ s t, t ∈ Dict.get_default s [] (foldl adjacency_step adj T) ↔
          t ∈ Dict.get_default s [] adj ∨ target_edge T s t) ∧
  (∀ s, is_Some (Dict.get s (foldl adjacency_step adj T)) ↔
        is_Some (Dict.get s adj) ∨ ∃ t, target_edge T s t).
Proof.
  unfold target_edge.
  revert adj. induction T as [|[a b] T IH]; intros adj.
  - simpl. split.
    + intros s t. rewrite !elem_of_nil. tauto.
    + intros s. split; [by left|]. intros [?|(t & _ & Hin)]; [done|].
      rewrite !elem_of_nil in Hin. tauto.
  - cbn [foldl]. destruct (IH (adjacency_step adj (a, b))) as [IH1 IH2].
    destruct (decide (a = b)) as [->|Hab].
    + assert (adjacency_step adj (b, b) = adj) as Hstep.
      { unfold adjacency_step. by rewrite decide_True. }
      rewrite Hstep in IH1, IH2 |- *. split.
      * intros s t. rewrite IH1, !elem_of_cons. naive_solver.
      * intros s. rewrite IH2. setoid_rewrite elem_of_cons. naive_solver.
    + split.
      * intros s t. rewrite IH1. unfold Dict.get_default at 1.
        rewrite adjacency_step_get by done. rewrite !elem_of_cons.
        unfold Dict.get_default.
        repeat case_decide; simplify_eq/=; rewrite ?elem_of_cons; naive_solver.
      * intros s. rewrite IH2, adjacency_step_get by done.
        setoid_rewrite elem_of_cons.
        repeat case_decide; simplify_eq/=.
        -- split; [intros _|eauto]. right. exists a. naive_solver.
        -- split; [intros _|eauto]. right. exists b. naive_solver.
        -- naive_solver.
Qed.

Lemma target_adjacency_elem_of T s t :
  t ∈ Dict.get_default s [] (target_adjacency T) ↔ target_edge T s t.
Proof.
  unfold target_adjacency.
  destruct (adjacency_foldl_spec T Dict.empty) as [H1 _].
  rewrite H1. simpl. rewrite elem_of_nil. tauto.
Qed.

Lemma target_adjacency_is_Some T s :
  is_Some (Dict.get s (target_adjacency T)) ↔ ∃ t, target_edge T s t.
Proof.
  unfold target_adjacency.
  destruct (adjacency_foldl_spec T Dict.empty) as [_ H2].
  rewrite H2. simpl. split; [intros [[? ?]|?]; done|by right].
Qed.

Lemma inner_loop_Ok adj s acc chain_v acc' :
  inner_loop adj s acc chain_v = Ok acc' →
  ∀ p, p ∈ acc' ↔
       p ∈ acc ∨ ∃ t, p = (s, t) ∧ t ∈ chain_v ∧ t ∈ Dict.get_default s [] adj.
Proof.
  unfold inner_loop, Dict.lookup, Dict.get_default.
  revert acc. induction chain_v as [|t chain_v IH]; intros acc; simpl.
  - intros [= <-] p. split; [by left|]. intros [?|(t & _ & ?%elem_of_nil & _)]; done.
  - destruct (Dict.get s adj) as [adj_s|] eqn:Hs; simpl; [|done].
    intros Hrest p. rewrite (IH _ Hrest). simpl.
    setoid_rewrite elem_of_cons. case_decide.
    + rewrite elem_of_app, list_elem_of_singleton. naive_solver.
    + naive_solver.
Qed.

Lemma inner_loop_total adj s acc chain_v :
  is_Some (Dict.get s adj) → ∃ acc', inner_loop adj s acc chain_v = Ok acc'.
Proof.
  unfold inner_loop, Dict.lookup. intros [adj_s Hs].
  eexists. apply foldM_total with
    (f := λ acc t, if decide (t ∈ adj_s) then acc ++ [(s, t)] else acc).
  intros acc' t _. by rewrite Hs.
Qed.

Lemma outer_loop_Ok E adj v chain_u acc acc' :
  foldM (λ acc s, chain_v ← Dict.lookup v E; inner_loop adj s acc chain_v)
        acc chain_u = Ok acc' →
  ∀ p, p ∈ acc' ↔
       p ∈ acc ∨ ∃ s t, p = (s, t) ∧ s ∈ chain_u ∧
                        t ∈ Dict.get_default v [] E ∧
                        t ∈ Dict.get_default s [] adj.
Proof.
  unfold Dict.lookup, Dict.get_default at 1.
  revert acc. induction chain_u as [|s chain_u IH]; intros acc; simpl.
  - intros [= <-] p. split; [by left|].
    intros [?|(s & t & _ & ?%elem_of_nil & _)]; done.
  - destruct (Dict.get v E) as [chain_v|] eqn:Hv; simpl; [|done].
    destruct (inner_loop adj s acc chain_v) as [acc1|] eqn:Hin; simpl; [|done].
    intros Hrest p. rewrite (IH _ Hrest), (inner_loop_Ok _ _ _ _ _ Hin).
    setoid_rewrite elem_of_cons. naive_solver.
Qed.

Lemma outer_loop_total E adj v chain_u acc :
  is_Some (Dict.get v E) →
  (∀ s, s ∈ chain_u → is_Some (Dict.get s adj)) →
  ∃ acc', foldM (λ acc s, chain_v ← Dict.lookup v E; inner_loop adj s acc chain_v)
                acc chain_u = Ok acc'.
Proof.
  unfold Dict.lookup. intros [chain_v Hv].
  rewrite (foldM_ext _ (λ acc s, inner_loop adj s acc chain_v))
    by (intros; by rewrite Hv).
  revert acc. induction chain_u as [|s chain_u IH]; intros acc Hadj; simpl; [eauto|].
  destruct (inner_loop_total adj s acc chain_v) as [acc1 ->]; [apply Hadj; left|].
  simpl. apply IH. intros s' Hs'. apply Hadj. by right.
Qed.

(** The pairs found for one logical edge. *)
Lemma edge_interactions_Ok E adj u v pairs :
  edge_interactions E adj u v = Ok pairs →
  ∀ s t, (s, t) ∈ pairs ↔
         s ∈ Dict.get_default u [] E ∧ t ∈ Dict.get_default v [] E ∧
         t ∈ Dict.get_default s [] adj.
Proof.
  unfold edge_interactions, Dict.lookup, Dict.get_default at 1.
  destruct (Dict.get u E) as [chain_u|]; simpl; [|done].
  intros Hloop s t. rewrite (outer_loop_Ok E adj v chain_u [] pairs Hloop).
  rewrite elem_of_nil. naive_solver.
Qed.

Lemma edge_interactions_total E adj u v :
  is_Some (Dict.get u E) → is_Some (Dict.get v E) →
  (∀ s, s ∈ Dict.get_default u [] E → is_Some (Dict.get s adj)) →
  ∃ pairs, edge_interactions E adj u v = Ok pairs.
Proof.
  unfold edge_interactions, Dict.lookup, Dict.get_default.
  intros [chain_u ->] Hv Hadj. simpl. by apply outer_loop_total.
Qed.

(** The loop over the source edges, from any dict of interactions. *)
Lemma interaction_loop_Ok E adj S I0 I :
  foldM (interaction_step E adj) I0 S = Ok I →
  (NoDup (Dict.keys I0) → NoDup (Dict.keys I)) ∧
  (∀ e, e ∈ Dict.keys I ↔ e ∈ Dict.keys I0 ∨ (e ∈ S ∧ e.1 ≠ e.2)) ∧
  (∀ e pairs, Dict.get e I = Some pairs →
              Dict.get e I0 = Some pairs ∨
              (e ∈ S ∧ edge_interactions E adj e.1 e.2 = Ok pairs)).
Proof.
  revert I0. induction S as [|[u v] S IH]; intros I0; simpl.
  - intros [= <-]. split_and!; [done| |by left].
    intros e. rewrite elem_of_nil. tauto.
  - destruct (decide (u = v)) as [->|Huv]; simpl.
    + intros (Hnd & Hkeys & Hget)%IH. split_and!; [done| |].
      * intros e. rewrite Hkeys, elem_of_cons. destruct e. naive_solver.
      * intros e pairs [?|[? ?]]%Hget; [by left|right].
        split; [by right|done].
    + destruct (edge_interactions E adj u v) as [ei|] eqn:Hei; simpl; [|done].
      intros (Hnd & Hkeys & Hget)%IH. split_and!.
      * intros Hnd0. by apply Hnd, Dict_NoDup_keys_set.
      * intros e. rewrite Hkeys, Dict_elem_of_keys_set, elem_of_cons.
        destruct e. naive_solver.
      * intros e pairs [Hset|[? ?]]%Hget.
        -- rewrite Dict_get_set in Hset. case_decide as He; [|by left].
           right. subst e. injection Hset as <-. split; [left|done].
        -- right. split; [by right|done].
Qed.

Lemma interaction_loop_total E adj S I0 :
  (∀ u v, (u, v) ∈ S → u ≠ v →
          is_Some (Dict.get u E) ∧ is_Some (Dict.get v E) ∧
          ∀ s, s ∈ Dict.get_default u [] E → is_Some (Dict.get s adj)) →
  ∃ I, foldM (interaction_step E adj) I0 S = Ok I.
Proof.
  revert I0. induction S as [|[u v] S IH]; intros I0 Hpre; simpl; [eauto|].
  assert (∀ I1, ∃ I, foldM (interaction_step E adj) I1 S = Ok I) as Hrest.
  { intros I1. apply IH. intros u' v' Hin. apply Hpre. by right. }
  destruct (decide (u = v)) as [->|Huv]; simpl; [apply Hrest|].
  destruct (Hpre u v) as (Hu & Hv & Hadj); [left|done|].
  destruct (edge_interactions_total E adj u v Hu Hv Hadj) as [ei ->].
  simpl. apply Hrest.
Qed.

(** What [interactions] returns, when it returns. *)
Lemma interactions_Ok E S T I :
  interactions E S T = Ok I →
  NoDup (Dict.keys I) ∧
  (∀ u v, (u, v) ∈ Dict.keys I ↔ (u, v) ∈ S ∧ u ≠ v) ∧
  (∀ u v pairs, Dict.get (u, v) I = Some pairs →
     ∀ s t, (s, t) ∈ pairs ↔
            s ∈ Dict.get_default u [] E ∧ t ∈ Dict.get_default v [] E ∧
            target_edge T s t).
Proof.
  unfold interactions. intros (Hnd & Hkeys & Hget)%interaction_loop_Ok.
  split_and!.
  - apply Hnd. constructor.
  - intros u v. rewrite Hkeys. simpl. rewrite elem_of_nil. tauto.
  - intros u v pairs [?|[_ Hei]]%Hget; [done|]. simpl in Hei.
    intros s t. rewrite (edge_interactions_Ok _ _ _ _ _ Hei).
    by rewrite target_adjacency_elem_of.
Qed.

(** C4, as the code has it. When every endpoint of a source edge that is
    not a self-loop is a variable of the Embedding, and every qubit in the
    chain of its first endpoint has a target edge that is not a self-loop,
    [interactions] returns a dict whose keys are the source edges that are
    not self-loops, each mapped to exactly the pairs [(s, t)] with [s] in
    the chain of [u], [t] in the chain of [v], and [s], [t] the two ends,
    in either order, of a target edge that is not a self-loop. *)
Theorem interactions_spec E S T :
  (∀ u v, (u, v) ∈ S → u ≠ v →
          is_Some (Dict.get u E) ∧ is_Some (Dict.get v E)) →
  (∀ u v s, (u, v) ∈ S → u ≠ v → s ∈ Dict.get_default u [] E →
            ∃ t, target_edge T s t) →
  ∃ I, interactions E S T = Ok I ∧
       (∀ u v, (u, v) ∈ S → u ≠ v →
          ∃ pairs chain_u chain_v,
            Dict.get (u, v) I = Some pairs ∧
            Dict.get u E = Some chain_u ∧ Dict.get v E = Some chain_v ∧
            ∀ s t, (s, t) ∈ pairs ↔
                   s ∈ chain_u ∧ t ∈ chain_v ∧ s ≠ t ∧
                   ((s, t) ∈ T ∨ (t, s) ∈ T)) ∧
       (∀ u v pairs, Dict.get (u, v) I = Some pairs →
          (u, v) ∈ S ∧ u ≠ v ∧ ∀ s t, (s, t) ∈ pairs → target_edge T s t).
Proof.
  intros Hvars Hqubits.
  destruct (interaction_loop_total E (target_adjacency T) S Dict.empty) as [I HI].
  { intros u v Hin Huv. destruct (Hvars u v Hin Huv) as [Hu Hv].
    split_and!; [done|done|]. intros s Hs.
    apply target_adjacency_is_Some. by apply (Hqubits u v). }
  exists I. split; [exact HI|].
  apply interactions_Ok in HI as (Hnd & Hkeys & Hget). split.
  - intros u v Hin Huv.
    destruct (Hvars u v Hin Huv) as [[chain_u Hu] [chain_v Hv]].
    assert (is_Some (Dict.get (u, v) I)) as [pairs Hpairs].
    { apply Dict_get_is_Some, Hkeys. done. }
    exists pairs, chain_u, chain_v. split_and!; [done..|].
    intros s t. rewrite (Hget u v pairs Hpairs).
    unfold Dict.get_default, target_edge. rewrite Hu, Hv. simpl. tauto.
  - intros u v pairs Hpairs.
    assert ((u, v) ∈ S ∧ u ≠ v) as [? ?].
    { apply Hkeys, Dict_get_is_Some. eauto. }
    split_and!; [done..|]. intros s t Hst.
    by apply (Hget u v pairs Hpairs) in Hst as (_ & _ & ?).
Qed.

End interactions.

Lemma interactions_spec_witness :
  let E : Embedding.t := [(0, [10]); (1, [11; 12])] in
  ∃ I pairs, Embedding.interactions E [(0, 1); (1, 1)] [(10, 11); (12, 10)] = Ok I ∧
             Dict.get (0, 1) I = Some pairs ∧
             ((10, 11) ∈ pairs ∧ (10, 12) ∈ pairs).
Proof.
  intros E.
  destruct (interactions_spec E [(0, 1); (1, 1)] [(10, 11); (12, 10)])
    as (I & HI & Hedges & _).
  - intros u v [[= -> ->]|[[= -> ->]|?%elem_of_nil]%elem_of_cons]%elem_of_cons Huv;
      [|done..]. split; eexists; reflexivity.
  - intros u v s [[= -> ->]|[[= -> ->]|?%elem_of_nil]%elem_of_cons]%elem_of_cons Huv;
      [|done..]. intros ->%list_elem_of_singleton.
    exists 11. split; [done|]. left. left.
  - destruct (Hedges 0 1) as (pairs & cu & cv & Hget & Hu & Hv & Hpairs);
      [left|done|].
    injection Hu as <-. injection Hv as <-.
    exists I, pairs. split_and!; [done|done| |].
    + apply Hpairs. split_and!; [left|left|done|left; left].
    + apply Hpairs. split_and!; [left|right; left|done|right; right; left].
Defined.

(** C4, as stated, fails: [interactions] raises [KeyError] when an
    endpoint of a source edge has no chain, and when a qubit of the chain
    of the first endpoint has no target edge. *)
Lemma interactions_raises_KeyError :
  Embedding.interactions [(0, [10])] [(0, 1)] [(10, 11)] = Raise KeyError ∧
  Embedding.interactions [(0, [10]); (1, [11])] [(0, 1)] [] = Raise KeyError.
Proof. split; reflexivity. Qed.

(** ** Connections *)

Section connections.
Import Embedding.
Implicit Types (E : Embedding.t) (S : list (Var * Var)) (T : list (Qubit * Qubit)).
Implicit Types (I : Dict.t (Var * Var) (list (Qubit * Qubit))).

Lemma foldl_bind {A B C} (f : A → B → A) (g : C → list B) (a : A) (l : list C) :
  foldl f a (l ≫= g) = foldl (λ a x, foldl f a (g x)) a l.
Proof.
  revert a. induction l as [|x l IH]; intros a; [done|].
  rewrite bind_cons, foldl_app. apply IH.
Qed.

Lemma foldl_pointwise {A B} (f g : A → B → A) (a : A) (l : list B) :
  (∀ a x, f a x = g a x) → foldl f a l = foldl g a l.
Proof.
  intros Hfg. revert a. induction l as [|x l IH]; intros a; simpl; [done|].
  by rewrite Hfg, IH.
Qed.

Lemma connections_of_incidences I :
  connections_of I = foldl record Dict.empty (incidences I).
Proof.
  unfold connections_of, incidences, Dict.items.
  rewrite foldl_bind. apply foldl_pointwise. intros c [[u v] pairs]. simpl.
  rewrite foldl_bind. apply foldl_pointwise. intros c' [s t]. done.
Qed.

Lemma record_foldl_get occs (c : Dict.t Qubit (list (Var * Var))) q :
  Dict.get_default q [] (foldl record c occs) =
  reverse (filter (λ occ, occ.1 = q) occs).*2 ++ Dict.get_default q [] c.
Proof.
  revert c. induction occs as [|[q' e] occs IH]; intros c; [done|].
  cbn [foldl]. rewrite IH, filter_cons. unfold record, Dict.get_default at 1.
  cbn [fst snd]. rewrite Dict_get_set. destruct (decide (q' = q)) as [->|Hne].
  - rewrite fmap_cons, reverse_cons, <-(assoc_L (++)). done.
  - done.
Qed.

Lemma record_foldl_keys occs (c : Dict.t Qubit (list (Var * Var))) :
  (NoDup (Dict.keys c) → NoDup (Dict.keys (foldl record c occs))) ∧
  (∀ q, q ∈ Dict.keys (foldl record c occs) ↔ q ∈ Dict.keys c ∨ q ∈ occs.*1).
Proof.
  revert c. induction occs as [|[q' e] occs IH]; intros c.
  - split; [done|]. intros q. simpl. rewrite elem_of_nil. tauto.
  - cbn [foldl]. destruct (IH (record c (q', e))) as [IH1 IH2]. split.
    + intros Hnd. apply IH1. by apply Dict_NoDup_keys_set.
    + intros q. rewrite IH2. unfold record. rewrite Dict_elem_of_keys_set.
      rewrite fmap_cons, elem_of_cons. simpl. tauto.
Qed.

(** What [connections] holds for each qubit. *)
Lemma connections_of_spec I :
  NoDup (Dict.keys (connections_of I)) ∧
  (∀ q, q ∈ Dict.keys (connections_of I) ↔ q ∈ touched I) ∧
  (∀ q edges, (q, edges) ∈ Dict.items (connections_of I) →
              edges = edges_through I q ∧ edges ≠ []).
Proof.
  rewrite connections_of_incidences.
  destruct (record_foldl_keys (incidences I) Dict.empty) as [Hnd Hkeys].
  assert (∀ q, q ∈ Dict.keys (foldl record Dict.empty (incidences I)) ↔
               q ∈ (incidences I).*1) as Hkeys'.
  { intros q. rewrite Hkeys. simpl. rewrite elem_of_nil. tauto. }
  split_and!.
  - apply Hnd. constructor.
  - intros q. rewrite Hkeys'. unfold touched. by rewrite elem_of_remove_dups.
  - intros q edges Hin.
    assert (q ∈ (incidences I).*1) as Hq.
    { apply Hkeys'. apply list_elem_of_fmap. by exists (q, edges). }
    apply Dict_elem_of_items in Hin; [|apply Hnd; constructor].
    pose proof (record_foldl_get (incidences I) Dict.empty q) as Hget.
    unfold Dict.get_default at 1 in Hget. rewrite Hin in Hget. simpl in Hget.
    rewrite app_nil_r in Hget. split; [done|]. rewrite Hget.
    apply list_elem_of_fmap in Hq as ([q' e] & Hq' & Hocc).
    simpl in Hq'. subst q'.
    intros Hnil. apply (f_equal reverse) in Hnil.
    rewrite reverse_involutive in Hnil. apply fmap_nil_inv in Hnil.
    assert ((q, e) ∈ filter (λ occ : Qubit * (Var * Var), occ.1 = q) (incidences I))
      as Hf by (by apply list_elem_of_filter).
    rewrite Hnil in Hf. by apply elem_of_nil in Hf.
Qed.

(** An edge recorded for a qubit is a key of [interactions], in one
    direction or the other. *)
Lemma incidences_edge I q a b :
  (q, (a, b)) ∈ incidences I → (a, b) ∈ Dict.keys I ∨ (b, a) ∈ Dict.keys I.
Proof.
  unfold incidences. intros ([[u v] pairs] & Hocc & Hitem)%list_elem_of_bind.
  apply list_elem_of_bind in Hocc as ([s t] & Hocc & _). simpl in Hocc.
  assert ((u, v) ∈ Dict.keys I) as Hkey.
  { apply list_elem_of_fmap. by exists (u, v, pairs). }
  apply elem_of_cons in Hocc as [[= -> -> ->]|Hocc]; [by left|].
  apply list_elem_of_singleton in Hocc as [= -> -> ->]. by right.
Qed.

Lemma edges_through_elem_of I q e :
  e ∈ edges_through I q ↔ (q, e) ∈ incidences I.
Proof.
  unfold edges_through. rewrite elem_of_reverse, list_elem_of_fmap. split.
  - intros ([q' e'] & -> & [Hq Hin]%list_elem_of_filter). simpl in *. by subst.
  - intros Hin. exists (q, e). split; [done|]. by apply list_elem_of_filter.
Qed.

(** *** Degrees *)

Lemma degree_cons S u v a :
  degree ((u, v) :: S) a =
  degree S a + (if decide (u ≠ v ∧ (u = a ∨ v = a)) then 1 else 0).
Proof.
  unfold degree, len. rewrite filter_cons. simpl.
  case_decide; simpl; lia.
Qed.

Lemma degree_nonneg S a : 0 ≤ degree S a.
Proof. unfold degree, len. lia. Qed.

Lemma degree_pos S u v a : (u, v) ∈ S → u ≠ v → a = u ∨ a = v → 1 ≤ degree S a.
Proof.
  intros Hin Huv Ha. induction S as [|[u' v'] S IH]; [by apply elem_of_nil in Hin|].
  rewrite degree_cons. pose proof (degree_nonneg S a).
  apply elem_of_cons in Hin as [[= <- <-]|Hin].
  - rewrite decide_True by naive_solver. lia.
  - specialize (IH Hin). case_decide; lia.
Qed.

Lemma degree_foldl S (d0 : Dict.t Var Z) a :
  Dict.get_default a 0 (foldl degree_step d0 S) =
    Dict.get_default a 0 d0 + degree S a ∧
  (a ∈ Dict.keys (foldl degree_step d0 S) ↔ a ∈ Dict.keys d0 ∨ 1 ≤ degree S a).
Proof.
  revert d0. induction S as [|[u v] S IH]; intros d0.
  - simpl. unfold degree, len. simpl. split; [lia|]. split; [by left|].
    intros [?|?]; [done|lia].
  - cbn [foldl]. destruct (IH (degree_step d0 (u, v))) as [IH1 IH2].
    rewrite IH1, IH2, degree_cons. pose proof (degree_nonneg S a).
    unfold degree_step. destruct (decide (u = v)) as [->|Huv].
    + rewrite decide_False by naive_solver. split; [lia|].
      by rewrite Z.add_0_r.
    + rewrite !bump_get, !bump_keys.
      repeat case_decide; split; try lia; naive_solver lia.
Qed.

(** The degree that [connectivity_histogram] reads for an endpoint of a
    source edge. *)
Lemma source_degree_get S a :
  1 ≤ degree S a → Dict.get a (source_degree_of S) = Some (degree S a).
Proof.
  intros Hdeg. unfold source_degree_of.
  destruct (degree_foldl S Dict.empty a) as [Hget Hkeys].
  assert (is_Some (Dict.get a (foldl degree_step Dict.empty S))) as [d Hd].
  { apply Dict_get_is_Some, Hkeys. by right. }
  unfold Dict.get_default in Hget. rewrite Hd in Hget. simpl in Hget.
  rewrite Hd. f_equal. lia.
Qed.

(** *** The ratio of a qubit *)

Lemma connectivity_Ok S I q edges :
  (∀ u v, (u, v) ∈ Dict.keys I → (u, v) ∈ S ∧ u ≠ v) →
  (q, edges) ∈ Dict.items (connections_of I) →
  ∃ u v rest,
    edges = (u, v) :: rest ∧
    Dict.get u (source_degree_of S) = Some (degree S u) ∧
    1 ≤ degree S u ∧
    connectivity (source_degree_of S) edges =
      Ok (Qred (inject_Z (len (remove_dups edges)) / inject_Z (degree S u))) ∧
    qubit_connectivity S I q =
      Some (Qred (inject_Z (len (remove_dups edges)) / inject_Z (degree S u))).
Proof.
  intros Hkeys Hin.
  destruct (connections_of_spec I) as (_ & _ & Hitems).
  destruct (Hitems q edges Hin) as [Hedges Hne].
  destruct edges as [|[u v] rest]; [done|]. exists u, v, rest.
  assert (1 ≤ degree S u) as Hdeg.
  { assert ((q, (u, v)) ∈ incidences I) as Hocc.
    { apply edges_through_elem_of. rewrite <-Hedges. left. }
    apply incidences_edge in Hocc as [Hk|Hk]; apply Hkeys in Hk as [Hk Huv].
    - apply (degree_pos S u v); auto.
    - apply (degree_pos S v u); auto. }
  pose proof (source_degree_get S u Hdeg) as Hget.
  split_and!; [done..| |].
  - unfold connectivity, getitem, Dict.lookup, set_of, true_div. simpl.
    rewrite Hget. simpl. rewrite decide_False by lia. done.
  - unfold qubit_connectivity. rewrite <-Hedges. done.
Qed.

(** C10. For any input on which [connections] returns, every list of
    edges in it has a first edge; its first endpoint is a key of
    [source_degree], with a degree that is at least 1; and
    [connectivity_histogram] returns, so that its division raises neither
    [KeyError] nor [ZeroDivisionError]. *)
Theorem connectivity_division_safe E S T conn :
  connections E S T = Ok conn →
  (∀ t edges, (t, edges) ∈ Dict.items conn →
     ∃ u v rest d, edges = (u, v) :: rest ∧
                   Dict.get u (source_degree_of S) = Some d ∧ 1 ≤ d) ∧
  ∃ hist, connectivity_histogram E S T = Ok hist.
Proof.
  unfold connections, connectivity_histogram, connections.
  destruct (interactions E S T) as [I|] eqn:HI; simpl; [|done].
  intros [= <-]. apply interactions_Ok in HI as (_ & Hkeys & _).
  assert (∀ u v, (u, v) ∈ Dict.keys I → (u, v) ∈ S ∧ u ≠ v) as Hkeys'.
  { intros u v. apply Hkeys. }
  split.
  - intros t edges Hin.
    destruct (connectivity_Ok S I t edges Hkeys' Hin)
      as (u & v & rest & -> & Hget & Hdeg & _).
    by exists u, v, rest, (degree S u).
  - eexists. apply foldM_total with
      (f := λ hist item, bump (default (inject_Z 0) (qubit_connectivity S I item.1)) hist).
    intros hist [t edges] Hin. cbn [fst].
    destruct (connectivity_Ok S I t edges Hkeys' Hin)
      as (u & v & rest & _ & _ & _ & Hc & Hq).
    rewrite Hc, Hq. done.
Qed.

(** *** The histogram *)

Lemma length_filter_fmap {A B} (f : A → B) (P : B → Prop)
    `{∀ y, Decision (P y)} (l : list A) :
  length (filter P (f <$> l)) = length (filter (λ x, P (f x)) l).
Proof.
  induction l as [|x l IH]; [done|].
  rewrite fmap_cons, !filter_cons. case_decide; simpl; by rewrite IH.
Qed.

Lemma filter_iff_elem_of {A} (P Q : A → Prop)
    `{∀ x, Decision (P x), ∀ x, Decision (Q x)} (l : list A) :
  (∀ x, x ∈ l → P x ↔ Q x) → filter P l = filter Q l.
Proof.
  induction l as [|x l IH]; intros HPQ; [done|].
  rewrite !filter_cons. rewrite IH by (intros y Hy; apply HPQ; by right).
  destruct (decide (P x)) as [HP|HP], (decide (Q x)) as [HQ|HQ]; try done.
  - apply HPQ in HP; [done|left].
  - apply HPQ in HQ; [done|left].
Qed.

Lemma foldl_bump_fmap {A K} `{EqDecision K} (g : A → K) (hist : Dict.t K Z)
    (l : list A) :
  foldl (λ hist x, bump (g x) hist) hist l =
  foldl (λ hist k, bump k hist) hist (g <$> l).
Proof.
  revert hist. induction l as [|x l IH]; intros hist; [done|].
  rewrite fmap_cons. simpl. apply IH.
Qed.

(** The float of a qubit. *)
Lemma connectivity_float_Ok `{PyFloat} S I q edges :
  (∀ u v, (u, v) ∈ Dict.keys I → (u, v) ∈ S ∧ u ≠ v) →
  (q, edges) ∈ Dict.items (connections_of I) →
  ∃ x, WithFloats.connectivity (source_degree_of S) edges = Ok x ∧
       qubit_quotient S I q = Some x.
Proof.
  intros Hkeys Hin.
  destruct (connectivity_Ok S I q edges Hkeys Hin)
    as (u & v & rest & -> & Hget & Hdeg & _ & _).
  destruct (connections_of_spec I) as (_ & _ & Hitems).
  destruct (Hitems q _ Hin) as [Hedges _].
  eexists. split.
  - unfold WithFloats.connectivity, getitem, Dict.lookup, set_of, true_div_float.
    simpl. rewrite Hget. simpl. rewrite decide_False by lia. done.
  - unfold qubit_quotient. rewrite <-Hedges. done.
Qed.

(** C6, as the code has it. For any input on which [interactions]
    returns, [connectivity_histogram] returns the bucket counts of one
    value for each physical qubit that occurs on either side of a realized
    interaction: the number of distinct oriented logical edges recorded
    for the qubit ([(u, v)] where it is the first qubit of an interaction
    of [(u, v)], [(v, u)] where it is the second), divided by the degree,
    self-loops excluded, of the first endpoint of the edge recorded last.
    The value is the float that this quotient is in Python, and the
    buckets are by float: the count of a float is the number of these
    qubits whose quotient is this float. *)
Theorem connectivity_histogram_spec `{PyFloat} E S T I :
  interactions E S T = Ok I →
  ∃ hist, WithFloats.connectivity_histogram E S T = Ok hist ∧
          ∀ x, Dict.get_default x 0 hist =
               len (filter (λ q, qubit_quotient S I q = Some x) (touched I)).
Proof.
  intros HI. unfold WithFloats.connectivity_histogram, connections. rewrite HI. simpl.
  apply interactions_Ok in HI as (_ & Hkeys & _).
  assert (∀ u v, (u, v) ∈ Dict.keys I → (u, v) ∈ S ∧ u ≠ v) as Hkeys'.
  { intros u v. apply Hkeys. }
  set (g := λ item : Qubit * list (Var * Var),
              default (int_truediv 0 1) (qubit_quotient S I item.1)).
  eexists. split.
  - apply foldM_total with (f := λ hist item, bump (g item) hist).
    intros hist [t edges] Hin. unfold g. cbn [fst].
    destruct (connectivity_float_Ok S I t edges Hkeys' Hin) as (x & Hc & Hq).
    rewrite Hc, Hq. done.
  - intros x. rewrite foldl_bump_fmap.
    change (foldl _ Dict.empty ?ks) with (histogram ks).
    rewrite histogram_get. unfold len. f_equal.
    rewrite length_filter_fmap.
    rewrite (filter_iff_elem_of _
               (λ item, qubit_quotient S I item.1 = Some x)).
    2:{ intros [t edges] Hin. unfold g. cbn [fst].
        destruct (connectivity_float_Ok S I t edges Hkeys' Hin) as (y & _ & Hq).
        rewrite Hq. simpl. naive_solver. }
    transitivity (length (filter (λ q, qubit_quotient S I q = Some x)
                                 (Dict.keys (connections_of I)))).
    { unfold Dict.keys, Dict.items. by rewrite length_filter_fmap. }
    apply Permutation_length, filter_Permutation.
    destruct (connections_of_spec I) as (Hnd & Hmem & _).
    apply NoDup_Permutation; [exact Hnd|apply NoDup_remove_dups|exact Hmem].
Qed.

End connections.

Lemma connectivity_division_safe_witness :
  let E : Embedding.t := [(0, [10]); (1, [11; 12])] in
  ∃ hist, Embedding.connectivity_histogram E [(0, 1)] [(10, 11); (10, 12)] = Ok hist.
Proof.
  intros E.
  destruct (connectivity_division_safe E [(0, 1)] [(10, 11); (10, 12)]
              [(10, [(0, 1); (0, 1)]); (11, [(1, 0)]); (12, [(1, 0)])] eq_refl)
    as [_ Hhist].
  exact Hhist.
Defined.

Lemma connectivity_histogram_spec_witness :
  let E : Embedding.t := [(0, [10]); (1, [11; 12])] in
  ∃ hist,
    @Embedding.WithFloats.connectivity_histogram IEEE754.binary64
      E [(0, 1)] [(10, 11); (10, 12)] = Ok hist ∧
    Dict.get_default (IEEE754.div 1 1) 0 hist = 3.
Proof.
  intros E.
  destruct (@connectivity_histogram_spec IEEE754.binary64
              E [(0, 1)] [(10, 11); (10, 12)]
              [((0, 1), [(10, 11); (10, 12)])] eq_refl)
    as (hist & Hhist & Hcount).
  exists hist. split; [exact Hhist|]. rewrite Hcount. vm_compute. reflexivity.
Defined.

(** C6, as stated, fails. The qubit 10 is the first qubit of two
    interactions of the logical edge (0, 1), which has degree 1 at 0: the
    number of physical edges that realize (0, 1) through 10, over the
    degree of 0, is 2. The histogram has no bucket for it: it has the
    single bucket 1.0, with count 3, because one logical edge is recorded
    for each of the qubits 10, 11 and 12. And the buckets are not by exact
    ratio: the quotient is a float, and two different ratios can be the
    same float. *)
Lemma connectivity_histogram_counts_logical_edges :
  let E : Embedding.t := [(0, [10]); (1, [11; 12])] in
  let S := [(0, 1)] in
  let T := [(10, 11); (10, 12)] in
  (∃ I, Embedding.interactions E S T = Ok I ∧
        Dict.get (0, 1) I = Some [(10, 11); (10, 12)] ∧
        physical_edge_ratio S I 10 (0, 1) = (2 # 1)%Q ∧
        @Embedding.WithFloats.connectivity_histogram IEEE754.binary64 E S T =
          Ok [(IEEE754.div 1 1, 3)]) ∧
  IEEE754.div 2 1 ≠ IEEE754.div 1 1 ∧
  (94911150 * 94911152 ≠ 94911151 * 94911151 ∧
   IEEE754.div 94911150 94911151 = IEEE754.div 94911151 94911152).
Proof.
  split_and!.
  - eexists. split; [reflexivity|]. split_and!; vm_compute; reflexivity.
  - vm_compute. discriminate.
  - lia.
  - vm_compute. reflexivity.
Qed.

(** * Further properties *)

(** ** Histograms and the quality key *)

Section histogram_facts.
Context {K : Type} `{EqDecision K}.

Lemma sum_values_bump (k : K) (hist : Dict.t K Z) :
  sum (Dict.values (bump k hist)) = sum (Dict.values hist) + 1.
Proof.
  unfold bump, Dict.get_default, Dict.values, sum.
  induction hist as [|[k' c] hist IH]; csimpl; [lia|].
  destruct (decide (k' = k)) as [->|Hne]; csimpl; lia.
Qed.

Lemma foldl_bump_keys (ks : list K) (hist : Dict.t K Z) :
  (NoDup (Dict.keys hist) →
   NoDup (Dict.keys (foldl (λ hist k, bump k hist) hist ks))) ∧
  (∀ k, k ∈ Dict.keys (foldl (λ hist k, bump k hist) hist ks) ↔
        k ∈ Dict.keys hist ∨ k ∈ ks) ∧
  sum (Dict.values (foldl (λ hist k, bump k hist) hist ks)) =
    sum (Dict.values hist) + len ks.
Proof.
  revert hist. induction ks as [|k0 ks IH]; intros hist.
  - simpl. split_and!; [done| |unfold len; simpl; lia].
    intros k. rewrite elem_of_nil. tauto.
  - cbn [foldl]. destruct (IH (bump k0 hist)) as (IH1 & IH2 & IH3). split_and!.
    + intros Hnd. apply IH1. by apply Dict_NoDup_keys_set.
    + intros k. rewrite IH2, bump_keys, elem_of_cons. tauto.
    + rewrite IH3, sum_values_bump. unfold len. simpl. lia.
Qed.

(** A bucket is present exactly for the keys that occur, with the number
    of their occurrences. *)
Lemma histogram_lookup (k : K) (ks : list K) :
  Dict.get k (histogram ks) =
  if decide (k ∈ ks) then Some (len (filter (λ k', k' = k) ks)) else None.
Proof.
  destruct (foldl_bump_keys ks Dict.empty) as (_ & Hkeys & _).
  pose proof (histogram_get k ks) as Hget. unfold Dict.get_default in Hget.
  case_decide as Hin.
  - assert (is_Some (Dict.get k (histogram ks))) as [c Hc].
    { apply Dict_get_is_Some, Hkeys. by right. }
    rewrite Hc in Hget. simpl in Hget. by rewrite Hc, Hget.
  - apply eq_None_not_Some. rewrite Dict_get_is_Some.
    intros [?%elem_of_nil|?]%Hkeys; done.
Qed.

Lemma histogram_NoDup (ks : list K) : NoDup (Dict.keys (histogram ks)).
Proof.
  destruct (foldl_bump_keys ks Dict.empty) as (Hnd & _). apply Hnd. constructor.
Qed.

Lemma histogram_Permutation (ks1 ks2 : list K) :
  ks1 ≡ₚ ks2 → Dict.items (histogram ks1) ≡ₚ Dict.items (histogram ks2).
Proof.
  intros Hp. apply NoDup_Permutation.
  - eapply (NoDup_fmap_1 fst). apply histogram_NoDup.
  - eapply (NoDup_fmap_1 fst). apply histogram_NoDup.
  - intros [k c]. rewrite !Dict_elem_of_items by apply histogram_NoDup.
    rewrite !histogram_lookup.
    assert (len (filter (λ k', k' = k) ks1) = len (filter (λ k', k' = k) ks2))
      as -> by (unfold len; by rewrite Hp).
    destruct (decide (k ∈ ks1)) as [H1|H1], (decide (k ∈ ks2)) as [H2|H2];
      try done; by rewrite Hp in H1.
Qed.

End histogram_facts.

Lemma chain_histogram_histogram (E : Embedding.t) :
  Embedding.chain_histogram E = histogram (len <$> chains E).
Proof. done. Qed.

(** X1. [chain_histogram] has one bucket for each chain length that
    occurs, no length twice; the count of a bucket is the number of chains
    of that length; and the counts add up to the number of variables. *)
Theorem chain_histogram_counts (E : Embedding.t) :
  NoDup (Dict.keys (Embedding.chain_histogram E)) ∧
  (∀ s, s ∈ Dict.keys (Embedding.chain_histogram E) ↔
        ∃ chain, chain ∈ chains E ∧ len chain = s) ∧
  (∀ s, Dict.get_default s 0 (Embedding.chain_histogram E) =
        len (filter (λ chain, len chain = s) (chains E))) ∧
  sum (Dict.values (Embedding.chain_histogram E)) = len (Dict.keys E).
Proof.
  rewrite chain_histogram_histogram.
  destruct (foldl_bump_keys (len <$> chains E) Dict.empty) as (_ & Hkeys & Hsum).
  split_and!.
  - apply histogram_NoDup.
  - intros s. unfold histogram. rewrite Hkeys, list_elem_of_fmap.
    split; [intros [?%elem_of_nil|(c & -> & ?)]; eauto; done|].
    intros (c & ? & <-). right. eauto.
  - intros s. rewrite histogram_get. unfold len at 1 3. f_equal.
    apply length_filter_fmap.
  - unfold histogram. rewrite Hsum. unfold len, chains, Dict.values, Dict.keys.
    rewrite !length_fmap. simpl. unfold sum. simpl. lia.
Qed.

Lemma flip_tuple_le_trans : Transitive (flip tuple_le).
Proof. intros p q r. unfold flip, tuple_le. lia. Qed.

Lemma flip_tuple_le_antisym : AntiSymm (=) (flip tuple_le).
Proof.
  intros [a b] [c d]. unfold flip, tuple_le. simpl. intros H1 H2.
  f_equal; lia.
Qed.

Lemma flip_tuple_le_total : Total (flip tuple_le).
Proof. intros p q. unfold flip, tuple_le. lia. Qed.

Lemma sorted_reverse_Permutation l1 l2 :
  l1 ≡ₚ l2 → sorted_reverse l1 = sorted_reverse l2.
Proof.
  intros Hp. unfold sorted_reverse.
  apply (@Sorted_unique _ (flip tuple_le) flip_tuple_le_trans flip_tuple_le_antisym).
  - apply (@Sorted_merge_sort _ (flip tuple_le) _ flip_tuple_le_total).
  - apply (@Sorted_merge_sort _ (flip tuple_le) _ flip_tuple_le_total).
  - by rewrite !merge_sort_Permutation.
Qed.

(** The sorted items of a dict without repeated keys are strictly
    decreasing in the key. *)
Lemma sorted_reverse_strict (hist : Dict.t Z Z) :
  NoDup (Dict.keys hist) →
  StronglySorted (λ p q : Z * Z, q.1 < p.1) (sorted_reverse (Dict.items hist)).
Proof.
  intros Hnd.
  assert (NoDup (sorted_reverse (Dict.items hist)).*1) as Hnd'.
  { unfold sorted_reverse. by rewrite merge_sort_Permutation. }
  assert (StronglySorted (flip tuple_le) (sorted_reverse (Dict.items hist))) as Hs.
  { apply (@StronglySorted_merge_sort _ (flip tuple_le) _ flip_tuple_le_trans
             flip_tuple_le_total). }
  induction Hs as [|p ps Hs IH Hall]; [constructor|].
  rewrite fmap_cons in Hnd'. apply NoDup_cons in Hnd' as [Hp Hnd'].
  constructor; [by apply IH|].
  rewrite Forall_forall in Hall |- *. intros q Hq.
  destruct (Hall q Hq) as [Hlt|[Heq _]]; [done|].
  exfalso. apply Hp. rewrite <-Heq. apply list_elem_of_fmap. eauto.
Qed.

(** X2. [quality_key] depends only on the multiset of the chain lengths:
    renaming the variables, storing the chains in another order, or
    replacing a chain by one of the same length leaves it unchanged, and
    with it the four comparisons. *)
Theorem quality_key_lengths (E F : Embedding.t) :
  len <$> chains E ≡ₚ len <$> chains F →
  Embedding.quality_key E = Embedding.quality_key F ∧
  Embedding.__le__ E F = true ∧ Embedding.__ge__ E F = true ∧
  Embedding.__lt__ E F = false ∧ Embedding.__gt__ E F = false.
Proof.
  intros Hp.
  assert (Embedding.quality_key E = Embedding.quality_key F) as Hqk.
  { unfold Embedding.quality_key. rewrite !chain_histogram_histogram.
    f_equal. apply sorted_reverse_Permutation. by apply histogram_Permutation. }
  unfold Embedding.__le__, Embedding.__ge__, Embedding.__lt__, Embedding.__gt__,
    list_ge, list_gt.
  rewrite !list_lt_not_le, Hqk, !list_le_refl. done.
Qed.

Lemma quality_key_lengths_witness :
  let E : Embedding.t := [(0, [1; 2]); (1, [3])] in
  let F : Embedding.t := [(7, [9]); (5, [4; 8])] in
  Embedding.quality_key E = Embedding.quality_key F.
Proof.
  intros E F. apply (quality_key_lengths E F). apply perm_swap.
Defined.

Lemma count_lengths (E : Embedding.t) (s : Z) :
  len (filter (λ k', k' = s) (len <$> chains E)) =
  len (filter (λ chain, len chain = s) (chains E)).
Proof. unfold len at 1 3. f_equal. apply length_filter_fmap. Qed.

Lemma count_lengths_pos (E : Embedding.t) (s : Z) :
  1 ≤ len (filter (λ chain, len chain = s) (chains E)) ↔ s ∈ len <$> chains E.
Proof.
  rewrite list_elem_of_fmap. split.
  - destruct (filter _ (chains E)) as [|c cs] eqn:Hfl;
      [unfold len; simpl; lia|]. intros _.
    assert (c ∈ filter (λ chain, len chain = s) (chains E)) as Hf
      by (rewrite Hfl; left).
    apply list_elem_of_filter in Hf as [<- Hc]. eauto.
  - intros (c & -> & Hc).
    assert (c ∈ filter (λ chain, len chain = len c) (chains E)) as Hf
      by (by apply list_elem_of_filter).
    destruct (filter _ (chains E)); [by apply elem_of_nil in Hf|].
    unfold len at 1. simpl. lia.
Qed.

(** X3. [quality_key] is the flattening of a list of pairs (length,
    count) in which the lengths strictly decrease, and which holds the
    pair [(s, n)] exactly when [n >= 1] chains have length [s]. *)
Theorem quality_key_shape (E : Embedding.t) :
  ∃ ps : list (Z * Z),
    Embedding.quality_key E = (p ← ps; [p.1; p.2]) ∧
    StronglySorted (λ p q, q.1 < p.1) ps ∧
    ∀ s n, (s, n) ∈ ps ↔
           1 ≤ n ∧ n = len (filter (λ chain, len chain = s) (chains E)).
Proof.
  exists (sorted_reverse (Dict.items (Embedding.chain_histogram E))).
  rewrite chain_histogram_histogram. split_and!.
  - done.
  - apply sorted_reverse_strict, histogram_NoDup.
  - intros s n. unfold sorted_reverse. rewrite merge_sort_Permutation.
    rewrite Dict_elem_of_items by apply histogram_NoDup.
    rewrite histogram_lookup, count_lengths.
    pose proof (count_lengths_pos E s) as Hpos.
    case_decide as Hin.
    + split; [intros [= <-]; split; [by apply Hpos|done]|]. by intros [_ ->].
    + split; [done|]. intros [Hn ->]. by apply Hpos in Hn.
Qed.

Lemma foldl_max_spec (x : Z) (l : list Z) :
  foldl Z.max x l ∈ x :: l ∧ ∀ y, y ∈ x :: l → y ≤ foldl Z.max x l.
Proof.
  revert x. induction l as [|z l IH]; intros x; simpl.
  - split; [left|]. intros y ->%list_elem_of_singleton. lia.
  - destruct (IH (Z.max x z)) as [Hin Hle]. split.
    + apply elem_of_cons in Hin as [Hin|Hin]; [|by do 2 right].
      rewrite Hin. destruct (Z.max_spec x z) as [[_ ->]|[_ ->]];
        [right; left|left].
    + intros y Hy. assert (y ≤ Z.max x z ∨ y ∈ l) as [Hy'|Hy'].
      { apply elem_of_cons in Hy as [->|Hy]; [left; lia|].
        apply elem_of_cons in Hy as [->|Hy]; [left; lia|by right]. }
      * etrans; [exact Hy'|]. apply Hle. left.
      * apply Hle. by right.
Qed.

(** X4. [max_chain] raises [ValueError] on an Embedding without
    variables, and nothing else; on any other Embedding it returns the
    length of a longest chain, which is the first entry of [quality_key]. *)
Theorem max_chain_spec (E : Embedding.t) :
  match Embedding.max_chain E with
  | Ok m =>
      E ≠ [] ∧ (∃ chain, chain ∈ chains E ∧ len chain = m) ∧
      (∀ chain, chain ∈ chains E → len chain ≤ m) ∧
      head (Embedding.quality_key E) = Some m
  | Raise e => e = ValueError ∧ E = []
  end.
Proof.
  unfold Embedding.max_chain.
  destruct (chain_histogram_counts E) as (Hnd & Hkeys & _ & _).
  destruct (Dict.keys (Embedding.chain_histogram E)) as [|x l] eqn:Hk.
  - split; [done|]. destruct E as [|[v c] E]; [done|].
    exfalso. assert (len c ∈ @nil Z) as Hin; [|by apply elem_of_nil in Hin].
    apply Hkeys. exists c. split; [left|done].
  - destruct (foldl_max_spec x l) as [Hin Hmax].
    set (m := foldl Z.max x l) in *.
    assert (∃ chain, chain ∈ chains E ∧ len chain = m) as Hm by by apply Hkeys.
    split_and!.
    + intros ->. destruct Hm as (c & Hc & _). by apply elem_of_nil in Hc.
    + done.
    + intros c Hc. apply Hmax, Hkeys. eauto.
    + unfold Embedding.quality_key.
      assert (NoDup (Dict.keys (Embedding.chain_histogram E))) as Hnd'
        by (by rewrite Hk).
      pose proof (sorted_reverse_strict (Embedding.chain_histogram E) Hnd') as Hs.
      assert ((sorted_reverse (Dict.items (Embedding.chain_histogram E))).*1
                ≡ₚ x :: l) as Hp.
      { unfold sorted_reverse. rewrite merge_sort_Permutation. by rewrite <-Hk. }
      destruct Hs as [|p ps Hs Hall].
      * apply Permutation_nil_l in Hp. done.
      * simpl. f_equal.
        assert (p.1 ≤ m) as Hle.
        { apply Hmax. rewrite <-Hp, fmap_cons. left. }
        assert (m ∈ (p :: ps).*1) as Hin' by by rewrite Hp.
        rewrite fmap_cons in Hin'. apply elem_of_cons in Hin' as [->|Hin']; [done|].
        apply list_elem_of_fmap in Hin' as (q & -> & Hq).
        rewrite Forall_forall in Hall. specialize (Hall q Hq). lia.
Qed.

(** X5. The order of Embeddings is total: of two Embeddings one is [<=]
    the other; [<] holds exactly when [<=] holds and the quality keys
    differ, and never in both directions. *)
Theorem quality_key_order_total (E F : Embedding.t) :
  (Embedding.__le__ E F = true ∨ Embedding.__le__ F E = true) ∧
  (Embedding.__lt__ E F = true ↔
   Embedding.__le__ E F = true ∧ Embedding.quality_key E ≠ Embedding.quality_key F) ∧
  (Embedding.__lt__ E F = true → Embedding.__lt__ F E = false).
Proof.
  unfold Embedding.__le__, Embedding.__lt__.
  set (a := Embedding.quality_key E). set (b := Embedding.quality_key F).
  rewrite !list_lt_not_le. split_and!.
  - apply list_le_total.
  - rewrite negb_true_iff. split.
    + intros Hba. destruct (list_le_total a b) as [Hab|Hab]; [|congruence].
      split; [done|]. intros ->. by rewrite list_le_refl in Hba.
    + intros [Hab Hne]. destruct (list_le b a) eqn:Hba; [|done].
      by apply list_le_antisym in Hba.
  - rewrite negb_true_iff, negb_false_iff. intros Hba.
    destruct (list_le_total a b) as [Hab|Hab]; [done|congruence].
Qed.

(** ** Interactions, once more *)

Section interactions_facts.
Import Embedding.
Implicit Types (E : Embedding.t) (S : list (Var * Var)) (T : list (Qubit * Qubit)).

(** The inner loop, computed. *)
Lemma inner_loop_eq adj s acc chain_v :
  inner_loop adj s acc chain_v =
  match chain_v with
  | [] => Ok acc
  | _ :: _ =>
      match Dict.get s adj with
      | None => Raise KeyError
      | Some adj_s => Ok (acc ++ ((λ t, (s, t)) <$> filter (λ t, t ∈ adj_s) chain_v))
      end
  end.
Proof.
  unfold inner_loop, Dict.lookup.
  destruct chain_v as [|t0 chain_v]; [done|].
  destruct (Dict.get s adj) as [adj_s|]; [|done].
  rewrite (foldM_total _
             (λ acc t, if decide (t ∈ adj_s) then acc ++ [(s, t)] else acc))
    by done.
  f_equal. generalize (t0 :: chain_v). clear. intros l. revert acc.
  induction l as [|t l IH]; intros acc; simpl.
  - by rewrite app_nil_r.
  - rewrite IH, filter_cons. case_decide; [|done].
    by rewrite fmap_cons, <-(assoc_L (++)).
Qed.

(** The two nested loops, when no subscript raises. *)
Lemma outer_loop_eq E T v chain_u chain_v acc :
  Dict.get v E = Some chain_v →
  (chain_v ≠ [] → ∀ s, s ∈ chain_u → ∃ t, target_edge T s t) →
  foldM (λ acc s, chain_v ← of_option KeyError (Dict.get v E);
                  inner_loop (target_adjacency T) s acc chain_v) acc chain_u
  = Ok (acc ++ chain_pairs T chain_u chain_v).
Proof.
  intros Hv. unfold chain_pairs.
  rewrite (foldM_ext _ (λ acc s, inner_loop (target_adjacency T) s acc chain_v))
    by (intros; by rewrite Hv).
  revert acc. induction chain_u as [|s chain_u IH]; intros acc Hadj; simpl.
  - by rewrite app_nil_r.
  - rewrite inner_loop_eq.
    assert (filter (target_edge T s) chain_v =
            filter (λ t, t ∈ Dict.get_default s [] (target_adjacency T)) chain_v)
      as Hfilter.
    { apply list_filter_iff. intros t. by rewrite target_adjacency_elem_of. }
    destruct chain_v as [|t0 chain_v].
    + simpl. by rewrite IH.
    + destruct (Hadj ltac:(done) s ltac:(left)) as [t Ht].
      assert (is_Some (Dict.get s (target_adjacency T))) as [adj_s Hs]
        by (apply target_adjacency_is_Some; eauto).
      rewrite Hs. simpl.
      rewrite IH by (intros ? s' ?; apply Hadj; [done|by right]).
      rewrite Hfilter. unfold Dict.get_default. rewrite Hs. simpl.
      by rewrite <-(assoc_L (++)).
Qed.

(** What makes the two nested loops raise. *)
Lemma edge_interactions_Raise E T u v e :
  edge_interactions E (target_adjacency T) u v = Raise e →
  e = KeyError ∧ lookup_fails E T u v.
Proof.
  unfold edge_interactions, lookup_fails, Dict.lookup, Dict.get_default.
  destruct (Dict.get u E) as [chain_u|]; simpl; [|intros [= <-]; auto].
  generalize (@nil (Qubit * Qubit)) as acc.
  induction chain_u as [|s chain_u IH]; intros acc; simpl; [done|].
  destruct (Dict.get v E) as [chain_v|] eqn:Hv; simpl.
  2:{ intros [= <-]. split; [done|]. right. left. done. }
  rewrite inner_loop_eq. destruct chain_v as [|t0 chain_v]; simpl.
  - intros Hrest. apply IH in Hrest as [-> [?|[[_ ?]|[? _]]]]; done.
  - destruct (Dict.get s (target_adjacency T)) as [adj_s|] eqn:Hs; simpl.
    + intros Hrest. apply IH in Hrest as [-> [?|[[_ ?]|[_ (s' & Hs' & Hiso)]]]];
        [done..|].
      split; [done|]. do 2 right. split; [done|]. exists s'. split; [by right|done].
    + intros [= <-]. split; [done|]. do 2 right. split; [done|].
      exists s. split; [left|]. intros t Ht.
      assert (is_Some (Dict.get s (target_adjacency T))) as [? ?]
        by (apply target_adjacency_is_Some; eauto).
      congruence.
Qed.

(** The two nested loops return exactly when no subscript raises. *)
Lemma edge_interactions_Ok_lookups E T u v pairs :
  edge_interactions E (target_adjacency T) u v = Ok pairs →
  ¬ lookup_fails E T u v.
Proof.
  unfold edge_interactions, lookup_fails, Dict.lookup, Dict.get_default.
  destruct (Dict.get u E) as [chain_u|]; simpl; [|done].
  generalize (@nil (Qubit * Qubit)) as acc. revert pairs.
  induction chain_u as [|s chain_u IH]; intros pairs acc; simpl.
  - intros _ [?|[[? _]|[_ (s & ?%elem_of_nil & _)]]]; done.
  - destruct (Dict.get v E) as [chain_v|] eqn:Hv; simpl; [|done].
    rewrite inner_loop_eq. destruct chain_v as [|t0 chain_v]; simpl.
    + intros _ [?|[[_ ?]|[? _]]]; done.
    + destruct (Dict.get s (target_adjacency T)) as [adj_s|] eqn:Hs; simpl; [|done].
      intros Hrest%IH [?|[[_ ?]|[_ (s' & Hs' & Hiso)]]]; [done..|].
      apply elem_of_cons in Hs' as [->|Hs'].
      * assert (is_Some (Dict.get s (target_adjacency T))) as Hsome by eauto.
        apply target_adjacency_is_Some in Hsome as [t Ht]. by apply (Hiso t).
      * apply Hrest. do 2 right. split; [done|]. eauto.
Qed.

Lemma interaction_loop_Raise E T S I0 e :
  foldM (interaction_step E (target_adjacency T)) I0 S = Raise e →
  e = KeyError ∧ ∃ u v, (u, v) ∈ S ∧ u ≠ v ∧ lookup_fails E T u v.
Proof.
  revert I0. induction S as [|[u v] S IH]; intros I0; simpl; [done|].
  assert (∀ I1, foldM (interaction_step E (target_adjacency T)) I1 S = Raise e →
                e = KeyError ∧
                ∃ u' v', (u', v') ∈ (u, v) :: S ∧ u' ≠ v' ∧ lookup_fails E T u' v')
    as Hrest.
  { intros I1 (-> & u' & v' & ? & ? & ?)%IH. split; [done|].
    exists u', v'. split; [by right|done]. }
  destruct (decide (u = v)) as [->|Huv]; simpl; [apply Hrest|].
  destruct (edge_interactions E (target_adjacency T) u v) as [ei|e'] eqn:Hei; simpl;
    [apply Hrest|].
  intros [= ->]. apply edge_interactions_Raise in Hei as [-> Hfail].
  split; [done|]. exists u, v. split; [left|done].
Qed.

Lemma interaction_loop_Ok_lookups E T S I0 I :
  foldM (interaction_step E (target_adjacency T)) I0 S = Ok I →
  ∀ u v, (u, v) ∈ S → u ≠ v → ¬ lookup_fails E T u v.
Proof.
  revert I0. induction S as [|[u v] S IH]; intros I0; simpl.
  - intros _ u v ?%elem_of_nil. done.
  - destruct (decide (u = v)) as [->|Huv]; simpl.
    + intros Hrest u' v' [[= -> ->]|Hin]%elem_of_cons Hne; [done|].
      by apply (IH _ Hrest).
    + destruct (edge_interactions E (target_adjacency T) u v) as [ei|] eqn:Hei;
        simpl; [|done].
      intros Hrest u' v' [[= -> ->]|Hin]%elem_of_cons Hne.
      * by apply edge_interactions_Ok_lookups in Hei.
      * by apply (IH _ Hrest).
Qed.

(** X6. [interactions] raises nothing but [KeyError], and raises it
    exactly when a subscript it evaluates fails for some source edge that
    is not a self-loop: [self[u]]; [self[v]] if the chain of [u] has a
    qubit; [target_adj[s]], for a qubit [s] of the chain of [u] that no
    target edge other than a self-loop touches, if the chain of [v] has a
    qubit. *)
Theorem interactions_raises_iff E S T :
  (∀ e, interactions E S T = Raise e → e = KeyError) ∧
  (interactions E S T = Raise KeyError ↔
   ∃ u v, (u, v) ∈ S ∧ u ≠ v ∧ lookup_fails E T u v).
Proof.
  unfold interactions. split.
  - intros e He. by apply interaction_loop_Raise in He as [-> _].
  - split.
    + intros He. by apply interaction_loop_Raise in He as [_ ?].
    + intros (u & v & Hin & Huv & Hfail).
      destruct (foldM _ _ S) as [I|e] eqn:Hloop.
      * exfalso. by apply (interaction_loop_Ok_lookups _ _ _ _ _ Hloop u v).
      * by apply interaction_loop_Raise in Hloop as [-> _].
Qed.

Lemma edge_interactions_exact E T u v pairs :
  edge_interactions E (target_adjacency T) u v = Ok pairs →
  pairs = chain_pairs T (Dict.get_default u [] E) (Dict.get_default v [] E).
Proof.
  intros Hei. pose proof (edge_interactions_Ok_lookups _ _ _ _ _ Hei) as Hok.
  unfold lookup_fails in Hok. revert Hei Hok.
  unfold edge_interactions, Dict.lookup, Dict.get_default.
  destruct (Dict.get u E) as [chain_u|]; simpl; [|done].
  destruct chain_u as [|s0 chain_u]; [simpl; by intros [= <-]|].
  intros Hei Hok.
  assert (is_Some (Dict.get v E)) as [chain_v Hv].
  { clear Hei. destruct (Dict.get v E); [eauto|].
    exfalso. apply Hok. right. left. done. }
  rewrite Hv in Hok |- *. simpl in Hok |- *.
  rewrite (outer_loop_eq E T v (s0 :: chain_u) chain_v [] Hv) in Hei;
    [by injection Hei as <-|].
  intros Hne s Hs.
  destruct (Dict.get s (target_adjacency T)) as [adj_s|] eqn:Hadj.
  - apply target_adjacency_is_Some. eauto.
  - exfalso. apply Hok. do 2 right. split; [done|]. exists s. split; [done|].
    intros t Ht.
    assert (is_Some (Dict.get s (target_adjacency T))) as [? ?]
      by (apply target_adjacency_is_Some; eauto).
    congruence.
Qed.

Lemma interactions_get E S T I u v pairs :
  interactions E S T = Ok I → Dict.get (u, v) I = Some pairs →
  pairs = chain_pairs T (Dict.get_default u [] E) (Dict.get_default v [] E).
Proof.
  unfold interactions. intros (_ & _ & Hget)%interaction_loop_Ok Hpairs.
  apply Hget in Hpairs as [?|[_ Hei]]; [done|].
  by apply edge_interactions_exact in Hei.
Qed.

Lemma chain_pairs_NoDup T chain_u chain_v :
  NoDup chain_u → NoDup chain_v → NoDup (chain_pairs T chain_u chain_v).
Proof.
  intros Hu Hv. unfold chain_pairs.
  induction Hu as [|s chain_u Hs Hu IH]; [constructor|].
  rewrite bind_cons. apply NoDup_app. split_and!.
  - apply NoDup_fmap_2; [by intros ?? [= ?]|]. by apply NoDup_filter.
  - intros [s' t] (t' & [= -> ->] & _)%list_elem_of_fmap
      (s'' & Hin & Hs'')%list_elem_of_bind.
    apply list_elem_of_fmap in Hin as (t'' & [= -> ->] & _). done.
  - done.
Qed.

Lemma chain_pairs_elem_of T chain_u chain_v s t :
  (s, t) ∈ chain_pairs T chain_u chain_v ↔
  s ∈ chain_u ∧ t ∈ chain_v ∧ target_edge T s t.
Proof.
  unfold chain_pairs. rewrite list_elem_of_bind. split.
  - intros (s' & (t' & [= -> ->] & [? ?]%list_elem_of_filter)%list_elem_of_fmap & ?).
    done.
  - intros (? & ? & ?). exists s. split; [|done].
    apply list_elem_of_fmap. exists t. split; [done|]. by apply list_elem_of_filter.
Qed.

(** X7. The list that [interactions] holds for a source edge [(u, v)]
    is, in this order and with these repetitions, the pairs [(s, t)] for
    [s] running through the chain of [u] and, for each [s], [t] running
    through the qubits of the chain of [v] that a target edge other than a
    self-loop joins to [s]; it has no pair twice when neither chain has a
    qubit twice. *)
Theorem interactions_pairs E S T I u v pairs :
  interactions E S T = Ok I → Dict.get (u, v) I = Some pairs →
  pairs = chain_pairs T (Dict.get_default u [] E) (Dict.get_default v [] E) ∧
  (NoDup (Dict.get_default u [] E) → NoDup (Dict.get_default v [] E) →
   NoDup pairs).
Proof.
  intros HI Hpairs. pose proof (interactions_get _ _ _ _ _ _ _ HI Hpairs) as ->.
  split; [done|]. apply chain_pairs_NoDup.
Qed.

Lemma bind_app_Permutation {A B} (g h : A → list B) (l : list A) :
  (x ← l; g x ++ h x) ≡ₚ (x ← l; g x) ++ (x ← l; h x).
Proof.
  induction l as [|x l IH]; [done|].
  rewrite !bind_cons, IH, <-!(assoc_L (++)). f_equiv.
  rewrite !(assoc_L (++)). f_equiv. apply Permutation_app_comm.
Qed.

Lemma bind_comm_Permutation {A B C} (f : A → B → list C) (l1 : list A)
    (l2 : list B) :
  (x ← l1; y ← l2; f x y) ≡ₚ (y ← l2; x ← l1; f x y).
Proof.
  induction l1 as [|x l1 IH].
  - simpl. induction l2 as [|y l2 IH2]; [done|]. by rewrite bind_cons, <-IH2.
  - rewrite bind_cons, IH.
    rewrite <-bind_app_Permutation. done.
Qed.

Lemma fmap_bind {A B C} (f : B → C) (g : A → list B) (l : list A) :
  f <$> (l ≫= g) = l ≫= (λ x, f <$> g x).
Proof.
  induction l as [|x l IH]; [done|]. by rewrite !bind_cons, fmap_app, IH.
Qed.

Lemma bind_pointwise_Permutation {A B} (g h : A → list B) (l : list A) :
  (∀ x, g x ≡ₚ h x) → l ≫= g ≡ₚ l ≫= h.
Proof.
  intros Hgh. induction l as [|x l IH]; [done|]. by rewrite !bind_cons, Hgh, IH.
Qed.

Lemma chain_pairs_bind T chain_u chain_v :
  chain_pairs T chain_u chain_v =
  (s ← chain_u; t ← chain_v; if decide (target_edge T s t) then [(s, t)] else []).
Proof.
  unfold chain_pairs. induction chain_u as [|s chain_u IH]; [done|].
  rewrite !bind_cons, IH. f_equal. clear.
  induction chain_v as [|t chain_v IH]; [done|].
  rewrite filter_cons, bind_cons, <-IH. by case_decide.
Qed.

Lemma target_edge_sym T s t : target_edge T s t ↔ target_edge T t s.
Proof. unfold target_edge. naive_solver. Qed.

(** The pairs of the chains taken in the other order are the same pairs,
    reversed. *)
Lemma chain_pairs_swap T chain_u chain_v :
  chain_pairs T chain_v chain_u ≡ₚ
  (λ st, (st.2, st.1)) <$> chain_pairs T chain_u chain_v.
Proof.
  rewrite !chain_pairs_bind, bind_comm_Permutation.
  rewrite fmap_bind. apply bind_pointwise_Permutation. intros s.
  rewrite fmap_bind. apply bind_pointwise_Permutation. intros t.
  destruct (decide (target_edge T s t)) as [Hst|Hst].
  - rewrite decide_True by (by apply target_edge_sym). done.
  - rewrite decide_False; [done|]. by rewrite target_edge_sym.
Qed.

(** X8. When [interactions] holds lists both for [(u, v)] and for
    [(v, u)], the second list is a permutation of the first with every
    pair reversed; the two lists have the same length. *)
Theorem interactions_reversed E S T I u v pairs pairs' :
  interactions E S T = Ok I →
  Dict.get (u, v) I = Some pairs → Dict.get (v, u) I = Some pairs' →
  pairs' ≡ₚ (λ st, (st.2, st.1)) <$> pairs ∧ len pairs' = len pairs.
Proof.
  intros HI Hp Hp'.
  pose proof (interactions_get _ _ _ _ _ _ _ HI Hp) as ->.
  pose proof (interactions_get _ _ _ _ _ _ _ HI Hp') as ->.
  pose proof (chain_pairs_swap T (Dict.get_default u [] E) (Dict.get_default v [] E))
    as Hswap.
  split; [done|]. unfold len. by rewrite Hswap, length_fmap.
Qed.

End interactions_facts.

Lemma interactions_pairs_witness :
  let E : Embedding.t := [(0, [10; 13]); (1, [11; 12])] in
  let T := [(10, 11); (12, 10); (12, 13)] in
  ∃ I pairs, Embedding.interactions E [(0, 1)] T = Ok I ∧
             Dict.get (0, 1) I = Some pairs ∧
             pairs = chain_pairs T [10; 13] [11; 12] ∧ NoDup pairs.
Proof.
  intros E T. eexists _, _. split; [reflexivity|]. split; [reflexivity|].
  destruct (interactions_pairs E [(0, 1)] T _ 0 1 _ eq_refl eq_refl)
    as [Heq Hnd].
  split; [exact Heq|]. apply Hnd; apply (bool_decide_unpack _); reflexivity.
Defined.

Lemma interactions_reversed_witness :
  let E : Embedding.t := [(0, [10; 13]); (1, [11; 12])] in
  let T := [(10, 11); (12, 10); (12, 13)] in
  ∃ I pairs pairs', Embedding.interactions E [(0, 1); (1, 0)] T = Ok I ∧
                    Dict.get (0, 1) I = Some pairs ∧
                    Dict.get (1, 0) I = Some pairs' ∧
                    len pairs' = len pairs.
Proof.
  intros E T. eexists _, _, _. split_and!; [reflexivity..|].
  apply (interactions_reversed E [(0, 1); (1, 0)] T _ 0 1 _ _
           eq_refl eq_refl eq_refl).
Defined.

(** ** The histograms of interactions and of connections *)

Section histograms_of_interactions.
Import Embedding.
Implicit Types (E : Embedding.t) (S : list (Var * Var)) (T : list (Qubit * Qubit)).
Implicit Types (I : Dict.t (Var * Var) (list (Qubit * Qubit))).

(** The keys of [interactions] are the source edges that are not
    self-loops, each once. *)
Lemma interactions_keys_Permutation E S T I :
  interactions E S T = Ok I →
  Dict.keys I ≡ₚ remove_dups (filter (λ e, e.1 ≠ e.2) S).
Proof.
  intros (Hnd & Hkeys & _)%interactions_Ok.
  apply NoDup_Permutation; [done|apply NoDup_remove_dups|].
  intros [u v]. rewrite Hkeys, elem_of_remove_dups, list_elem_of_filter. tauto.
Qed.

Lemma len_filter_Permutation {A} (P : A → Prop) `{∀ x, Decision (P x)}
    (l1 l2 : list A) :
  l1 ≡ₚ l2 → len (filter P l1) = len (filter P l2).
Proof. intros Hp. unfold len. by rewrite Hp. Qed.

Lemma len_filter_fmap {A B} (f : A → B) (P : B → Prop)
    `{∀ y, Decision (P y)} (l : list A) :
  len (filter P (f <$> l)) = len (filter (λ x, P (f x)) l).
Proof. unfold len. f_equal. apply length_filter_fmap. Qed.

Lemma len_filter_iff {A} (P Q : A → Prop)
    `{∀ x, Decision (P x), ∀ x, Decision (Q x)} (l : list A) :
  (∀ x, x ∈ l → P x ↔ Q x) → len (filter P l) = len (filter Q l).
Proof. intros HPQ. by rewrite (filter_iff_elem_of P Q l HPQ). Qed.

(** X9. When [interactions] returns, [interactions_histogram] returns
    the histogram in which the count of [n] is the number of distinct
    source edges, self-loops left out, whose list of interactions has
    length [n]; the counts add up to the number of these edges. When
    [interactions] raises, [interactions_histogram] raises the same. *)
Theorem interactions_histogram_spec E S T :
  match interactions E S T with
  | Ok _ =>
      ∃ hist, interactions_histogram E S T = Ok hist ∧
        (∀ n, Dict.get_default n 0 hist =
              len (filter (λ e, len (chain_pairs T (Dict.get_default e.1 [] E)
                                                   (Dict.get_default e.2 [] E)) = n)
                          (remove_dups (filter (λ e, e.1 ≠ e.2) S)))) ∧
        sum (Dict.values hist) = len (remove_dups (filter (λ e, e.1 ≠ e.2) S))
  | Raise e => interactions_histogram E S T = Raise e
  end.
Proof.
  unfold interactions_histogram.
  destruct (interactions E S T) as [I|e] eqn:HI; simpl; [|done].
  eexists. split; [done|].
  pose proof (interactions_keys_Permutation _ _ _ _ HI) as Hperm.
  pose proof HI as (Hnd & _ & _)%interactions_Ok.
  change (foldl _ Dict.empty ?ks) with (histogram ks). split.
  - intros n. rewrite histogram_get.
    rewrite <-(len_filter_Permutation _ _ _ Hperm).
    unfold Dict.values, Dict.keys.
    rewrite (len_filter_fmap len), (len_filter_fmap snd), (len_filter_fmap fst).
    apply len_filter_iff. intros [[u v] pairs] Hin. simpl.
    apply (Dict_elem_of_items (u, v) pairs I Hnd) in Hin.
    by rewrite (interactions_get _ _ _ _ _ _ _ HI Hin).
  - destruct (foldl_bump_keys (len <$> Dict.values I) Dict.empty) as (_ & _ & Hsum).
    unfold histogram. rewrite Hsum. unfold len, Dict.values.
    rewrite <-Hperm. unfold Dict.keys. rewrite !length_fmap.
    unfold sum. simpl. lia.
Qed.

End histograms_of_interactions.

Section connections_facts.
Import Embedding.
Implicit Types (E : Embedding.t) (S : list (Var * Var)) (T : list (Qubit * Qubit)).
Implicit Types (I : Dict.t (Var * Var) (list (Qubit * Qubit))).

Lemma sum_len_record (c : Dict.t Qubit (list (Var * Var))) occ :
  sum (len <$> Dict.values (record c occ)) = sum (len <$> Dict.values c) + 1.
Proof.
  destruct occ as [q e]. unfold record, Dict.get_default, Dict.values, sum, len.
  simpl. induction c as [|[q' es] c IH]; csimpl; [lia|].
  destruct (decide (q' = q)) as [->|Hne]; csimpl; lia.
Qed.

Lemma sum_len_record_foldl occs (c : Dict.t Qubit (list (Var * Var))) :
  sum (len <$> Dict.values (foldl record c occs)) =
  sum (len <$> Dict.values c) + len occs.
Proof.
  revert c. induction occs as [|occ occs IH]; intros c; simpl.
  - unfold len. simpl. lia.
  - rewrite IH, sum_len_record. unfold len. simpl. lia.
Qed.

Lemma len_incidences I :
  len (incidences I) = 2 * sum (len <$> Dict.values I).
Proof.
  unfold incidences, Dict.values, len, sum.
  induction I as [|[[u v] pairs] I IH]; [done|].
  rewrite bind_cons, length_app, Nat2Z.inj_add, IH. csimpl.
  assert (∀ l : list (Qubit * Qubit),
            Z.of_nat (length (l ≫= λ st, [(st.1, (u, v)); (st.2, (v, u))])) =
            2 * Z.of_nat (length l)) as Hl.
  { clear. induction l as [|st l IH]; [done|]. rewrite bind_cons. simpl in *. lia. }
  rewrite Hl. lia.
Qed.

Lemma incidences_elem_of I q a b :
  NoDup (Dict.keys I) →
  (q, (a, b)) ∈ incidences I ↔
  (∃ t, (q, t) ∈ Dict.get_default (a, b) [] I) ∨
  (∃ s, (s, q) ∈ Dict.get_default (b, a) [] I).
Proof.
  intros Hnd. unfold incidences. rewrite list_elem_of_bind. split.
  - intros ([[u v] pairs] & Hocc & Hitem).
    apply list_elem_of_bind in Hocc as ([s t] & Hocc & Hst). simpl in *.
    apply (Dict_elem_of_items (u, v) pairs I Hnd) in Hitem.
    apply elem_of_cons in Hocc as [[= -> -> ->]|Hocc].
    + left. exists t. unfold Dict.get_default. by rewrite Hitem.
    + apply list_elem_of_singleton in Hocc as [= -> -> ->].
      right. exists s. unfold Dict.get_default. by rewrite Hitem.
  - unfold Dict.get_default.
    intros [[t Hin]|[s Hin]].
    + destruct (Dict.get (a, b) I) as [pairs|] eqn:Hget;
        [|by apply elem_of_nil in Hin].
      exists ((a, b), pairs). split; [|by apply Dict_get_Some_elem_of].
      apply list_elem_of_bind. exists (q, t). split; [left|done].
    + destruct (Dict.get (b, a) I) as [pairs|] eqn:Hget;
        [|by apply elem_of_nil in Hin].
      exists ((b, a), pairs). split; [|by apply Dict_get_Some_elem_of].
      apply list_elem_of_bind. exists (s, q). split; [right; left|done].
Qed.

(** X10. When [interactions] returns, [connections] returns a dict in
    which the oriented logical edge [(a, b)] is listed for the qubit [q]
    exactly when [q] is the first qubit of an interaction of [(a, b)] or
    the second qubit of an interaction of [(b, a)]; no list is empty; and
    the lists hold two entries for every interaction. *)
Theorem connections_spec E S T I :
  interactions E S T = Ok I →
  ∃ conn, connections E S T = Ok conn ∧
    NoDup (Dict.keys conn) ∧
    (∀ q edges, Dict.get q conn = Some edges → edges ≠ []) ∧
    (∀ q a b, (a, b) ∈ Dict.get_default q [] conn ↔
              (∃ t, (q, t) ∈ Dict.get_default (a, b) [] I) ∨
              (∃ s, (s, q) ∈ Dict.get_default (b, a) [] I)) ∧
    sum (len <$> Dict.values conn) = 2 * sum (len <$> Dict.values I).
Proof.
  intros HI. unfold connections. rewrite HI. simpl. eexists. split; [done|].
  pose proof HI as (HndI & _ & _)%interactions_Ok.
  destruct (connections_of_spec I) as (Hnd & _ & Hitems). split_and!.
  - done.
  - intros q edges Hget. apply Dict_get_Some_elem_of in Hget.
    by apply Hitems in Hget as [_ ?].
  - intros q a b. rewrite connections_of_incidences, record_foldl_get.
    simpl. rewrite app_nil_r, <-incidences_elem_of by done.
    apply edges_through_elem_of.
  - rewrite connections_of_incidences, sum_len_record_foldl, len_incidences.
    unfold sum. simpl. lia.
Qed.

End connections_facts.

Lemma connections_spec_witness :
  let E : Embedding.t := [(0, [10]); (1, [11; 12])] in
  ∃ conn, Embedding.connections E [(0, 1)] [(10, 11); (10, 12)] = Ok conn ∧
          sum (len <$> Dict.values conn) = 4.
Proof.
  intros E.
  destruct (connections_spec E [(0, 1)] [(10, 11); (10, 12)] _ eq_refl)
    as (conn & Hconn & _ & _ & _ & Hsum).
  exists conn. split; [exact Hconn|]. rewrite Hsum. reflexivity.
Defined.

(** ** The connectivity ratios *)

Section connectivity_facts.
Import Embedding.
Implicit Types (E : Embedding.t) (S : list (Var * Var)) (T : list (Qubit * Qubit)).
Implicit Types (I : Dict.t (Var * Var) (list (Qubit * Qubit))).

Lemma NoDup_filter_ne_length {A} `{EqDecision A} (y0 : A) (ys : list A) :
  NoDup ys → (length ys ≤ S (length (filter (λ y, y ≠ y0) ys)))%nat.
Proof.
  induction 1 as [|y ys Hy Hnd IH]; [simpl; lia|].
  rewrite filter_cons. destruct (decide (y ≠ y0)) as [Hne|Heq]; simpl; [lia|].
  assert (y = y0) as -> by (by destruct (decide (y = y0))).
  assert (filter (λ y, y ≠ y0) ys = ys) as ->; [|lia].
  clear IH Hnd. induction ys as [|z ys IH]; [done|].
  rewrite filter_cons, decide_True.
  - f_equal. apply IH. intros Hin. apply Hy. by right.
  - intros ->. apply Hy. left.
Qed.

(** Distinct neighbours of a vertex need distinct edges. *)
Lemma degree_ge_neighbours S a (ys : list Var) :
  NoDup ys → (∀ y, y ∈ ys → y ≠ a ∧ ((a, y) ∈ S ∨ (y, a) ∈ S)) →
  len ys ≤ degree S a.
Proof.
  revert ys. induction S as [|[u v] S IH]; intros ys Hnd Hys.
  - destruct ys as [|y ys];
      [pose proof (degree_nonneg [] a); unfold len; simpl; lia|].
    destruct (Hys y) as [_ [?%elem_of_nil|?%elem_of_nil]]; [left|done..].
  - rewrite degree_cons. case_decide as Hinc.
    + set (y0 := if decide (u = a) then v else u).
      pose proof (NoDup_filter_ne_length y0 ys Hnd) as Hlen.
      assert (len (filter (λ y, y ≠ y0) ys) ≤ degree S a) as Hle.
      { apply IH; [by apply NoDup_filter|].
        intros y [Hne Hy]%list_elem_of_filter.
        destruct (Hys y Hy) as [Hya Hedge]. split; [done|].
        destruct Hedge as [[[= -> ->]|?]%elem_of_cons|[[= -> ->]|?]%elem_of_cons];
          [|by left| |by right].
        - exfalso. apply Hne. unfold y0. by rewrite decide_True.
        - exfalso. apply Hne. unfold y0. rewrite decide_False; [done|].
          destruct Hinc as [? _]. done. }
      unfold len in *. lia.
    + rewrite Z.add_0_r. apply IH; [done|].
      intros y Hy. destruct (Hys y Hy) as [Hya Hedge]. split; [done|].
      destruct Hedge as [[[= -> ->]|?]%elem_of_cons|[[= -> ->]|?]%elem_of_cons];
        [|by left| |by right]; exfalso; apply Hinc; split; auto.
Qed.

(** The edges recorded for a qubit start in a variable whose chain holds
    the qubit, and are source edges in one direction or the other. *)
Lemma edges_through_source E S T I q x y :
  interactions E S T = Ok I → (x, y) ∈ edges_through I q →
  q ∈ Dict.get_default x [] E ∧ x ≠ y ∧ ((x, y) ∈ S ∨ (y, x) ∈ S).
Proof.
  intros (Hnd & Hkeys & Hget)%interactions_Ok Hin.
  apply edges_through_elem_of, incidences_elem_of in Hin; [|done].
  unfold Dict.get_default in Hin.
  destruct Hin as [[t Hin]|[s Hin]].
  - destruct (Dict.get (x, y) I) as [pairs|] eqn:Hp; [|by apply elem_of_nil in Hin].
    apply (Hget x y pairs Hp) in Hin as (? & _ & _).
    assert ((x, y) ∈ S ∧ x ≠ y) as [? ?]
      by (apply Hkeys, Dict_get_is_Some; eauto).
    auto.
  - destruct (Dict.get (y, x) I) as [pairs|] eqn:Hp; [|by apply elem_of_nil in Hin].
    apply (Hget y x pairs Hp) in Hin as (_ & ? & _).
    assert ((y, x) ∈ S ∧ y ≠ x) as [? ?]
      by (apply Hkeys, Dict_get_is_Some; eauto).
    auto.
Qed.

Lemma distinct_edges_le_degree E S T I q u v rest :
  interactions E S T = Ok I → chains_disjoint E →
  edges_through I q = (u, v) :: rest →
  len (remove_dups (edges_through I q)) ≤ degree S u.
Proof.
  intros HI Hdis Hedges.
  assert (q ∈ Dict.get_default u [] E) as Hq.
  { eapply (edges_through_source E S T I q u v HI). rewrite Hedges. left. }
  set (es := remove_dups (edges_through I q)).
  assert (∀ x y, (x, y) ∈ es → x = u ∧ y ≠ u ∧ ((u, y) ∈ S ∨ (y, u) ∈ S)) as Hes.
  { intros x y Hin. unfold es in Hin. rewrite elem_of_remove_dups in Hin.
    apply (edges_through_source E S T I q x y HI) in Hin as (Hqx & Hxy & Hedge).
    assert (x = u) as -> by (by apply (Hdis x u q)). auto. }
  assert (len es = len es.*2) as -> by (unfold len; by rewrite length_fmap).
  apply degree_ge_neighbours.
  - apply NoDup_fmap_2_strong; [|apply NoDup_remove_dups].
    intros [x y] [x' y'] Hin Hin' Heq. simpl in Heq. subst y'.
    apply Hes in Hin as [-> _]. apply Hes in Hin' as [-> _]. done.
  - intros y ([x y'] & -> & Hin)%list_elem_of_fmap. simpl.
    apply Hes in Hin as (_ & ? & ?). done.
Qed.

Lemma connectivity_histogram_eq E S T I :
  interactions E S T = Ok I →
  connectivity_histogram E S T =
  Ok (histogram ((λ item, default (inject_Z 0) (qubit_connectivity S I item.1))
                   <$> Dict.items (connections_of I))).
Proof.
  intros HI. unfold connectivity_histogram, connections. rewrite HI. simpl.
  apply interactions_Ok in HI as (_ & Hkeys & _).
  unfold histogram. rewrite <-foldl_bump_fmap.
  apply foldM_total. intros hist [t edges] Hin. cbn [fst].
  destruct (connectivity_Ok S I t edges) as (u & v & rest & _ & _ & _ & Hc & Hq);
    [intros ??; apply Hkeys|done|].
  rewrite Hc, Hq. done.
Qed.

Lemma len_remove_dups_pos {A} `{EqDecision A} (x : A) (l : list A) :
  1 ≤ len (remove_dups (x :: l)).
Proof.
  assert (x ∈ remove_dups (x :: l)) as Hin by (apply elem_of_remove_dups; left).
  destruct (remove_dups (x :: l)); [by apply elem_of_nil in Hin|].
  unfold len. cbn [length]. lia.
Qed.

Lemma inject_Z_pos (d : Z) : 1 ≤ d → (0 < inject_Z d)%Q.
Proof. intros Hd. change 0%Q with (inject_Z 0). rewrite <-Zlt_Qlt. lia. Qed.

Lemma Qred_div_pos (n d : Z) :
  1 ≤ n → 1 ≤ d → (0 < Qred (inject_Z n / inject_Z d))%Q.
Proof.
  intros Hn Hd. rewrite Qred_correct. apply Qlt_shift_div_l.
  - by apply inject_Z_pos.
  - rewrite Qmult_0_l. by apply inject_Z_pos.
Qed.

Lemma Qred_div_le_1 (n d : Z) :
  n ≤ d → 1 ≤ d → (Qred (inject_Z n / inject_Z d) <= 1)%Q.
Proof.
  intros Hn Hd. rewrite Qred_correct. apply Qle_shift_div_r.
  - by apply inject_Z_pos.
  - rewrite Qmult_1_l, <-Zle_Qle. done.
Qed.

(** X11. When [interactions] returns, the counts of
    [connectivity_histogram] add up to the number of physical qubits that
    occur in an interaction, and every ratio in it is positive; when no
    qubit lies in the chains of two variables, no ratio exceeds 1. *)
Theorem connectivity_histogram_ratios E S T I :
  interactions E S T = Ok I →
  ∃ hist, connectivity_histogram E S T = Ok hist ∧
    NoDup (Dict.keys hist) ∧
    sum (Dict.values hist) = len (touched I) ∧
    ∀ r, r ∈ Dict.keys hist →
         (0 < r)%Q ∧ (chains_disjoint E → (r <= 1)%Q).
Proof.
  intros HI. rewrite (connectivity_histogram_eq E S T I HI).
  eexists. split; [done|].
  set (ks := _ <$> Dict.items (connections_of I)).
  destruct (foldl_bump_keys ks Dict.empty) as (_ & Hkeys & Hsum).
  destruct (connections_of_spec I) as (Hnd & Hmem & _).
  pose proof HI as (_ & HkeysI & _)%interactions_Ok.
  split_and!.
  - apply histogram_NoDup.
  - unfold histogram. rewrite Hsum. unfold ks, len, Dict.items.
    rewrite length_fmap, <-(length_fmap fst).
    assert (Dict.keys (connections_of I) ≡ₚ touched I) as <-.
    { apply NoDup_Permutation; [done|apply NoDup_remove_dups|done]. }
    unfold sum, Dict.keys. simpl. lia.
  - intros r Hr. apply Hkeys in Hr as [?%elem_of_nil|Hr]; [done|].
    apply list_elem_of_fmap in Hr as ([q edges] & -> & Hin). cbn [fst].
    destruct (connections_of_spec I) as (_ & _ & Hitems).
    destruct (Hitems q edges Hin) as [Hedges Hne].
    destruct (connectivity_Ok S I q edges) as (u & v & rest & -> & _ & Hdeg & _ & Hq);
      [intros ??; apply HkeysI|done|].
    rewrite Hq. cbn [default]. split.
    + apply Qred_div_pos; [apply len_remove_dups_pos|done].
    + intros Hdis. apply Qred_div_le_1; [|done]. rewrite Hedges.
      apply (distinct_edges_le_degree E S T I q u v rest HI Hdis). done.
Qed.

End connectivity_facts.

Lemma connectivity_histogram_ratios_witness :
  let E : Embedding.t := [(0, [10]); (1, [11; 12])] in
  ∃ hist, Embedding.connectivity_histogram E [(0, 1)] [(10, 11); (10, 12)] = Ok hist ∧
          sum (Dict.values hist) = 3.
Proof.
  intros E.
  destruct (connectivity_histogram_ratios E [(0, 1)] [(10, 11); (10, 12)] _ eq_refl)
    as (hist & Hhist & _ & Hsum & _).
  exists hist. split; [exact Hhist|]. rewrite Hsum. reflexivity.
Defined.

(** ** Tiling: neighbours *)

Section neighbours.
Import DWaveNetworkXTiling.

(** The body of the loop of [get_tile_neighbors]. *)
Lemma neighbour_loop (tile : list Z) (ids : list (nat * Z)) (acc : list (list Z)) :
  let step := λ (neighbors : list (list Z)) '(i, d),
    set_add (take i tile ++ [d + 1] ++ drop (i + 1) tile)
            (set_add (take i tile ++ [d - 1] ++ drop (i + 1) tile) neighbors) in
  (NoDup acc → NoDup (foldl step acc ids)) ∧
  (length (foldl step acc ids) ≤ length acc + 2 * length ids)%nat ∧
  ∀ n, n ∈ foldl step acc ids ↔
       n ∈ acc ∨ ∃ i d, (i, d) ∈ ids ∧
                        (n = take i tile ++ [d - 1] ++ drop (i + 1) tile ∨
                         n = take i tile ++ [d + 1] ++ drop (i + 1) tile).
Proof.
  intros step. revert acc. induction ids as [|[i d] ids IH]; intros acc.
  - simpl. split_and!; [done|lia|]. intros n. split; [by left|].
    intros [?|(i & d & ?%elem_of_nil & _)]; done.
  - cbn [foldl]. destruct (IH (step acc (i, d))) as (IH1 & IH2 & IH3).
    split_and!.
    + intros Hnd. apply IH1. unfold step. by do 2 apply set_add_NoDup.
    + etrans; [exact IH2|]. unfold step, set_add.
      repeat case_decide; rewrite ?length_app; simpl; lia.
    + intros n. rewrite IH3. unfold step. rewrite !set_add_elem_of.
      setoid_rewrite elem_of_cons. split.
      * intros [[->|[->|?]]|(i' & d' & ? & ?)]; [| |by left|].
        -- right. exists i, d. auto.
        -- right. exists i, d. auto.
        -- right. exists i', d'. auto.
      * intros [?|(i' & d' & [Heq|?] & Hn)]; [by left; do 2 right| |eauto 10].
        injection Heq as -> ->. destruct Hn as [-> | ->]; auto.
Qed.

Lemma neighbor_candidates_spec (tile : list Z) :
  NoDup (neighbor_candidates tile) ∧
  (length (neighbor_candidates tile) ≤ 2 * length tile)%nat ∧
  ∀ n, n ∈ neighbor_candidates tile ↔
       ∃ i d, tile !! i = Some d ∧
              (n = <[i:=d - 1]> tile ∨ n = <[i:=d + 1]> tile).
Proof.
  unfold neighbor_candidates.
  destruct (neighbour_loop tile (imap (λ i d, (i, d)) tile) []) as (H1 & H2 & H3).
  split_and!.
  - apply H1. constructor.
  - etrans; [exact H2|]. rewrite length_imap. simpl. lia.
  - intros n. rewrite H3. split.
    + intros [?%elem_of_nil|(i & d & Hin & Hn)]; [done|].
      apply elem_of_lookup_imap in Hin as (i' & d' & [= -> ->] & Hi).
      exists i', d'. split; [done|].
      rewrite !insert_take_drop by (by eapply lookup_lt_Some).
      replace (S i') with (i' + 1)%nat by lia. done.
    + intros (i & d & Hi & Hn). right. exists i, d. split.
      * apply elem_of_lookup_imap. eauto.
      * rewrite !insert_take_drop in Hn by (by eapply lookup_lt_Some).
        replace (S i) with (i + 1)%nat in Hn by lia. done.
Qed.

(** X12. [get_tile_neighbors] returns, each once, the keys of the tiling
    that differ from [tile] in exactly one component, by 1 or by -1: at
    most twice as many as [tile] has components, and never [tile] itself.
    Every component is varied, the first (the layer) too. *)
Theorem get_tile_neighbors_spec (T : t) (tile : list Z) :
  NoDup (get_tile_neighbors T tile) ∧
  (length (get_tile_neighbors T tile) ≤ 2 * length tile)%nat ∧
  tile ∉ get_tile_neighbors T tile ∧
  ∀ n, n ∈ get_tile_neighbors T tile ↔
       n ∈ Dict.keys (tiles T) ∧
       ∃ i d, tile !! i = Some d ∧
              (n = <[i:=d - 1]> tile ∨ n = <[i:=d + 1]> tile).
Proof.
  unfold get_tile_neighbors.
  destruct (neighbor_candidates_spec tile) as (Hnd & Hlen & Hmem).
  assert (∀ n, n ∈ filter (λ tile0, Dict.mem tile0 (tiles T)) (neighbor_candidates tile) ↔
               n ∈ Dict.keys (tiles T) ∧
               ∃ i d, tile !! i = Some d ∧
                      (n = <[i:=d - 1]> tile ∨ n = <[i:=d + 1]> tile)) as Hall.
  { intros n. rewrite list_elem_of_filter, Hmem, Is_true_true, Dict_mem_keys. done. }
  split_and!.
  - by apply NoDup_filter.
  - etrans; [apply length_filter|done].
  - intros (_ & i & d & Hi & Hn)%Hall.
    assert (tile !! i = Some (d - 1) ∨ tile !! i = Some (d + 1)) as Hi'.
    { destruct Hn as [Hn|Hn]; [left|right]; rewrite Hn at 1;
        apply list_lookup_insert_eq; by eapply lookup_lt_Some. }
    destruct Hi' as [Hi'|Hi']; rewrite Hi in Hi'; injection Hi'; lia.
  - done.
Qed.

End neighbours.

(** ** Tiling: the tiles of a constructed tiling *)

Lemma sum_values_set {K V} `{EqDecision K} (f : V → Z) (k : K) (v : V)
    (d : Dict.t K V) :
  sum (f <$> Dict.values (Dict.set k v d)) =
  sum (f <$> Dict.values d) - default 0 (f <$> Dict.get k d) + f v.
Proof.
  unfold Dict.values, sum. induction d as [|[k' v'] d IH]; csimpl; [lia|].
  destruct (decide (k' = k)) as [->|Hne]; csimpl; lia.
Qed.

Lemma around_elem_of (t i j : Z) (c : list Z) :
  around t i j c ↔
  c ∈ [ [t; i - 1; j]; [t; i + 1; j]; [t; i; j - 1]; [t; i; j + 1];
        [t; i - 1; j - 1]; [t; i - 1; j + 1]; [t; i + 1; j + 1];
        [t; i + 1; j - 1] ].
Proof.
  unfold around. rewrite !elem_of_cons, elem_of_nil. split.
  - intros (di & dj & Hdi & Hdj & Hne & ->).
    assert (di = -1 ∨ di = 0 ∨ di = 1) as [-> | [-> | ->]] by lia;
      assert (dj = -1 ∨ dj = 0 ∨ dj = 1) as [-> | [-> | ->]] by lia;
      rewrite ?Z.add_0_r; try done; auto 10.
  - intros Hc. decompose [or] Hc; subst; try done.
    + exists (-1), 0. rewrite Z.add_0_r. split_and!; (done || lia).
    + exists 1, 0. rewrite Z.add_0_r. split_and!; (done || lia).
    + exists 0, (-1). rewrite Z.add_0_r. split_and!; (done || lia).
    + exists 0, 1. rewrite Z.add_0_r. split_and!; (done || lia).
    + exists (-1), (-1). split_and!; (done || lia).
    + exists (-1), 1. split_and!; (done || lia).
    + exists 1, 1. split_and!; (done || lia).
    + exists 1, (-1). split_and!; (done || lia).
Qed.

Lemma Tile_init_3 (t i j : Z) shape qubits :
  ∃ T, Tile.__init__ [t; i; j] shape qubits = Ok T ∧
       Tile.index T = [t; i; j] ∧ Tile.qubits T = qubits ∧ Tile.nodes T = [] ∧
       ∀ c, c ∈ Tile.neighbors T ↔ around t i j c.
Proof.
  eexists. split; [done|]. split_and!; [done..|].
  intros c. by rewrite around_elem_of.
Qed.

Section tiles_of_facts.
Import DWaveNetworkXTiling.

Lemma tiles_of_step self q self' (tile_of : label → result (list Z)) seen :
  (∀ x, get_tile self x = tile_of x) →
  tiles_of tile_of (tiles self) seen →
  add_qubit self q = Ok self' →
  tiles_of tile_of (tiles self') (seen ++ [q]) ∧
  (∀ x, get_tile self' x = tile_of x).
Proof.
  intros Hsame (Hnd & Hsum & Hinv). unfold add_qubit.
  destruct (get_tile self q) as [k0|] eqn:Hk0; simpl; [|done].
  pose proof Hk0 as (f & t & i & j & u & k & _ & _ & ->)%get_tile_Ok.
  rewrite Hsame in Hk0.
  assert (∀ key, filter (λ q0, tile_of q0 = Ok key) (seen ++ [q]) =
                 filter (λ q0, tile_of q0 = Ok key) seen ++
                 (if decide ([t; i; j] = key) then [q] else [])) as Hfilter.
  { intros key. rewrite filter_app, filter_cons, filter_nil, Hk0.
    destruct (decide ([t; i; j] = key)) as [->|Hne].
    - by rewrite decide_True.
    - rewrite decide_False; [done|]. by intros [= ?]. }
  pose proof (Hinv [t; i; j]) as Hold.
  destruct (Dict.get [t; i; j] (tiles self)) as [T0|] eqn:Hget.
  - intros [= <-]. simpl. split; [|done]. split_and!.
    + by apply Dict_NoDup_keys_set.
    + rewrite sum_values_set, Hget, Hsum. simpl.
      unfold Tile.supply, len. simpl. rewrite !length_app. simpl. lia.
    + intros key. rewrite Dict_get_set, Hfilter.
      destruct (decide ([t; i; j] = key)) as [<-|Hne].
      * destruct Hold as (Hidx & Hq & Hne & Hnodes & Hnb). simpl.
        split_and!; [done|by rewrite Hq| |done|done].
        intros ?%app_eq_nil. naive_solver.
      * specialize (Hinv key). rewrite app_nil_r. done.
  - destruct (Tile_init_3 t i j (shape self) [q]) as (Tn & -> & Hidx & Hq & Hnodes & Hnb).
    simpl. intros [= <-]. simpl. split; [|done]. split_and!.
    + by apply Dict_NoDup_keys_set.
    + rewrite sum_values_set, Hget, Hsum. simpl.
      unfold Tile.supply, len. rewrite Hq, length_app. simpl. lia.
    + intros key. rewrite Dict_get_set, Hfilter.
      destruct (decide ([t; i; j] = key)) as [<-|Hne].
      * rewrite Hold, Hq. split_and!; [done..|]. by exists t, i, j.
      * specialize (Hinv key). rewrite app_nil_r. done.
Qed.

Lemma tiles_of_loop qs self T (tile_of : label → result (list Z)) seen :
  (∀ x, get_tile self x = tile_of x) →
  tiles_of tile_of (tiles self) seen →
  foldM add_qubit self qs = Ok T →
  tiles_of tile_of (tiles T) (seen ++ qs) ∧ (∀ x, get_tile T x = tile_of x).
Proof.
  revert self seen. induction qs as [|q qs IH]; intros self seen Hsame Hinv; simpl.
  - intros [= <-]. by rewrite app_nil_r.
  - destruct (add_qubit self q) as [self1|] eqn:Hadd; simpl; [|done].
    destruct (tiles_of_step self q self1 tile_of seen Hsame Hinv Hadd)
      as [Hinv1 Hsame1].
    intros Hrest. rewrite (cons_middle q seen qs), (assoc_L (++)).
    by apply (IH self1).
Qed.

End tiles_of_facts.

Section tiling_facts.
Import DWaveNetworkXTiling.
Variable from_graph_dict : graph_dict → Converter.

(** The tiles of a constructed tiling. *)
Lemma init_tiles_of Tg T :
  __init__ from_graph_dict Tg = Ok T →
  tiles_of (get_tile T) (tiles T) (nx.nodes Tg).
Proof.
  unfold __init__.
  destruct (init_attributes from_graph_dict Tg) as [self|] eqn:Hattr; simpl; [|done].
  apply init_attributes_Ok in Hattr as (Hq & Ht & _). rewrite Hq.
  intros Hloop.
  destruct (tiles_of_loop (nx.nodes Tg) self T (get_tile self) []) as [Hinv Hsame];
    [done| |done|].
  { rewrite Ht. split_and!; [constructor|done|]. intros key. done. }
  simpl in Hinv. destruct Hinv as (Hnd & Hsum & Hinv). split_and!; [done..|].
  intros key. specialize (Hinv key).
  destruct (Dict.get key (tiles T)) as [tile|].
  - destruct Hinv as (? & Hqs & ? & ? & ?). split_and!; [done| |done..].
    rewrite Hqs. apply list_filter_iff. intros x. by rewrite Hsame.
  - rewrite <-Hinv. apply list_filter_iff. intros x. by rewrite Hsame.
Qed.

(** X13. In a constructed tiling every tile is stored under its own
    coordinate and holds, in the order of the graph, exactly the qubits of
    the graph whose tile it is, at least one, and no logical variable;
    every qubit of the graph is in the tile that [get_tile] names; and the
    supplies of the tiles add up to the number of qubits. *)
Theorem tiling_partition Tg T :
  __init__ from_graph_dict Tg = Ok T →
  (∀ key tile, __getitem__ T key = Ok tile →
     Tile.index tile = key ∧
     Tile.qubits tile = filter (λ q, get_tile T q = Ok key) (nx.nodes Tg) ∧
     1 ≤ Tile.supply tile ∧ Tile.nodes tile = []) ∧
  (∀ q, q ∈ nx.nodes Tg →
     ∃ key tile, get_tile T q = Ok key ∧ __getitem__ T key = Ok tile ∧
                 q ∈ Tile.qubits tile) ∧
  sum (Tile.supply <$> Dict.values (tiles T)) = len (nx.nodes Tg).
Proof.
  intros Hinit. pose proof (init_tiles_of Tg T Hinit) as (Hnd & Hsum & Hinv).
  unfold __getitem__, Dict.lookup. split_and!.
  - intros key tile Hget. specialize (Hinv key).
    destruct (Dict.get key (tiles T)) as [tile'|]; simpl in Hget; [|done].
    injection Hget as ->. destruct Hinv as (? & ? & Hne & ? & _).
    split_and!; [done..| |done].
    unfold Tile.supply, len. destruct (Tile.qubits tile); [done|]. simpl. lia.
  - intros q Hq. apply init_Ok in Hinit as (HqT & Hget & _ & _).
    destruct (Hget q) as [key Hkey]; [by rewrite HqT|].
    specialize (Hinv key).
    assert (q ∈ filter (λ q0, get_tile T q0 = Ok key) (nx.nodes Tg)) as Hin
      by (by apply list_elem_of_filter).
    destruct (Dict.get key (tiles T)) as [tile|] eqn:Hg.
    + exists key, tile. destruct Hinv as (_ & Hqs & _).
      split_and!; [done|by rewrite Hg|by rewrite Hqs].
    + rewrite Hinv in Hin. by apply elem_of_nil in Hin.
  - done.
Qed.

End tiling_facts.

Lemma tiling_partition_witness :
  ∃ T tile, DWaveNetworkXTiling.__init__ unused_converter chimera_2_2_4 = Ok T ∧
            DWaveNetworkXTiling.__getitem__ T [0; 1; 0] = Ok tile ∧
            Tile.supply tile = 8 ∧
            sum (Tile.supply <$> Dict.values (DWaveNetworkXTiling.tiles T)) = 32.
Proof.
  eexists _, _. split; [vm_compute; reflexivity|]. split; [vm_compute; reflexivity|].
  match goal with
  | |- Tile.supply ?tile = _ ∧ sum (_ <$> Dict.values (DWaveNetworkXTiling.tiles ?T)) = _ =>
      destruct (tiling_partition unused_converter chimera_2_2_4 T) as (Htiles & _ & Hsum);
        [vm_compute; reflexivity|];
      destruct (Htiles [0; 1; 0] tile) as (_ & Hq & _ & _); [vm_compute; reflexivity|]
  end.
  split; [|rewrite Hsum; reflexivity].
  unfold Tile.supply. rewrite Hq. vm_compute. reflexivity.
Defined.

Section tiling_facts_2.
Import DWaveNetworkXTiling.
Variable from_graph_dict : graph_dict → Converter.

Lemma insert_3 (t i j x : Z) (n : nat) :
  (n < 3)%nat →
  <[n:=x]> [t; i; j] = [x; i; j] ∨ <[n:=x]> [t; i; j] = [t; x; j] ∨
  <[n:=x]> [t; i; j] = [t; i; x].
Proof. destruct n as [|[|[|n]]]; simpl; auto; lia. Qed.

(** X14. In a constructed tiling the coordinate of a tile has three
    components [(t, i, j)], and the [neighbors] of the tile are the eight
    coordinates [(t, i + di, j + dj)] around it in its layer, its own
    coordinate not among them. What [get_tile_neighbors] returns for the
    coordinate is one of the first four of these, or lies in the layer
    above or below: [(t - 1, i, j)] or [(t + 1, i, j)]. *)
Theorem tile_neighbors_spec Tg T key tile :
  __init__ from_graph_dict Tg = Ok T →
  __getitem__ T key = Ok tile →
  ∃ t i j, key = [t; i; j] ∧
    (∀ c, c ∈ Tile.neighbors tile ↔ around t i j c) ∧
    key ∉ Tile.neighbors tile ∧
    ∀ n, n ∈ get_tile_neighbors T key →
         n ∈ Tile.neighbors tile ∨ n = [t - 1; i; j] ∨ n = [t + 1; i; j].
Proof.
  intros Hinit Hget. pose proof (init_tiles_of _ Tg T Hinit) as (_ & _ & Hinv).
  unfold __getitem__, Dict.lookup in Hget. specialize (Hinv key).
  destruct (Dict.get key (tiles T)) as [tile'|]; simpl in Hget; [|done].
  injection Hget as ->. destruct Hinv as (_ & _ & _ & _ & t & i & j & -> & Hnb).
  exists t, i, j. split_and!; [done..| |].
  - intros (di & dj & ? & ? & Hne & [= ? ?])%Hnb. apply Hne. f_equal; lia.
  - intros n. unfold get_tile_neighbors. rewrite list_elem_of_filter.
    destruct (neighbor_candidates_spec [t; i; j]) as (_ & _ & Hmem).
    intros [_ (idx & d & Hidx & Hn)%Hmem].
    assert (idx < 3)%nat as Hlt by (by apply lookup_lt_Some in Hidx).
    destruct idx as [|[|[|idx]]]; simpl in Hidx; [| | |lia];
      injection Hidx as <-; simpl in Hn.
    + destruct Hn as [-> | ->]; auto.
    + left. apply Hnb. destruct Hn as [-> | ->].
      * exists (-1), 0. rewrite Z.add_0_r. split_and!; (done || lia).
      * exists 1, 0. rewrite Z.add_0_r. split_and!; (done || lia).
    + left. apply Hnb. destruct Hn as [-> | ->].
      * exists 0, (-1). rewrite Z.add_0_r. split_and!; (done || lia).
      * exists 0, 1. rewrite Z.add_0_r. split_and!; (done || lia).
Qed.

(** X15. With labels other than ['int'], ['coordinate'] and ['nice'],
    and the rest of the metadata in order, [__init__] sets neither
    [to_nice] nor [from_nice]: it raises [AttributeError] at the first
    qubit, and for a graph without qubits it returns a tiling without
    tiles, on which [get_tile] raises [AttributeError]. *)
Theorem unknown_labels Tg m n family labels :
  g_rows (nx.graph Tg) = Some m → g_columns (nx.graph Tg) = Some n →
  g_family (nx.graph Tg) = Some family →
  family = "chimera"%string ∨ family = "pegasus"%string →
  g_labels (nx.graph Tg) = Some labels →
  labels ≠ "int"%string → labels ≠ "coordinate"%string → labels ≠ "nice"%string →
  match nx.nodes Tg with
  | [] => ∃ T, __init__ from_graph_dict Tg = Ok T ∧ tiles T = Dict.empty ∧
               ∀ x, get_tile T x = Raise AttributeError
  | _ :: _ => __init__ from_graph_dict Tg = Raise AttributeError
  end.
Proof.
  intros Hm Hn Hf Hfam Hl H1 H2 H3.
  unfold __init__, init_attributes. rewrite Hm, Hn, Hf, Hl.
  cbn [of_option mbind result_bind].
  assert (∃ shape, shape_of family m n = Ok shape) as [shape ->].
  { unfold shape_of. destruct Hfam as [-> | ->]; [by eexists|].
    rewrite decide_False by done. by eexists. }
  cbn [mbind result_bind]. unfold resolve.
  rewrite !decide_False by done. cbn [mbind result_bind qubits].
  destruct (nx.nodes Tg) as [|q qs]; [|done].
  eexists. split; [done|]. done.
Qed.

(** X16. [__init__] raises [KeyError] when the metadata of the graph
    lacks the rows, the columns or the family, whatever the rest is, and
    when it lacks the labels while the family is one of the two known. *)
Theorem missing_metadata_raises Tg :
  g_rows (nx.graph Tg) = None ∨ g_columns (nx.graph Tg) = None ∨
  g_family (nx.graph Tg) = None ∨
  (g_labels (nx.graph Tg) = None ∧
   (g_family (nx.graph Tg) = Some "chimera"%string ∨
    g_family (nx.graph Tg) = Some "pegasus"%string)) →
  __init__ from_graph_dict Tg = Raise KeyError.
Proof.
  unfold __init__, init_attributes, shape_of.
  intros [Hr|[Hc|[Hf|[Hl [Hf|Hf]]]]].
  - by rewrite Hr.
  - rewrite Hc. by destruct (g_rows _).
  - rewrite Hf. by destruct (g_rows _), (g_columns _).
  - rewrite Hl, Hf. by destruct (g_rows _), (g_columns _).
  - rewrite Hl, Hf. by destruct (g_rows _), (g_columns _).
Qed.

Lemma add_qubit_Raise self q f e :
  to_nice self = Some f → unpack5 (f q) = Raise e → add_qubit self q = Raise e.
Proof.
  intros Hto Hun. unfold add_qubit, get_tile, attr. rewrite Hto. simpl.
  by rewrite Hun.
Qed.

Lemma add_qubits_Raise good self q rest f e :
  to_nice self = Some f →
  (∀ x, x ∈ good → ∃ t i j u k, f x = LTuple [t; i; j; u; k]) →
  unpack5 (f q) = Raise e →
  foldM add_qubit self (good ++ q :: rest) = Raise e.
Proof.
  revert self. induction good as [|x good IH]; intros self Hto Hgood Hun.
  - simpl. by rewrite (add_qubit_Raise self q f e).
  - simpl. destruct (Hgood x) as (t & i & j & u & k & Hx); [left|].
    destruct (add_qubit_total self x f t i j u k Hto Hx) as [self1 Hadd].
    rewrite Hadd. simpl. apply IH; [|by intros y Hy; apply Hgood; right|done].
    apply add_qubit_Ok in Hadd as (_ & _ & _ & ->). done.
Qed.

(** X17. When the nice coordinate of a qubit cannot be unpacked into
    five components, and those of the qubits before it can, [__init__]
    raises what the unpacking raises: [TypeError] for an int, [ValueError]
    for a tuple of another length. *)
Theorem bad_coordinate_raises Tg m n family labels f g good q rest :
  g_rows (nx.graph Tg) = Some m → g_columns (nx.graph Tg) = Some n →
  g_family (nx.graph Tg) = Some family →
  family = "chimera"%string ∨ family = "pegasus"%string →
  g_labels (nx.graph Tg) = Some labels →
  resolve (from_graph_dict (nx.graph Tg)) labels = (Some f, Some g) →
  nx.nodes Tg = good ++ q :: rest →
  (∀ x, x ∈ good → ∃ t i j u k, f x = LTuple [t; i; j; u; k]) →
  (∀ t i j u k, f q ≠ LTuple [t; i; j; u; k]) →
  __init__ from_graph_dict Tg =
  Raise (match f q with LInt _ => TypeError | LTuple _ => ValueError end).
Proof.
  intros Hm Hn Hf Hfam Hl Hres Hnodes Hgood Hbad.
  unfold __init__, init_attributes. rewrite Hm, Hn, Hf, Hl.
  cbn [of_option mbind result_bind].
  assert (∃ shape, shape_of family m n = Ok shape) as [shape ->].
  { unfold shape_of. destruct Hfam as [-> | ->]; [by eexists|].
    rewrite decide_False by done. by eexists. }
  cbn [mbind result_bind]. rewrite Hres. cbn [mbind result_bind qubits].
  rewrite Hnodes. apply (add_qubits_Raise good _ q rest f); [done|done|].
  destruct (f q) as [z|[|t [|i [|j [|u [|k [|? ?]]]]]]]; simpl; try done.
  by destruct (Hbad t i j u k).
Qed.

End tiling_facts_2.

Lemma tile_neighbors_spec_witness :
  ∃ T tile, DWaveNetworkXTiling.__init__ unused_converter chimera_2_2_4 = Ok T ∧
            DWaveNetworkXTiling.__getitem__ T [0; 0; 0] = Ok tile ∧
            [0; 0; 0] ∉ Tile.neighbors tile.
Proof.
  edestruct (tile_neighbors_spec unused_converter chimera_2_2_4) with (key := [0; 0; 0])
    as (t & i & j & _ & _ & Hself & _);
    [vm_compute; reflexivity|vm_compute; reflexivity|].
  eexists _, _. split; [vm_compute; reflexivity|]. split; [vm_compute; reflexivity|].
  exact Hself.
Defined.

Lemma unknown_labels_witness :
  DWaveNetworkXTiling.__init__ unused_converter
    {| nx.graph := {| g_rows := Some 2; g_columns := Some 2;
                      g_family := Some "chimera"%string;
                      g_labels := Some "linear"%string; g_tile := Some 4 |};
       nx.nodes := [LInt 0; LInt 1]; nx.edges := [] |}
  = Raise AttributeError.
Proof.
  match goal with
  | |- DWaveNetworkXTiling.__init__ _ ?Tg = _ =>
      exact (unknown_labels unused_converter Tg 2 2 "chimera" "linear"
               eq_refl eq_refl eq_refl (or_introl eq_refl) eq_refl
               ltac:(done) ltac:(done) ltac:(done))
  end.
Defined.

Lemma missing_metadata_raises_witness :
  DWaveNetworkXTiling.__init__ unused_converter
    {| nx.graph := {| g_rows := Some 2; g_columns := None;
                      g_family := Some "zephyr"%string;
                      g_labels := Some "nice"%string; g_tile := Some 4 |};
       nx.nodes := [LTuple [0; 0; 0; 0; 0]]; nx.edges := [] |}
  = Raise KeyError.
Proof. apply missing_metadata_raises. right. left. reflexivity. Defined.

Lemma bad_coordinate_raises_witness :
  DWaveNetworkXTiling.__init__ unused_converter
    {| nx.graph := {| g_rows := Some 1; g_columns := Some 1;
                      g_family := Some "chimera"%string;
                      g_labels := Some "nice"%string; g_tile := Some 1 |};
       nx.nodes := [LTuple [0; 0; 0; 0; 0]; LTuple [0; 0; 1; 0]; LInt 7];
       nx.edges := [] |}
  = Raise ValueError.
Proof.
  apply (bad_coordinate_raises unused_converter _ 1 1 "chimera" "nice"
           (λ x, x) (λ x, x) [LTuple [0; 0; 0; 0; 0]] (LTuple [0; 0; 1; 0]) [LInt 7]);
    try done; auto.
  intros x ->%list_elem_of_singleton. by exists 0, 0, 0, 0, 0.
Defined.

(** ** Tiling: reading and writing coordinates *)

Section coordinates.
Import DWaveNetworkXTiling.

Lemma pad_tile_3 (tile : list Z) :
  (length tile ≤ 3)%nat → ∃ a b c, pad_tile tile = [a; b; c].
Proof.
  unfold pad_tile, len. destruct tile as [|a [|b [|c [|d tile]]]]; simpl; [eauto..|lia].
Qed.

Lemma pad_tile_id (tile : list Z) : length tile = 3%nat → pad_tile tile = tile.
Proof. unfold pad_tile, len. intros ->. done. Qed.

Lemma pad_tile_2 (tile : list Z) : length tile = 2%nat → pad_tile tile = 0 :: tile.
Proof. unfold pad_tile, len. intros ->. done. Qed.

(** The four readers on a label whose nice coordinate is known. *)
Lemma readers_nice (T : t) f q a b c u k :
  to_nice T = Some f → f q = LTuple [a; b; c; u; k] →
  get_tile T q = Ok [a; b; c] ∧ get_shore T q = Ok u ∧ get_k T q = Ok k.
Proof.
  intros Hf Hq. unfold get_tile, get_shore, get_k, attr. rewrite Hf. simpl.
  by rewrite Hq.
Qed.

(** X18. [set_tile] moves a qubit to another tile and keeps its shore
    and its index: when [to_nice] undoes [from_nice] on the coordinate
    written, the result has the tile asked for, completed with zeros in
    front to three components, and the shore and the index of the qubit. *)
Theorem set_tile_spec (T : t) f g q tile t0 i j u k :
  to_nice T = Some f → from_nice T = Some g →
  f q = LTuple [t0; i; j; u; k] →
  (length tile ≤ 3)%nat →
  f (g (LTuple (pad_tile tile ++ [u; k]))) = LTuple (pad_tile tile ++ [u; k]) →
  ∃ q', set_tile T q tile = Ok q' ∧
        get_tile T q' = Ok (pad_tile tile) ∧
        get_shore T q' = Ok u ∧ get_k T q' = Ok k.
Proof.
  intros Hf Hg Hq Hlen Hinv.
  exists (g (LTuple (pad_tile tile ++ [u; k]))). split.
  - unfold set_tile, attr. rewrite Hf, Hg. simpl. rewrite Hq. simpl.
    unfold pad_tile. by rewrite <-(assoc_L (++)).
  - destruct (pad_tile_3 tile Hlen) as (a & b & c & Hpad).
    rewrite Hpad in Hinv |- *. by apply (readers_nice T f).
Qed.

(** X19. [set_shore] and [set_k] change the shore, or the index, and
    nothing else: when [to_nice] undoes [from_nice] on the coordinate
    written, the result has the value written and the other coordinates of
    the qubit; writing again gives what writing once to the qubit gives. *)
Theorem set_shore_set_k_spec (T : t) f g q t0 i j u k u' k' :
  to_nice T = Some f → from_nice T = Some g →
  f q = LTuple [t0; i; j; u; k] →
  f (g (LTuple [t0; i; j; u'; k])) = LTuple [t0; i; j; u'; k] →
  f (g (LTuple [t0; i; j; u; k'])) = LTuple [t0; i; j; u; k'] →
  (∃ q', set_shore T q u' = Ok q' ∧
         get_shore T q' = Ok u' ∧ get_tile T q' = get_tile T q ∧
         get_k T q' = get_k T q ∧
         ∀ u'', set_shore T q' u'' = set_shore T q u'') ∧
  (∃ q', set_k T q k' = Ok q' ∧
         get_k T q' = Ok k' ∧ get_tile T q' = get_tile T q ∧
         get_shore T q' = get_shore T q ∧
         ∀ k'', set_k T q' k'' = set_k T q k'').
Proof.
  intros Hf Hg Hq Hu Hk.
  destruct (readers_nice T f q t0 i j u k Hf Hq) as (Ht & Hs & Hi).
  split.
  - exists (g (LTuple [t0; i; j; u'; k])).
    destruct (readers_nice T f _ t0 i j u' k Hf Hu) as (Ht' & Hs' & Hi').
    rewrite Ht, Hi, Ht', Hs', Hi'. split_and!; try done.
    + unfold set_shore, attr. rewrite Hf, Hg. simpl. by rewrite Hq.
    + intros u''. unfold set_shore, attr. rewrite Hf, Hg. simpl. by rewrite Hq, Hu.
  - exists (g (LTuple [t0; i; j; u; k'])).
    destruct (readers_nice T f _ t0 i j u k' Hf Hk) as (Ht' & Hs' & Hi').
    rewrite Ht, Hs, Ht', Hs', Hi'. split_and!; try done.
    + unfold set_k, attr. rewrite Hf, Hg. simpl. by rewrite Hq.
    + intros k''. unfold set_k, attr. rewrite Hf, Hg. simpl. by rewrite Hq, Hk.
Qed.

End coordinates.

Lemma set_tile_spec_witness :
  ∃ T q', DWaveNetworkXTiling.__init__ unused_converter chimera_2_2_4 = Ok T ∧
          DWaveNetworkXTiling.set_tile T (LTuple [0; 0; 0; 1; 3]) [1; 1] = Ok q' ∧
          DWaveNetworkXTiling.get_tile T q' = Ok [0; 1; 1].
Proof.
  assert (∃ T, DWaveNetworkXTiling.__init__ unused_converter chimera_2_2_4 = Ok T ∧
               DWaveNetworkXTiling.to_nice T = Some (λ x, x) ∧
               DWaveNetworkXTiling.from_nice T = Some (λ x, x)) as (T & HT & Hf & Hg).
  { eexists. split; [vm_compute; reflexivity|]. split; reflexivity. }
  destruct (set_tile_spec T (λ x, x) (λ x, x) (LTuple [0; 0; 0; 1; 3]) [1; 1]
              0 0 0 1 3 Hf Hg) as (q' & Hset & Htile & _ & _);
    [reflexivity|simpl; lia|reflexivity|].
  exists T, q'. split; [exact HT|]. split; [exact Hset|exact Htile].
Defined.

Lemma set_shore_set_k_spec_witness :
  ∃ T q', DWaveNetworkXTiling.__init__ unused_converter chimera_2_2_4 = Ok T ∧
          DWaveNetworkXTiling.set_shore T (LTuple [0; 0; 0; 1; 3]) 0 = Ok q' ∧
          DWaveNetworkXTiling.get_shore T q' = Ok 0.
Proof.
  assert (∃ T, DWaveNetworkXTiling.__init__ unused_converter chimera_2_2_4 = Ok T ∧
               DWaveNetworkXTiling.to_nice T = Some (λ x, x) ∧
               DWaveNetworkXTiling.from_nice T = Some (λ x, x)) as (T & HT & Hf & Hg).
  { eexists. split; [vm_compute; reflexivity|]. split; reflexivity. }
  destruct (set_shore_set_k_spec T (λ x, x) (λ x, x) (LTuple [0; 0; 0; 1; 3])
              0 0 0 1 3 0 2 Hf Hg) as [(q' & Hset & Hshore & _) _];
    [reflexivity..|].
  exists T, q'. split; [exact HT|]. split; [exact Hset|exact Hshore].
Defined.

(** ** Tiling: deleting a tile *)

Section dict_remove_facts.
Context {K V : Type} `{EqDecision K}.
Implicit Types (k : K) (v : V) (d : list (K * V)).

Lemma Dict_filter_absent k d :
  k ∉ Dict.keys d → filter (λ kv, kv.1 ≠ k) d = d.
Proof.
  unfold Dict.keys. induction d as [|[k' v'] d IH]; [done|].
  rewrite fmap_cons, not_elem_of_cons. intros [Hne Hnotin].
  rewrite filter_cons. cbn [fst]. rewrite decide_True by done. by rewrite IH.
Qed.

Lemma Dict_remove_filter k d :
  NoDup (Dict.keys d) → Dict.remove k d = filter (λ kv, kv.1 ≠ k) d.
Proof.
  unfold Dict.keys. induction d as [|[k' v'] d IH]; [done|].
  rewrite fmap_cons, NoDup_cons. intros [Hnotin Hnd].
  rewrite filter_cons. cbn [fst Dict.remove]. destruct (decide (k' = k)) as [->|Hne].
  - rewrite decide_False by naive_solver. by rewrite Dict_filter_absent.
  - rewrite decide_True by done. by rewrite IH.
Qed.

Lemma Dict_get_filter_ne k k' d :
  Dict.get k' (filter (λ kv, kv.1 ≠ k) d) =
  if decide (k' = k) then None else Dict.get k' d.
Proof.
  induction d as [|[k0 v0] d IH].
  - simpl. by case_decide.
  - rewrite filter_cons. cbn [fst]. destruct (decide (k0 ≠ k)) as [Hne|Heq%dec_stable]; simpl.
    + destruct (decide (k0 = k')) as [->|Hne'].
      * by rewrite decide_False.
      * done.
    + subst k0. rewrite IH. destruct (decide (k' = k)) as [->|Hne']; [done|].
      by rewrite decide_False.
Qed.

Lemma Dict_keys_filter_ne k d :
  Dict.keys (filter (λ kv, kv.1 ≠ k) d) = filter (λ k', k' ≠ k) (Dict.keys d).
Proof.
  unfold Dict.keys. induction d as [|[k0 v0] d IH]; [done|].
  rewrite fmap_cons, !filter_cons. cbn [fst]. case_decide; [rewrite fmap_cons|]; by rewrite IH.
Qed.

End dict_remove_facts.

Section delete.
Import DWaveNetworkXTiling.

(** X20. [del tiling[key]] raises [KeyError], and nothing else, exactly
    when [key] is not a tile of the tiling. Otherwise it removes this one
    tile and keeps the others in their order: the tile can no longer be
    read or deleted, the other keys read as before, and
    [get_tile_neighbors] no longer returns [key]; but [get_tile] still
    maps the qubits to the coordinate deleted. *)
Theorem delitem_spec (T : t) (key : list Z) :
  NoDup (Dict.keys (tiles T)) →
  match __delitem__ T key with
  | Ok T' =>
      key ∈ Dict.keys (tiles T) ∧
      NoDup (Dict.keys (tiles T')) ∧
      items T' = filter (λ kv, kv.1 ≠ key) (items T) ∧
      __getitem__ T' key = Raise KeyError ∧
      __delitem__ T' key = Raise KeyError ∧
      (∀ key', key' ≠ key → __getitem__ T' key' = __getitem__ T key') ∧
      (∀ tile, get_tile_neighbors T' tile =
               filter (λ n, n ≠ key) (get_tile_neighbors T tile)) ∧
      (∀ x, get_tile T' x = get_tile T x)
  | Raise e => e = KeyError ∧ key ∉ Dict.keys (tiles T)
  end.
Proof.
  intros Hnd. unfold __delitem__, Dict.delete.
  destruct (Dict.mem key (tiles T)) eqn:Hmem; simpl.
  - apply Dict_mem_keys in Hmem.
    assert (∀ key', Dict.get key' (Dict.remove key (tiles T)) =
                    if decide (key' = key) then None else Dict.get key' (tiles T))
      as Hget.
    { intros key'. rewrite Dict_remove_filter by done. apply Dict_get_filter_ne. }
    split_and!.
    + done.
    + rewrite Dict_remove_filter, Dict_keys_filter_ne by done. by apply NoDup_filter.
    + unfold items, Dict.items. simpl. by apply Dict_remove_filter.
    + unfold __getitem__, Dict.lookup. simpl. rewrite Hget. by rewrite decide_True.
    + unfold Dict.mem. simpl. rewrite Hget, decide_True by done.
      rewrite bool_decide_eq_false_2; [done|]. by intros [? ?].
    + intros key' Hne. unfold __getitem__, Dict.lookup. simpl. rewrite Hget.
      by rewrite decide_False.
    + intros tile. unfold get_tile_neighbors. simpl.
      rewrite list_filter_filter. apply list_filter_iff. intros n.
      unfold Dict.mem. rewrite !bool_decide_spec, Hget.
      destruct (decide (n = key)) as [->|Hne]; [|naive_solver].
      split; [by intros [? ?]|naive_solver].
    + done.
  - split; [done|]. intros Hin%Dict_mem_keys. congruence.
Qed.

End delete.

Lemma delitem_spec_witness :
  ∃ T T', DWaveNetworkXTiling.__init__ unused_converter chimera_2_2_4 = Ok T ∧
          DWaveNetworkXTiling.__delitem__ T [0; 1; 0] = Ok T' ∧
          DWaveNetworkXTiling.__getitem__ T' [0; 1; 0] = Raise KeyError.
Proof.
  eexists _, _. split; [vm_compute; reflexivity|].
  match goal with
  | |- DWaveNetworkXTiling.__delitem__ ?T ?key = Ok ?T' ∧ _ =>
      assert (DWaveNetworkXTiling.__delitem__ T key = Ok T') as Hdel
        by (vm_compute; reflexivity);
      assert (NoDup (Dict.keys (DWaveNetworkXTiling.tiles T))) as Hnd
        by (apply (bool_decide_unpack _); vm_compute; exact I);
      pose proof (delitem_spec T key Hnd) as Hspec
  end.
  rewrite Hdel in Hspec. destruct Hspec as (_ & _ & _ & Hget & _).
  split; [exact Hdel|exact Hget].
Defined.

(** ** Tile: construction and links *)

Section tile_facts.

Lemma neighbors_NoDup (t i j : Z) :
  NoDup [ [t; i - 1; j]; [t; i + 1; j]; [t; i; j - 1]; [t; i; j + 1];
          [t; i - 1; j - 1]; [t; i - 1; j + 1]; [t; i + 1; j + 1];
          [t; i + 1; j - 1] ].
Proof.
  repeat (apply NoDup_cons; split;
          [rewrite ?elem_of_cons, elem_of_nil; intros Hin; decompose [or] Hin;
           try done;
           match goal with
           | Heq : _ :: _ = _ :: _ |- _ => injection Heq; intros; lia
           end|]).
  apply NoDup_nil_2.
Qed.

(** X21. [Tile(tile, shape, qubits)] raises [ValueError], and nothing
    else, exactly when [tile] has neither two nor three components, and
    never looks at [shape]. Otherwise the tile keeps [tile] and [qubits],
    has no logical variable (so its concentration is 0), and has eight
    different [neighbors], the coordinates around it in its layer; these
    have three components also when [tile] has two, the layer being 0, so
    that [tile] is never among them. *)
Theorem Tile_init_spec (tile shape : list Z) (qubits : list label) :
  match Tile.__init__ tile shape qubits with
  | Ok T =>
      (length tile = 2 ∨ length tile = 3)%nat ∧
      Tile.index T = tile ∧ Tile.qubits T = qubits ∧ Tile.nodes T = [] ∧
      Tile.concentration T = Ok (inject_Z 0) ∧
      NoDup (Tile.neighbors T) ∧ length (Tile.neighbors T) = 8%nat ∧
      tile ∉ Tile.neighbors T ∧
      (∀ shape', Tile.__init__ tile shape' qubits = Ok T) ∧
      ∃ t i j, pad_tile tile = [t; i; j] ∧
               ∀ c, c ∈ Tile.neighbors T ↔ around t i j c
  | Raise e => e = ValueError ∧ length tile ≠ 2%nat ∧ length tile ≠ 3%nat
  end.
Proof.
  assert (∀ t i j T,
            T = {| Tile.index := tile; Tile.qubits := qubits; Tile.nodes := [];
                   Tile.neighbors :=
                     [ [t; i - 1; j]; [t; i + 1; j]; [t; i; j - 1]; [t; i; j + 1];
                       [t; i - 1; j - 1]; [t; i - 1; j + 1]; [t; i + 1; j + 1];
                       [t; i + 1; j - 1] ] |} →
            pad_tile tile = [t; i; j] →
            Tile.index T = tile ∧ Tile.qubits T = qubits ∧ Tile.nodes T = [] ∧
            Tile.concentration T = Ok (inject_Z 0) ∧
            NoDup (Tile.neighbors T) ∧ length (Tile.neighbors T) = 8%nat ∧
            tile ∉ Tile.neighbors T ∧
            ∃ t i j, pad_tile tile = [t; i; j] ∧
                     ∀ c, c ∈ Tile.neighbors T ↔ around t i j c) as Hfresh.
  { intros t i j T -> Hpad. split_and!; try done.
    - unfold Tile.concentration, Tile.supply. cbn [Tile.nodes Tile.qubits].
      case_decide; [|done]. unfold true_div. rewrite decide_False by done.
      change (len []) with 0. by rewrite Qred_zero_div.
    - apply neighbors_NoDup.
    - cbn [Tile.neighbors]. rewrite <-around_elem_of.
      intros (di & dj & Hdi & Hdj & Hne & ->).
      unfold pad_tile, len in Hpad. simpl in Hpad.
      injection Hpad as Hi Hj. apply Hne. f_equal; lia.
    - exists t, i, j. split; [done|]. intros c. cbn [Tile.neighbors].
      by rewrite around_elem_of. }
  unfold Tile.__init__.
  destruct tile as [|a [|b [|c [|d tile]]]]; try (cbn; split_and!; done).
  - (* two components *)
    cbn. destruct (Hfresh 0 a b _ eq_refl eq_refl) as (? & ? & ? & ? & ? & ? & ? & ?).
    split_and!; auto.
  - (* three components *)
    cbn. destruct (Hfresh a b c _ eq_refl eq_refl) as (? & ? & ? & ? & ? & ? & ? & ?).
    split_and!; auto.
  - (* more *)
    case_decide as Hlen; [|cbn; split_and!; done].
    unfold len in Hlen. simpl in Hlen. lia.
Qed.

Lemma links_yield (edges : list (label * label)) (q p : label) e :
  e ∈ (if decide ((q, p) ∈ edges) then [(q, p)] else []) → e = (q, p) ∧ e ∈ edges.
Proof.
  case_decide; [|by intros ?%elem_of_nil].
  by intros ->%list_elem_of_singleton.
Qed.

Lemma links_elem_of (A B : Tile.t) (edges : list (label * label)) q p :
  (q, p) ∈ Tile.links A B edges ↔
  q ∈ Tile.qubits A ∧ p ∈ Tile.qubits B ∧ (q, p) ∈ edges.
Proof.
  unfold Tile.links. rewrite list_elem_of_bind. split.
  - intros (q' & Hin & Hq'). apply list_elem_of_bind in Hin as (p' & Hin & Hp').
    apply links_yield in Hin as [[= -> ->] He]. done.
  - intros (Hq & Hp & He). exists q. split; [|done].
    apply list_elem_of_bind. exists p. split; [|done].
    rewrite decide_True by done. by left.
Qed.

Lemma is_connected_true (A B : Tile.t) (edges : list (label * label)) :
  Tile.is_connected A B edges = true ↔
  ∃ q p, q ∈ Tile.qubits A ∧ p ∈ Tile.qubits B ∧ (q, p) ∈ edges.
Proof.
  unfold Tile.is_connected. split.
  - destruct (Tile.links A B edges) as [|[q p] l] eqn:Hl; [done|]. intros _.
    exists q, p. apply links_elem_of. rewrite Hl. by left.
  - intros (q & p & Hin%links_elem_of).
    destruct (Tile.links A B edges) as [|[q' p'] l]; [by apply elem_of_nil in Hin|done].
Qed.

(** X22. [links] yields the pairs [(q, p)] of the edge list that lead
    from a qubit [q] of the tile to a qubit [p] of the other tile, in this
    orientation only, and none twice when neither tile lists a qubit
    twice; [is_connected] holds exactly when there is such a pair. With
    edges listed in one orientation, [b.is_connected(a, edges)] is
    therefore [a.is_connected(b, ...)] on the reversed edges, and two
    tiles of which one has no qubit are not connected. *)
Theorem links_spec (A B : Tile.t) (edges : list (label * label)) :
  (∀ q p, (q, p) ∈ Tile.links A B edges ↔
          q ∈ Tile.qubits A ∧ p ∈ Tile.qubits B ∧ (q, p) ∈ edges) ∧
  (∀ e, e ∈ Tile.links A B edges → e ∈ edges) ∧
  (NoDup (Tile.qubits A) → NoDup (Tile.qubits B) → NoDup (Tile.links A B edges)) ∧
  (Tile.is_connected A B edges = true ↔
   ∃ q p, q ∈ Tile.qubits A ∧ p ∈ Tile.qubits B ∧ (q, p) ∈ edges) ∧
  Tile.is_connected B A edges = Tile.is_connected A B (prod_swap <$> edges) ∧
  (Tile.qubits A = [] ∨ Tile.qubits B = [] → Tile.is_connected A B edges = false).
Proof.
  split_and!.
  - apply links_elem_of.
  - intros [q p] Hin%links_elem_of. tauto.
  - intros HA HB. unfold Tile.links. apply NoDup_bind; [| |done].
    + intros q q' [q0 p0] _ _ (p & [Hin _]%links_yield & _)%list_elem_of_bind
        (p' & [Hin' _]%links_yield & _)%list_elem_of_bind.
      congruence.
    + intros q _. apply NoDup_bind; [| |done].
      * intros p p' [q0 p0] _ _ [Hin _]%links_yield [Hin' _]%links_yield.
        congruence.
      * intros p _. case_decide; [apply NoDup_singleton|apply NoDup_nil_2].
  - apply is_connected_true.
  - apply eq_true_iff_eq. rewrite !is_connected_true. split.
    + intros (q & p & Hq & Hp & He). exists p, q. split_and!; [done..|].
      apply list_elem_of_fmap. by exists (q, p).
    + intros (q & p & Hq & Hp & He). exists p, q. split_and!; [done..|].
      apply list_elem_of_fmap in He as ([q' p'] & [= -> ->] & He). done.
  - intros Hempty. apply not_true_is_false. rewrite is_connected_true.
    intros (q & p & Hq & Hp & _).
    destruct Hempty as [HA | HB]; [rewrite HA in Hq|rewrite HB in Hp];
      by eapply elem_of_nil.
Qed.

End tile_facts.

(** ** Tiling: the qubits of a tile coordinate *)

Section get_qubits_facts.
Import DWaveNetworkXTiling.

Lemma comprehension_fmap {A B} (f : A → result B) (g : A → B) (l : list A) :
  (∀ x, x ∈ l → f x = Ok (g x)) → comprehension f l = Ok (g <$> l).
Proof.
  induction l as [|x l IH]; intros Hf; [done|].
  cbn [comprehension]. rewrite Hf by left. cbn [mbind result_bind].
  rewrite IH; [done|]. intros y Hy. apply Hf. by right.
Qed.

Lemma comprehension_Raise {A B} (f : A → result B) (e : exn) (l : list A) :
  (∀ x, f x = Raise e) → l ≠ [] → comprehension f l = Raise e.
Proof. intros Hf. destruct l as [|x l]; [done|]. intros _. simpl. by rewrite Hf. Qed.

Lemma range_int_elem_of (n i : Z) : i ∈ range_int n ↔ 0 ≤ i < n.
Proof.
  unfold range_int. rewrite list_elem_of_fmap. setoid_rewrite elem_of_seq. split.
  - intros (j & -> & Hj). lia.
  - intros Hi. exists (Z.to_nat i). lia.
Qed.

Lemma range_int_NoDup (n : Z) : NoDup (range_int n).
Proof. unfold range_int. apply (NoDup_fmap_2 _), NoDup_seq. Qed.

Lemma range_int_len (n : Z) : len (range_int n) = Z.max 0 n.
Proof. unfold range_int, len. rewrite length_fmap, length_seq. lia. Qed.

Lemma pairs_elem_of (shores indices : list Z) (u i : Z) :
  (u, i) ∈ (u ← shores; k ← indices; [(u, k)]) ↔ u ∈ shores ∧ i ∈ indices.
Proof.
  rewrite list_elem_of_bind. setoid_rewrite list_elem_of_bind.
  setoid_rewrite list_elem_of_singleton. naive_solver.
Qed.

Lemma pairs_NoDup (shores indices : list Z) :
  NoDup shores → NoDup indices → NoDup (u ← shores; k ← indices; [(u, k)]).
Proof.
  intros Hs Hi. apply NoDup_bind; [| |done].
  - intros u u' [u0 i0] _ _ (? & [= -> ->]%list_elem_of_singleton & _)%list_elem_of_bind
      (? & [= -> ->]%list_elem_of_singleton & _)%list_elem_of_bind. done.
  - intros u _. apply NoDup_bind; [| |done].
    + intros i i' [u0 i0] _ _ [= -> ->]%list_elem_of_singleton
        [= ->]%list_elem_of_singleton. done.
    + intros i _. apply NoDup_singleton.
Qed.

Lemma pairs_len (shores indices : list Z) :
  len (u ← shores; k ← indices; [(u, k)]) = len shores * len indices.
Proof.
  unfold len. induction shores as [|u shores IH]; [done|].
  csimpl. rewrite length_app, Nat2Z.inj_add, IH.
  assert (length (k ← indices; [(u, k)]) = length indices) as ->.
  { clear. induction indices as [|i indices IH]; [done|]. csimpl. by rewrite IH. }
  lia.
Qed.

Lemma nice_tile_pad (tile : list Z) :
  (length tile = 2 ∨ length tile = 3)%nat →
  (if decide (len tile = 2) then [0] ++ tile else tile) = pad_tile tile.
Proof.
  unfold len. intros [Hlen | Hlen].
  - rewrite decide_True by lia. by rewrite pad_tile_2.
  - rewrite decide_False by lia. by rewrite pad_tile_id.
Qed.

(** What [get_qubits] yields when [from_nice] is set and the size of a
    shore is known, if needed. *)
Lemma get_qubits_Ok (T : t) g tile shore k :
  from_nice T = Some g →
  (k = None → is_Some (g_tile (graph T))) →
  ∃ pairs,
    get_qubits T tile shore k =
      Ok ((λ p, g (LTuple ((if decide (len tile = 2) then [0] ++ tile else tile)
                           ++ [p.1; p.2]))) <$> pairs) ∧
    NoDup pairs ∧
    ∀ u i, (u, i) ∈ pairs ↔
           asked_shore shore u ∧ asked_index (g_tile (graph T)) k i.
Proof.
  intros Hg Hsize. unfold get_qubits.
  set (shores := match shore with None => [0; 1] | Some shore => [shore] end).
  assert (NoDup shores ∧ ∀ u, u ∈ shores ↔ asked_shore shore u) as [Hnds Hs].
  { unfold shores, asked_shore. destruct shore as [s|].
    - split; [apply NoDup_singleton|]. intros u. by rewrite list_elem_of_singleton.
    - split; [|intros u; rewrite !elem_of_cons, elem_of_nil; tauto].
      apply NoDup_cons. split; [|apply NoDup_singleton].
      by intros [=]%list_elem_of_singleton. }
  assert (∃ indices,
            match k with
            | None => tile ← of_option KeyError (g_tile (graph T)); Ok (range_int tile)
            | Some k => Ok [k]
            end = Ok indices ∧
            NoDup indices ∧
            ∀ i, i ∈ indices ↔ asked_index (g_tile (graph T)) k i)
    as (indices & -> & Hndi & Hi).
  { unfold asked_index. destruct k as [k|].
    - exists [k]. split_and!; [done|apply NoDup_singleton|].
      intros i. by rewrite list_elem_of_singleton.
    - destruct Hsize as [n Hn]; [done|]. rewrite Hn. exists (range_int n).
      split_and!; [done|apply range_int_NoDup|].
      intros i. rewrite range_int_elem_of. naive_solver. }
  cbn [mbind result_bind].
  exists (u ← shores; k ← indices; [(u, k)]). split_and!.
  - apply comprehension_fmap. intros [u i] _. unfold attr. by rewrite Hg.
  - by apply pairs_NoDup.
  - intros u i. by rewrite pairs_elem_of, Hs, Hi.
Qed.

(** X23. [get_qubits] raises [KeyError] exactly when the index is left
    out and the graph has no ['tile'] size, and [AttributeError] exactly
    when [from_nice] is not set and there is something to yield; it raises
    nothing else. Otherwise it yields one label for each shore and each
    index asked for: with the defaults, two times the size of a shore, and
    nothing when this size is not positive. *)
Theorem get_qubits_errors (T : t) (tile : list Z) (shore k : option Z) :
  match get_qubits T tile shore k with
  | Ok qs =>
      ∃ n, match k with
           | None => ∃ size, g_tile (graph T) = Some size ∧ n = Z.max 0 size
           | Some _ => n = 1
           end ∧
           len qs = (if shore is Some _ then 1 else 2) * n ∧
           (from_nice T = None → n = 0)
  | Raise e =>
      (e = KeyError ∧ k = None ∧ g_tile (graph T) = None) ∨
      (e = AttributeError ∧ from_nice T = None ∧
       (k = None → ∃ size, g_tile (graph T) = Some size ∧ 1 ≤ size))
  end.
Proof.
  unfold get_qubits.
  set (shores := match shore with None => [0; 1] | Some shore => [shore] end).
  assert (len shores = if shore is Some _ then 1 else 2) as Hshores
    by (by destruct shore).
  assert (shores ≠ []) as Hne by (by destruct shore).
  destruct (match k with
            | None => tile ← of_option KeyError (g_tile (graph T)); Ok (range_int tile)
            | Some k => Ok [k]
            end) as [indices|e] eqn:Hind; cbn [mbind result_bind].
  - assert (∃ n, match k with
                 | None => ∃ size, g_tile (graph T) = Some size ∧ n = Z.max 0 size
                 | Some _ => n = 1
                 end ∧ len indices = n ∧
                 (indices ≠ [] → k = None →
                  ∃ size, g_tile (graph T) = Some size ∧ 1 ≤ size))
      as (n & Hn & Hlen & Hpos).
    { destruct k as [k|].
      - injection Hind as <-. exists 1. by split_and!.
      - destruct (g_tile (graph T)) as [size|]; [|done]. injection Hind as <-.
        exists (Z.max 0 size). split_and!; [by exists size|apply range_int_len|].
        intros Hne' _. exists size. split; [done|].
        destruct (decide (1 ≤ size)); [done|]. destruct Hne'.
        unfold range_int. replace (Z.to_nat size) with 0%nat by lia. done. }
    destruct (from_nice T) as [g|] eqn:Hg.
    + rewrite (comprehension_fmap _
                 (λ p, g (LTuple ((if decide (len tile = 2) then [0] ++ tile else tile)
                                  ++ [p.1] ++ [p.2])))).
      2:{ by intros [u i] _. }
      exists n. split_and!; [done| |done].
      transitivity (len (u ← shores; k ← indices; [(u, k)])).
      { unfold len. by rewrite length_fmap. }
      by rewrite pairs_len, Hshores, Hlen.
    + destruct (decide (indices = [])) as [-> | Hne'].
      * change (len []) with 0 in Hlen. subst n shores.
        destruct shore; cbn; exists 0; by split_and!.
      * rewrite (comprehension_Raise _ AttributeError).
        -- right. split_and!; [done..|]. by apply Hpos.
        -- by intros [u i].
        -- intros Hnil. apply (f_equal len) in Hnil.
           change (len (u ← shores; k ← indices; [(u, k)]) = 0) in Hnil.
           rewrite pairs_len in Hnil.
           destruct shores, indices; done.
  - left. destruct k as [k|]; [done|].
    destruct (g_tile (graph T)); [done|]. by injection Hind as <-.
Qed.

(** The labels that [get_qubits] yields, by their coordinates. *)
Lemma get_qubits_elem_of (T : t) f g tile shore k :
  to_nice T = Some f → from_nice T = Some g →
  (length tile = 2 ∨ length tile = 3)%nat →
  (k = None → is_Some (g_tile (graph T))) →
  (∀ u i, asked_shore shore u → asked_index (g_tile (graph T)) k i →
          f (g (LTuple (pad_tile tile ++ [u; i]))) = LTuple (pad_tile tile ++ [u; i])) →
  ∃ qs, get_qubits T tile shore k = Ok qs ∧
    NoDup qs ∧
    (∀ q, q ∈ qs →
          ∃ u i, asked_shore shore u ∧ asked_index (g_tile (graph T)) k i ∧
                 q = g (LTuple (pad_tile tile ++ [u; i])) ∧
                 get_tile T q = Ok (pad_tile tile) ∧
                 get_shore T q = Ok u ∧ get_k T q = Ok i) ∧
    (∀ x u i, get_tile T x = Ok (pad_tile tile) →
              get_shore T x = Ok u → get_k T x = Ok i →
              asked_shore shore u → asked_index (g_tile (graph T)) k i →
              g (f x) = x → x ∈ qs).
Proof.
  intros Hf Hg Hlen Hsize Hinv.
  destruct (get_qubits_Ok T g tile shore k Hg Hsize) as (pairs & -> & Hnd & Hpairs).
  rewrite nice_tile_pad by done.
  destruct (pad_tile_3 tile) as (a & b & c & Hpad); [lia|]. rewrite Hpad in *.
  eexists. split; [done|]. split_and!.
  - apply NoDup_fmap_2_strong; [|done].
    intros [u i] [u' i'] [Hu Hi]%Hpairs [Hu' Hi']%Hpairs Heq. cbn [fst snd] in Heq.
    apply (f_equal f) in Heq. rewrite !Hinv in Heq by done. by simplify_eq.
  - intros q ([u i] & -> & [Hu Hi]%Hpairs)%list_elem_of_fmap. cbn [fst snd].
    exists u, i. do 3 (split; [done|]).
    by apply (readers_nice T f), Hinv.
  - intros x u i Ht Hs Hk Hu Hi Hx.
    assert (f x = LTuple ([a; b; c] ++ [u; i])) as Hfx.
    { revert Ht Hs Hk. unfold get_tile, get_shore, get_k, attr. rewrite Hf. simpl.
      destruct (unpack5 (f x)) as [[[[[t0 i0] j0] u0] k0]|] eqn:Hun; simpl; [|done].
      apply unpack5_Ok in Hun. simpl in Hun. by intros [= -> -> ->] [= ->] [= ->]. }
    apply list_elem_of_fmap. exists (u, i). split; [|by apply Hpairs].
    cbn [fst snd]. by rewrite <-Hfx, Hx.
Qed.

(** X24. When [to_nice] undoes [from_nice] on the coordinates asked
    for, [get_qubits], for a tile coordinate of two or three components,
    yields no label twice and exactly the labels of that tile (the layer
    0 for two components) on the shores and with the indices asked for:
    every label yielded has these coordinates, and every label with these
    coordinates that [from_nice] gives back from its nice coordinate is
    yielded. *)
Theorem get_qubits_coordinates (T : t) f g tile shore k :
  to_nice T = Some f → from_nice T = Some g →
  (length tile = 2 ∨ length tile = 3)%nat →
  (k = None → is_Some (g_tile (graph T))) →
  (∀ u i, asked_shore shore u → asked_index (g_tile (graph T)) k i →
          f (g (LTuple (pad_tile tile ++ [u; i]))) = LTuple (pad_tile tile ++ [u; i])) →
  ∃ qs, get_qubits T tile shore k = Ok qs ∧
    NoDup qs ∧
    (∀ q, q ∈ qs →
          get_tile T q = Ok (pad_tile tile) ∧
          (∃ u, get_shore T q = Ok u ∧ asked_shore shore u) ∧
          (∃ i, get_k T q = Ok i ∧ asked_index (g_tile (graph T)) k i)) ∧
    (∀ x u i, get_tile T x = Ok (pad_tile tile) →
              get_shore T x = Ok u → get_k T x = Ok i →
              asked_shore shore u → asked_index (g_tile (graph T)) k i →
              g (f x) = x → x ∈ qs).
Proof.
  intros Hf Hg Hlen Hsize Hinv.
  destruct (get_qubits_elem_of T f g tile shore k Hf Hg Hlen Hsize Hinv)
    as (qs & Hqs & Hnd & Hin & Hall).
  exists qs. split_and!; [done..| |done].
  intros q (u & i & Hu & Hi & _ & Ht & Hs & Hk)%Hin. eauto 10.
Qed.

(** X25. [set_tile] and [get_qubits] agree: for a tile coordinate of
    two or three components, the label to which [set_tile] moves a qubit
    is the one label that [get_qubits] yields for this coordinate, the
    shore of the qubit and its index. *)
Theorem get_qubits_set_tile (T : t) x tile q' :
  (length tile = 2 ∨ length tile = 3)%nat →
  set_tile T x tile = Ok q' →
  ∃ u i, get_shore T x = Ok u ∧ get_k T x = Ok i ∧
         get_qubits T tile (Some u) (Some i) = Ok [q'].
Proof.
  intros Hlen. unfold set_tile, get_shore, get_k, get_qubits, attr.
  destruct (to_nice T) as [f|]; simpl; [|done].
  destruct (unpack5 (f x)) as [[[[[t0 i0] j0] u] i]|]; simpl; [|done].
  destruct (from_nice T) as [g|]; simpl; [|done].
  intros [= <-]. exists u, i. split_and!; [done..|].
  pose proof (nice_tile_pad tile Hlen) as Hpad. simpl in Hpad. rewrite Hpad.
  unfold pad_tile. by rewrite <-(assoc_L (++)).
Qed.

End get_qubits_facts.

Section get_qubits_tiles.
Import DWaveNetworkXTiling.
Variable from_graph_dict : graph_dict → Converter.

(** X26. In a constructed tiling, what [get_qubits] yields for the
    coordinate of a tile agrees with the qubits of that tile: when
    [to_nice] undoes [from_nice] on the coordinates of the tile, every
    label yielded that is a qubit of the graph is a qubit of the tile, and
    every qubit of the tile on shore 0 or 1 and with an index below the
    size of a shore is yielded, if [from_nice] gives it back from its nice
    coordinate. *)
Theorem get_qubits_tile Tg T f g key tile size :
  __init__ from_graph_dict Tg = Ok T →
  to_nice T = Some f → from_nice T = Some g →
  g_tile (graph T) = Some size →
  __getitem__ T key = Ok tile →
  (∀ u i, u = 0 ∨ u = 1 → 0 ≤ i < size →
          f (g (LTuple (key ++ [u; i]))) = LTuple (key ++ [u; i])) →
  ∃ qs, get_qubits T key None None = Ok qs ∧
    (∀ q, q ∈ qs → q ∈ nx.nodes Tg → q ∈ Tile.qubits tile) ∧
    (∀ q u i, q ∈ Tile.qubits tile → g (f q) = q →
              get_shore T q = Ok u → u = 0 ∨ u = 1 →
              get_k T q = Ok i → 0 ≤ i < size → q ∈ qs).
Proof.
  intros Hinit Hf Hg Hsize Hget Hinv.
  destruct (init_tiles_of from_graph_dict Tg T Hinit) as (_ & _ & Htiles).
  specialize (Htiles key). unfold __getitem__, Dict.lookup in Hget.
  destruct (Dict.get key (tiles T)) as [tile'|]; [|done]. injection Hget as ->.
  destruct Htiles as (_ & Hqubits & _ & _ & t0 & i0 & j0 & Hkey & _).
  assert (pad_tile key = key) as Hpad by (by rewrite Hkey).
  destruct (get_qubits_elem_of T f g key None None Hf Hg) as (qs & Hqs & _ & Hin & Hall).
  { right. by rewrite Hkey. }
  { intros _. by rewrite Hsize. }
  { intros u i Hu (n & Hn & Hi). rewrite Hsize in Hn. injection Hn as <-.
    rewrite Hpad. by apply Hinv. }
  rewrite Hpad in Hin, Hall. exists qs. split_and!; [done| |].
  - intros q (u & i & _ & _ & _ & Ht & _)%Hin Hnode.
    rewrite Hqubits. by apply list_elem_of_filter.
  - intros q u i Hq Hgf Hu Hu01 Hi Hrange.
    rewrite Hqubits in Hq. apply list_elem_of_filter in Hq as [Ht _].
    apply (Hall q u i); try done. by exists size.
Qed.

End get_qubits_tiles.

Lemma get_qubits_coordinates_witness :
  ∃ T qs, DWaveNetworkXTiling.__init__ unused_converter chimera_2_2_4 = Ok T ∧
          DWaveNetworkXTiling.get_qubits T [1; 1] None None = Ok qs ∧
          NoDup qs.
Proof.
  assert (∃ T, DWaveNetworkXTiling.__init__ unused_converter chimera_2_2_4 = Ok T ∧
               DWaveNetworkXTiling.to_nice T = Some (λ x, x) ∧
               DWaveNetworkXTiling.from_nice T = Some (λ x, x) ∧
               g_tile (DWaveNetworkXTiling.graph T) = Some 4)
    as (T & HT & Hf & Hg & Hsize).
  { eexists. split; [vm_compute; reflexivity|]. split_and!; reflexivity. }
  destruct (get_qubits_coordinates T (λ x, x) (λ x, x) [1; 1] None None Hf Hg)
    as (qs & Hqs & Hnd & _).
  - by left.
  - intros _. by rewrite Hsize.
  - done.
  - exists T, qs. split; [exact HT|]. split; [exact Hqs|exact Hnd].
Defined.

Lemma get_qubits_set_tile_witness :
  ∃ T, DWaveNetworkXTiling.__init__ unused_converter chimera_2_2_4 = Ok T ∧
       DWaveNetworkXTiling.get_qubits T [1; 1] (Some 1) (Some 3) =
       Ok [LTuple [0; 1; 1; 1; 3]].
Proof.
  assert (∃ T, DWaveNetworkXTiling.__init__ unused_converter chimera_2_2_4 = Ok T ∧
               DWaveNetworkXTiling.set_tile T (LTuple [0; 0; 0; 1; 3]) [1; 1] =
               Ok (LTuple [0; 1; 1; 1; 3]) ∧
               DWaveNetworkXTiling.get_shore T (LTuple [0; 0; 0; 1; 3]) = Ok 1 ∧
               DWaveNetworkXTiling.get_k T (LTuple [0; 0; 0; 1; 3]) = Ok 3)
    as (T & HT & Hset & Hshore & Hk).
  { eexists. split; [vm_compute; reflexivity|]. split_and!; reflexivity. }
  destruct (get_qubits_set_tile T (LTuple [0; 0; 0; 1; 3]) [1; 1] _ (or_introl eq_refl) Hset)
    as (u & i & Hu & Hi & Hqs).
  rewrite Hshore in Hu. rewrite Hk in Hi. injection Hu as <-. injection Hi as <-.
  exists T. split; [exact HT|exact Hqs].
Defined.

Lemma get_qubits_tile_witness :
  ∃ T tile qs, DWaveNetworkXTiling.__init__ unused_converter chimera_2_2_4 = Ok T ∧
               DWaveNetworkXTiling.__getitem__ T [0; 1; 0] = Ok tile ∧
               DWaveNetworkXTiling.get_qubits T [0; 1; 0] None None = Ok qs ∧
               ∀ q, q ∈ qs → q ∈ nx.nodes chimera_2_2_4 → q ∈ Tile.qubits tile.
Proof.
  assert (∃ T, DWaveNetworkXTiling.__init__ unused_converter chimera_2_2_4 = Ok T ∧
               DWaveNetworkXTiling.to_nice T = Some (λ x, x) ∧
               DWaveNetworkXTiling.from_nice T = Some (λ x, x) ∧
               g_tile (DWaveNetworkXTiling.graph T) = Some 4 ∧
               ∃ tile, DWaveNetworkXTiling.__getitem__ T [0; 1; 0] = Ok tile)
    as (T & HT & Hf & Hg & Hsize & tile & Htile).
  { eexists. split; [vm_compute; reflexivity|]. split_and!; try reflexivity.
    eexists. vm_compute. reflexivity. }
  destruct (get_qubits_tile unused_converter chimera_2_2_4 T (λ x, x) (λ x, x)
              [0; 1; 0] tile 4 HT Hf Hg Hsize Htile) as (qs & Hqs & Hin & _); [done|].
  exists T, tile, qs. split; [exact HT|]. split; [exact Htile|]. split; [exact Hqs|exact Hin].
Defined.

(** ** Embedding: equality and order together *)

Section equality_and_order.
Context `{PyHash}.

(** X27. [==] and the order agree unless hashes collide: when no two
    of the values hashed for the keys collide, two Embeddings that are
    [==] have the same quality key, so that each is [<=] and [>=] the
    other, neither is [<] or [>] the other, and they have the same
    [total_qubits]; and Embeddings that are [==] have the same hash and
    are not [!=], collisions or not. *)
Theorem eq_same_quality (E F : Embedding.t) :
  Embedding.__eq__ E F = true →
  Embedding.__hash__ E = Embedding.__hash__ F ∧
  Embedding.__ne__ E F = false ∧
  (collision_free E F →
   Embedding.quality_key E = Embedding.quality_key F ∧
   Embedding.__le__ E F = true ∧ Embedding.__ge__ E F = true ∧
   Embedding.__lt__ E F = false ∧ Embedding.__gt__ E F = false ∧
   Embedding.total_qubits E = Embedding.total_qubits F).
Proof.
  unfold Embedding.__eq__, Embedding.__hash__, Embedding.__ne__.
  intros Heq%bool_decide_eq_true. split_and!.
  - by rewrite Heq.
  - apply bool_decide_eq_false_2. by intros Hne.
  - intros [Hint Htup].
    assert (Forall2 (≡ₚ) (chains E) (chains F)) as Hch.
    { rewrite !key_chain_keys in Heq.
      apply (injective_on_spec _ _ _ _ Htup) in Heq; [|left|right; left].
      apply fmap_eq_injective_on in Heq.
      - by apply chain_keys_eq_Forall2.
      - eapply injective_on_subseteq; [|exact Htup]. set_solver. }
    assert (len <$> chains E = len <$> chains F) as Hlen.
    { clear -Hch. induction Hch as [|c d cs ds Hp _ IH]; [done|].
      rewrite !fmap_cons, IH. f_equal. unfold len. by rewrite Hp. }
    assert (Embedding.quality_key E = Embedding.quality_key F) as Hqk.
    { unfold Embedding.quality_key. rewrite !chain_histogram_histogram.
      f_equal. apply sorted_reverse_Permutation, histogram_Permutation.
      by rewrite Hlen. }
    unfold Embedding.__le__, Embedding.__ge__, Embedding.__lt__, Embedding.__gt__,
      Embedding.total_qubits, list_ge, list_gt.
    rewrite !list_lt_not_le, Hqk, !list_le_refl. done.
Qed.

End equality_and_order.

Lemma eq_same_quality_witness :
  let E : Embedding.t := [(0, [1; 2]); (1, [3])] in
  let F : Embedding.t := [(5, [2; 1]); (7, [3])] in
  @Embedding.__hash__ CPython.hash E = @Embedding.__hash__ CPython.hash F ∧
  Embedding.quality_key E = Embedding.quality_key F.
Proof.
  intros E F.
  destruct (@eq_same_quality CPython.hash E F) as (Hhash & _ & Horder).
  { vm_compute. reflexivity. }
  split; [exact Hhash|]. apply Horder.
  apply (bool_decide_unpack _). vm_compute. exact I.
Defined.

(** ** Embedding: the id *)

Section id_facts.
Context `{PyHash}.

Lemma format_08_length (v : Z) : (8 ≤ length (format_08 v))%nat.
Proof.
  unfold format_08. rewrite !length_app, length_replicate.
  destruct (decide (v < 0)); simpl; lia.
Qed.

Lemma last_8_length (s : list ascii) : (8 ≤ length s)%nat → length (last_8 s) = 8%nat.
Proof. unfold last_8. rewrite length_drop. lia. Qed.

(** X28. The [id] of an Embedding is ["NATIVE"] exactly when the
    Embedding has no variable. Otherwise it is the entries of the quality
    key in decimal, one after the other, then ["_"], then exactly eight
    characters: the last eight of the hash written with at least eight
    characters; so it is nine characters longer than the quality key
    written out. Two Embeddings whose chains are, position by position,
    permutations of each other have the same [id]. *)
Theorem id_spec (E F : Embedding.t) :
  (Embedding.id E = String.list_ascii_of_string "NATIVE" ↔ E = []) ∧
  (E ≠ [] →
   ∃ hash_id,
     Embedding.id E =
       mjoin (str_int <$> Embedding.quality_key E) ++ "_"%char :: hash_id ∧
     hash_id = last_8 (format_08 (Embedding.__hash__ E)) ∧
     length hash_id = 8%nat ∧
     length (Embedding.id E) =
       (length (mjoin (str_int <$> Embedding.quality_key E)) + 9)%nat) ∧
  (Forall2 (≡ₚ) (chains E) (chains F) → Embedding.id E = Embedding.id F).
Proof.
  assert (E ≠ [] →
          ∃ hash_id,
            Embedding.id E =
              mjoin (str_int <$> Embedding.quality_key E) ++ "_"%char :: hash_id ∧
            hash_id = last_8 (format_08 (Embedding.__hash__ E)) ∧
            length hash_id = 8%nat ∧
            length (Embedding.id E) =
              (length (mjoin (str_int <$> Embedding.quality_key E)) + 9)%nat) as Hid.
  { intros HE. destruct E as [|e E]; [done|].
    eexists. split; [done|]. split; [done|].
    assert (length (last_8 (format_08 (Embedding.__hash__ (e :: E)))) = 8%nat) as Hlen
      by apply last_8_length, format_08_length.
    split; [done|]. unfold Embedding.id. rewrite length_app. simpl.
    rewrite Hlen. lia. }
  split_and!; [|done|].
  - split; [|by intros ->].
    destruct (decide (E = [])) as [|HE]; [done|].
    destruct (Hid HE) as (hash_id & _ & _ & _ & Hlen). intros Heq.
    rewrite Heq in Hlen. simpl in Hlen. lia.
  - intros Hch.
    assert (Embedding.__hash__ E = Embedding.__hash__ F) as Hhash.
    { unfold Embedding.__hash__. by rewrite !key_chain_keys, (chain_keys_Forall2 E F Hch). }
    assert (Embedding.quality_key E = Embedding.quality_key F) as Hqk.
    { unfold Embedding.quality_key. rewrite !chain_histogram_histogram.
      f_equal. apply sorted_reverse_Permutation, histogram_Permutation.
      clear -Hch. induction Hch as [|c d cs ds Hp _ IH]; [done|].
      rewrite !fmap_cons, IH. unfold len. by rewrite Hp. }
    unfold chains, Dict.values in Hch.
    destruct E as [|e E], F as [|f F]; try done.
    + by apply Forall2_nil_cons_inv in Hch.
    + by apply Forall2_cons_nil_inv in Hch.
    + unfold Embedding.id. by rewrite Hhash, Hqk.
Qed.

End id_facts.

Lemma id_spec_witness :
  let E : Embedding.t := [(0, [1; 2]); (1, [3])] in
  length (@Embedding.id CPython.hash E) = 13%nat.
Proof.
  intros E.
  destruct (@id_spec CPython.hash E E) as (_ & Hid & _).
  destruct Hid as (hash_id & _ & _ & _ & Hlen); [done|].
  exact Hlen.
Defined.
